(** * A shallow embedding of the boolean-expression compiler

    The Python sources [errors.py], [tokenizer.py], [ast.py], [parser.py],
    [optimizer.py] and [evaluator.py] are embedded module by module; then
    come the vocabulary in which the properties are stated, and the
    properties of the specification with their proofs.

    Conventions of the embedding.
    - A Python [str] is a [string]; the embedding is exact for ASCII text
      (case conversion and the character classes of the regular expressions
      are the ASCII ones).
    - Python integers that count characters, lines or edit operations are
      [nat].
    - A call either returns a value or raises: [outcome A].  Loops and the
      mutually recursive parser take a fuel argument and return
      [option (outcome A)], [None] meaning that the fuel ran out.
    - The [debug] flags only drive logging and are left out. *)

From Stdlib Require Import Ascii String.
From stdpp Require Import gmap strings list sorting.

Local Open Scope string_scope.

(** ** Python values *)

(** The values that can appear in a decoded JSON document or be bound in an
    evaluation environment. A [dict] keeps its items in order, looked up by
    first match. *)
#[warnings="-register-all"]
Inductive pyobj : Type :=
  | PyNone
  | PyBool (b : bool)
  | PyInt (z : Z)
  | PyStr (s : string)
  | PyList (items : list pyobj)
  | PyDict (items : list (string * pyobj)).

(** ** errors.py *)

Module errors.

Record SourceLocation : Type := mkSourceLocation {
  line : nat;    (* 1-indexed *)
  column : nat;  (* 1-indexed *)
  offset : nat   (* 0-indexed position in the string *)
}.

(** The [expected] argument of [UnexpectedTokenError]: [str | list[str]]. *)
Inductive expected_t : Type :=
  | ExpectedStr (s : string)
  | ExpectedList (l : list string).

(** Exceptions, by class, with the arguments their constructors receive.
    The [message] of a [CompilerError] is a function of these arguments.
    The first group are the classes of [errors.py]; the second group are the
    Python built-in exceptions the embedded functions can raise. *)
Inductive exn : Type :=
  | LexicalError (ch : ascii) (location : SourceLocation) (source : string)
  | ParseError (message : string) (source : string)
  | UnexpectedTokenError (expected : expected_t) (found : string)
      (location : SourceLocation) (source : string)
  | MissingParenthesisError (kind : string)
      (location : SourceLocation) (source : string)
  | MissingOperandError (operator : string)
      (location : SourceLocation) (source : string)
  | EndOfInputError (expected : string)
      (location : SourceLocation) (source : string)
  | UnknownVariableError (variable_name : string) (suggestions : list string)
  | ValueError (node_type : pyobj)
  | KeyError (key : string)
  | AttributeError
  | TypeError (name : string) (value : pyobj)
  | JSONDecodeError
  | IndexError.

(** Membership in the [CompilerError] class hierarchy. *)
Definition is_CompilerError (e : exn) : bool :=
  match e with
  | LexicalError _ _ _ | ParseError _ _ | UnexpectedTokenError _ _ _ _
  | MissingParenthesisError _ _ _ | MissingOperandError _ _ _
  | EndOfInputError _ _ _ | UnknownVariableError _ _ => true
  | _ => false
  end.

(** [isinstance(e, UnknownVariableError)] *)
Definition is_UnknownVariableError (e : exn) : bool :=
  match e with UnknownVariableError _ _ => true | _ => false end.

(** [isinstance(e, MissingParenthesisError)] *)
Definition is_MissingParenthesisError (e : exn) : bool :=
  match e with MissingParenthesisError _ _ _ => true | _ => false end.

(** [MissingParenthesisError.__init__]: [f"Parenthèse {kind} manquante"]. *)
Definition MissingParenthesisError_message (kind : string) : string :=
  "Parenthèse " ++ kind ++ " manquante".

(** The [kind] attribute, for the class that has one. *)
Definition kind_of (e : exn) : option string :=
  match e with MissingParenthesisError k _ _ => Some k | _ => None end.

End errors.

Export errors.

(** ** Outcomes of a call *)

Inductive outcome (A : Type) : Type :=
  | Ok (a : A)
  | Raise (e : exn).
Arguments Ok {A} a.
Arguments Raise {A} e.

Definition bind {A B : Type} (m : outcome A) (k : A -> outcome B) : outcome B :=
  match m with
  | Ok a => k a
  | Raise e => Raise e
  end.

(** Fuelled computations: [None] when the fuel is exhausted. *)
Definition fbind {A B : Type} (m : option (outcome A))
    (k : A -> option (outcome B)) : option (outcome B) :=
  match m with
  | Some (Ok a) => k a
  | Some (Raise e) => Some (Raise e)
  | None => None
  end.

Declare Scope py_scope.
Delimit Scope py_scope with py.
Notation "'let!' x ':=' m 'in' k" := (bind m (fun x => k))
  (at level 10, x pattern, m at level 100, k at level 200) : py_scope.
Notation "'let?' x ':=' m 'in' k" := (fbind m (fun x => k))
  (at level 10, x pattern, m at level 100, k at level 200) : py_scope.
Local Open Scope py_scope.

(** ** ASCII text helpers *)

#[global] Instance ascii_inhabited : Inhabited ascii := populate "000"%char.

Definition in_range (lo hi : nat) (c : ascii) : bool :=
  (lo <=? nat_of_ascii c)%nat && (nat_of_ascii c <=? hi)%nat.

Definition is_upper_letter (c : ascii) : bool := in_range 65 90 c.
Definition is_lower_letter (c : ascii) : bool := in_range 97 122 c.
Definition is_digit (c : ascii) : bool := in_range 48 57 c.

(** [c.lower()] and [c.upper()] on ASCII. *)
Definition ascii_lower (c : ascii) : ascii :=
  if is_upper_letter c then ascii_of_nat (nat_of_ascii c + 32) else c.
Definition ascii_upper (c : ascii) : ascii :=
  if is_lower_letter c then ascii_of_nat (nat_of_ascii c - 32) else c.

Fixpoint string_map (f : ascii -> ascii) (s : string) : string :=
  match s with
  | EmptyString => EmptyString
  | String c s' => String (f c) (string_map f s')
  end.

(** [s.lower()], [s.upper()] *)
Definition lower (s : string) : string := string_map ascii_lower s.
Definition upper (s : string) : string := string_map ascii_upper s.

(** [s[n:]] *)
Fixpoint string_drop (n : nat) (s : string) : string :=
  match n, s with
  | O, _ => s
  | S n', EmptyString => EmptyString
  | S n', String _ s' => string_drop n' s'
  end.

(** [s[:n]] *)
Fixpoint string_take (n : nat) (s : string) : string :=
  match n, s with
  | O, _ => EmptyString
  | S n', EmptyString => EmptyString
  | S n', String c s' => String c (string_take n' s')
  end.

(** [enumerate(l)] *)
Definition enumerate {A : Type} (l : list A) : list (nat * A) :=
  zip (seq 0 (length l)) l.

(** ** ast.py *)

Module ast.

(** [Expr = Var | BoolLit | Not | And | Or], the frozen dataclasses. *)
Inductive Expr : Type :=
  | Var (name : string)
  | BoolLit (value : bool)
  | Not (expr : Expr)
  | And (left right : Expr)
  | Or (left right : Expr).

(** [__eq__] of the five classes: the class test, then the fields. *)
Fixpoint __eq__ (self other : Expr) : bool :=
  match self, other with
  | Var n1, Var n2 => String.eqb n1 n2
  | BoolLit v1, BoolLit v2 => Bool.eqb v1 v2
  | Not e1, Not e2 => __eq__ e1 e2
  | And l1 r1, And l2 r2 => __eq__ l1 l2 && __eq__ r1 r2
  | Or l1 r1, Or l2 r2 => __eq__ l1 l2 && __eq__ r1 r2
  | _, _ => false
  end.

(** [to_json] of the five classes. *)
Fixpoint to_json (e : Expr) : pyobj :=
  match e with
  | Var name => PyDict [("type", PyStr "Var"); ("name", PyStr name)]
  | BoolLit value => PyDict [("type", PyStr "BoolLit"); ("value", PyBool value)]
  | Not expr => PyDict [("type", PyStr "Not"); ("expr", to_json expr)]
  | And l r =>
      PyDict [("type", PyStr "And"); ("left", to_json l); ("right", to_json r)]
  | Or l r =>
      PyDict [("type", PyStr "Or"); ("left", to_json l); ("right", to_json r)]
  end.

(** What [from_json] builds. The dataclasses do not check their field types,
    so [Var(name=data["name"])] stores whatever value the document holds: a
    decoded node carries Python values at its leaves. *)
Inductive Node : Type :=
  | NVar (name : pyobj)
  | NBoolLit (value : pyobj)
  | NNot (expr : Node)
  | NAnd (left right : Node)
  | NOr (left right : Node).

(** The node that is a given well-typed expression. *)
Fixpoint node_of (e : Expr) : Node :=
  match e with
  | Var name => NVar (PyStr name)
  | BoolLit value => NBoolLit (PyBool value)
  | Not expr => NNot (node_of expr)
  | And l r => NAnd (node_of l) (node_of r)
  | Or l r => NOr (node_of l) (node_of r)
  end.

(** The expression a node is, when its leaves have the annotated types. *)
Fixpoint expr_of (n : Node) : option Expr :=
  match n with
  | NVar (PyStr name) => Some (Var name)
  | NBoolLit (PyBool value) => Some (BoolLit value)
  | NNot expr => Not <$> expr_of expr
  | NAnd nl nr =>
      match expr_of nl, expr_of nr with
      | Some l, Some r => Some (And l r)
      | _, _ => None
      end
  | NOr nl nr =>
      match expr_of nl, expr_of nr with
      | Some l, Some r => Some (Or l r)
      | _, _ => None
      end
  | _ => None
  end.

(** [d.get(key)] / [key in d] on the items of a dict. *)
Fixpoint dict_get (key : string) (items : list (string * pyobj)) : option pyobj :=
  match items with
  | [] => None
  | (k, v) :: rest => if String.eqb key k then Some v else dict_get key rest
  end.

(** [value == s] for a string literal [s]. *)
Definition py_eq_str (value : pyobj) (s : string) : bool :=
  match value with
  | PyStr s' => String.eqb s' s
  | _ => false
  end.

Section from_json.

(** [from_json] on a [str] argument goes through [json.loads], which is not
    part of the repository: its behaviour on a string is a parameter. *)
Variable from_json_str : string -> outcome Node.

(** [sub key] is [from_json(data[key])], a [KeyError] when the key is
    missing; the lookup and the recursive call are fused so that the
    recursion is structural. *)
Fixpoint from_json (data : pyobj) : outcome Node :=
  match data with
  | PyStr s => from_json_str s
  | PyDict items =>
      let sub key :=
        (fix field (rest : list (string * pyobj)) : outcome Node :=
           match rest with
           | [] => Raise (KeyError key)
           | (k, v) :: rest' =>
               if String.eqb key k then from_json v else field rest'
           end) items in
      let node_type := default PyNone (dict_get "type" items) in
      if py_eq_str node_type "Var" then
        match dict_get "name" items with
        | Some name => Ok (NVar name)
        | None => Raise (KeyError "name")
        end
      else if py_eq_str node_type "BoolLit" then
        match dict_get "value" items with
        | Some value => Ok (NBoolLit value)
        | None => Raise (KeyError "value")
        end
      else if py_eq_str node_type "Not" then
        let! expr := sub "expr" in Ok (NNot expr)
      else if py_eq_str node_type "And" then
        let! l := sub "left" in
        let! r := sub "right" in
        Ok (NAnd l r)
      else if py_eq_str node_type "Or" then
        let! l := sub "left" in
        let! r := sub "right" in
        Ok (NOr l r)
      else Raise (ValueError node_type)
  | _ => Raise AttributeError
  end.

End from_json.

End ast.

(** ** optimizer.py *)

Module optimizer.
Import ast.

(** [Optimizer.visit_not], given the optimized operand. The last two returns
    of the source ([Not(expr=operand)] when the operand changed, the node
    itself otherwise) are the same value. *)
Definition visit_not (operand : Expr) : Expr :=
  match operand with
  | BoolLit true => BoolLit false
  | BoolLit false => BoolLit true
  | Not x => x
  | _ => Not operand
  end.

(** [Optimizer.visit_and], given both optimized operands. *)
Definition visit_and (l r : Expr) : Expr :=
  match l with
  | BoolLit true => r
  | BoolLit false => BoolLit false
  | _ =>
      match r with
      | BoolLit true => l
      | BoolLit false => BoolLit false
      | _ => And l r
      end
  end.

(** [Optimizer.visit_or], given both optimized operands. *)
Definition visit_or (l r : Expr) : Expr :=
  match l with
  | BoolLit true => BoolLit true
  | BoolLit false => r
  | _ =>
      match r with
      | BoolLit true => BoolLit true
      | BoolLit false => l
      | _ => Or l r
      end
  end.

(** [optimize(expr)]: [expr.accept(Optimizer())]. *)
Fixpoint optimize (expr : Expr) : Expr :=
  match expr with
  | Var _ => expr
  | BoolLit _ => expr
  | Not e => visit_not (optimize e)
  | And l r => visit_and (optimize l) (optimize r)
  | Or l r => visit_or (optimize l) (optimize r)
  end.

End optimizer.

(** ** evaluator.py *)

Module evaluator.
Import ast.

(** One turn of the inner loop of [levenshtein_distance]: the body run for
    [(j, c2)], extending [current_row]. Rows are indexed with a default of
    [0]; the indices used are always within the rows (see
    [inner_loop_prefix]). *)
Definition inner_step (c1 : ascii) (previous_row : list nat)
    (current_row : list nat) (jc : nat * ascii) : list nat :=
  let '(j, c2) := jc in
  let insertions := previous_row !!! (j + 1) + 1 in
  let deletions := current_row !!! j + 1 in
  let substitutions :=
    previous_row !!! j + (if Ascii.eqb c1 c2 then 0 else 1) in
  (current_row ++ [insertions `min` (deletions `min` substitutions)])%list.

(** One turn of the outer loop, run for [(i, c1)]: the new [previous_row]. *)
Definition outer_step (s2 : list ascii) (previous_row : list nat)
    (ic : nat * ascii) : list nat :=
  let '(i, c1) := ic in
  fold_left (inner_step c1 previous_row) (enumerate s2) [i + 1].

(** The body of [levenshtein_distance] once [len(s1) >= len(s2)]. *)
Definition levenshtein_rows (s1 s2 : string) : nat :=
  if (String.length s2 =? 0)%nat then String.length s1
  else
    let previous_row := seq 0 (String.length s2 + 1) in
    let final_row :=
      fold_left (outer_step (list_ascii_of_string s2))
        (enumerate (list_ascii_of_string s1)) previous_row in
    List.last final_row 0.

(** [levenshtein_distance(s1, s2)]: the recursive call only swaps the
    arguments, after which the length test fails. *)
Definition levenshtein_distance (s1 s2 : string) : nat :=
  if (String.length s1 <? String.length s2)%nat then levenshtein_rows s2 s1
  else levenshtein_rows s1 s2.

(** The order of the sort keys [(distance, name)]: Python compares tuples
    lexicographically and strings by character code. *)
Definition key_le (a b : nat * string) : Prop :=
  a.1 < b.1 ∨ (a.1 = b.1 ∧ String.leb a.2 b.2 = true).

#[global] Instance key_le_dec (a b : nat * string) : Decision (key_le a b).
Proof. unfold key_le. apply _. Defined.

(** [find_similar_variables(variable_name, available_vars, max_distance)];
    [list.sort] is a stable sort, here stdpp's merge sort. *)
Definition find_similar_variables (variable_name : string)
    (available_vars : list string) (max_distance : nat) : list string :=
  let candidates :=
    omap (fun var =>
            let distance :=
              levenshtein_distance (lower variable_name) (lower var) in
            if (distance <=? max_distance)%nat then Some (distance, var) else None)
         available_vars in
  (merge_sort key_le candidates).*2.

(** [list(env.keys())]. A Python dict lists its keys in insertion order; a
    [gmap] lists them in an order of its own. The suggestions do not depend
    on that order (see [find_similar_variables_Permutation]). *)
Definition keys (env : gmap string pyobj) : list string :=
  (map_to_list env).*1.

(** [Evaluator.visit_var] *)
Definition visit_var (env : gmap string pyobj) (name : string) : outcome bool :=
  match env !! name with
  | None =>
      let available_vars := keys env in
      let suggestions := find_similar_variables name available_vars 3 in
      Raise (UnknownVariableError name suggestions)
  | Some (PyBool value) => Ok value
  | Some value => Raise (TypeError name value)
  end.

(** [evaluate(expr, env)]: [expr.accept(Evaluator(env))]. Both operands of
    [And] and [Or] are evaluated before they are combined. Every visit
    returns a [bool], so the assertion of [Evaluator.evaluate] holds. *)
Fixpoint evaluate (expr : Expr) (env : gmap string pyobj) : outcome bool :=
  match expr with
  | Var name => visit_var env name
  | BoolLit value => Ok value
  | Not e =>
      let! operand := evaluate e env in
      Ok (negb operand)
  | And l r =>
      let! vl := evaluate l env in
      let! vr := evaluate r env in
      Ok (vl && vr)
  | Or l r =>
      let! vl := evaluate l env in
      let! vr := evaluate r env in
      Ok (vl || vr)
  end.

End evaluator.

(** ** tokenizer.py *)

Module tokenizer.

Inductive TokenType : Type :=
  | IDENT | BOOL | AND | OR | NOT | LPAREN | RPAREN | EOF.

#[global] Instance TokenType_eq_dec : EqDecision TokenType.
Proof. solve_decision. Defined.

(** [TokenType.name] *)
Definition TokenType_name (t : TokenType) : string :=
  match t with
  | IDENT => "IDENT" | BOOL => "BOOL" | AND => "AND" | OR => "OR"
  | NOT => "NOT" | LPAREN => "LPAREN" | RPAREN => "RPAREN" | EOF => "EOF"
  end.

Record Token : Type := mkToken {
  type : TokenType;
  lexeme : string;
  location : SourceLocation
}.

(** The character classes of the three regular expressions, on ASCII. *)

(** [\s] *)
Definition is_space (c : ascii) : bool :=
  in_range 9 13 c || in_range 28 32 c.

(** [[A-Za-z_]] *)
Definition is_ident_start (c : ascii) : bool :=
  is_upper_letter c || is_lower_letter c || Ascii.eqb c "_".

(** [[A-Za-z0-9_]] *)
Definition is_ident_char (c : ascii) : bool :=
  is_ident_start c || is_digit c.

(** [.], any character but a newline *)
Definition is_not_newline (c : ascii) : bool := negb (Ascii.eqb c "010").

(** The length of the longest prefix whose characters all satisfy [p]. *)
Fixpoint span (p : ascii -> bool) (s : string) : nat :=
  match s with
  | EmptyString => 0
  | String c s' => if p c then S (span p s') else 0
  end.

(** The compiled patterns: each maps the text at the current position to the
    length of its match, [m.end() - m.start()], when there is one. *)

(** [_WHITESPACE_RE = \s+] *)
Definition _WHITESPACE_RE (text : string) : option nat :=
  let n := span is_space text in
  if (n =? 0)%nat then None else Some n.

(** [_COMMENT_RE = #.*] *)
Definition _COMMENT_RE (text : string) : option nat :=
  match text with
  | String "#" rest => Some (S (span is_not_newline rest))
  | _ => None
  end.

(** [_IDENT_RE = [A-Za-z_][A-Za-z0-9_]*] *)
Definition _IDENT_RE (text : string) : option nat :=
  match text with
  | String c rest =>
      if is_ident_start c then Some (S (span is_ident_char rest)) else None
  | EmptyString => None
  end.

(** [_KEYWORDS.get(upper)] *)
Definition _KEYWORDS (upper : string) : option TokenType :=
  if String.eqb upper "AND" then Some AND
  else if String.eqb upper "OR" then Some OR
  else if String.eqb upper "NOT" then Some NOT
  else if String.eqb upper "TRUE" then Some BOOL
  else if String.eqb upper "FALSE" then Some BOOL
  else None.

(** The state of a [Lexer]; [length] is [len(source)]. *)
Record Lexer : Type := mkLexer {
  source : string;
  enable_comments : bool;
  offset : nat;
  line : nat;
  column : nat
}.

Definition length (self : Lexer) : nat := String.length (source self).

(** [Lexer.__init__] *)
Definition __init__ (source : string) (enable_comments : bool) : Lexer :=
  mkLexer source enable_comments 0 1 1.

(** [Lexer._current_location] *)
Definition _current_location (self : Lexer) : SourceLocation :=
  mkSourceLocation (line self) (column self) (offset self).

(** One turn of the loop of [Lexer._advance]. *)
Definition _advance_step (self : Lexer) : Lexer :=
  if (offset self <? length self)%nat then
    if bool_decide (String.get (offset self) (source self) = Some "010"%char)
    then mkLexer (source self) (enable_comments self)
           (offset self + 1) (line self + 1) 1
    else mkLexer (source self) (enable_comments self)
           (offset self + 1) (line self) (column self + 1)
  else self.

(** [Lexer._advance(count)] *)
Definition _advance (self : Lexer) (count : nat) : Lexer :=
  Nat.iter count _advance_step self.

(** [Lexer._match_regex(pattern)]: [pattern.match(self.source, self.offset)] *)
Definition _match_regex (self : Lexer) (pattern : string -> option nat)
    : option nat :=
  pattern (string_drop (offset self) (source self)).

(** [Lexer._skip_whitespace] *)
Fixpoint _skip_whitespace (fuel : nat) (self : Lexer) : option Lexer :=
  match fuel with
  | 0 => None
  | S fuel' =>
      if (offset self <? length self)%nat then
        match _match_regex self _WHITESPACE_RE with
        | Some n => _skip_whitespace fuel' (_advance self n)
        | None => Some self
        end
      else Some self
  end.

(** [Lexer._skip_comment]: the lexer afterwards and the flag returned. *)
Definition _skip_comment (self : Lexer) : Lexer * bool :=
  if negb (enable_comments self) then (self, false)
  else
    match _match_regex self _COMMENT_RE with
    | Some n => (_advance self n, true)
    | None => (self, false)
    end.

(** The first loop of [Lexer._read_token]: skip blanks and comments. *)
Fixpoint _skip_blanks (fuel : nat) (self : Lexer) : option Lexer :=
  match fuel with
  | 0 => None
  | S fuel' =>
      match _skip_whitespace fuel self with
      | None => None
      | Some self1 =>
          let '(self2, skipped) := _skip_comment self1 in
          if skipped then _skip_blanks fuel' self2 else Some self2
      end
  end.

(** [Lexer._read_token]: the token read and the lexer afterwards. *)
Definition _read_token (fuel : nat) (self : Lexer)
    : option (outcome (Token * Lexer)) :=
  match _skip_blanks fuel self with
  | None => None
  | Some self =>
      if (length self <=? offset self)%nat then
        Some (Ok (mkToken EOF "" (_current_location self), self))
      else
        let location := _current_location self in
        let ch := default "000"%char (String.get (offset self) (source self)) in
        if Ascii.eqb ch "(" then
          Some (Ok (mkToken LPAREN "(" location, _advance self 1))
        else if Ascii.eqb ch ")" then
          Some (Ok (mkToken RPAREN ")" location, _advance self 1))
        else
          match _match_regex self _IDENT_RE with
          | Some n =>
              let lexeme := string_take n (string_drop (offset self) (source self)) in
              let upper := upper lexeme in
              let token_type := default IDENT (_KEYWORDS upper) in
              let final_lexeme :=
                if bool_decide (token_type ≠ IDENT) then upper else lexeme in
              Some (Ok (mkToken token_type final_lexeme location,
                        _advance self (String.length lexeme)))
          | None => Some (Raise (LexicalError ch location (source self)))
          end
  end.

(** The loop of [Lexer.tokenize]; [budget] is the fuel handed to each call
    of [_read_token]. *)
Fixpoint tokenize_loop (budget fuel : nat) (self : Lexer) (tokens : list Token)
    : option (outcome (list Token)) :=
  match fuel with
  | 0 => None
  | S fuel' =>
      let? read := _read_token budget self in
      let '(token, self) := read in
      let tokens := (tokens ++ [token])%list in
      if bool_decide (type token = EOF) then Some (Ok tokens)
      else tokenize_loop budget fuel' self tokens
  end.

(** [tokenize(source, enable_comments)]. Every turn of every loop but the
    last consumes a character, so the fuel below is never exhausted (see
    [tokenize_total]). *)
Definition tokenize (source : string) (enable_comments : bool)
    : option (outcome (list Token)) :=
  let lexer := __init__ source enable_comments in
  tokenize_loop (String.length source + 2) (String.length source + 1) lexer [].

End tokenizer.

(** ** parser.py *)

Module parser.
Import ast tokenizer.

(** The state of a [Parser]. The methods below take the parser and return
    it with their result, as they move [current]. *)
Record Parser : Type := mkParser {
  tokens : list Token;
  source : string;
  current : nat
}.

Definition set_current (self : Parser) (current : nat) : Parser :=
  mkParser (tokens self) (source self) current.

(** [Parser._peek(k)]; [tokens[-1]] of an empty sequence is an
    [IndexError]. *)
Definition _peek (self : Parser) (k : nat) : outcome Token :=
  let pos := current self + k in
  if (List.length (tokens self) <=? pos)%nat then
    match last (tokens self) with
    | Some token => Ok token
    | None => Raise IndexError
    end
  else
    match tokens self !! pos with
    | Some token => Ok token
    | None => Raise IndexError
    end.

(** [Parser._is_at_end] *)
Definition _is_at_end (self : Parser) : outcome bool :=
  let! token := _peek self 0 in
  Ok (bool_decide (type token = EOF)).

(** [Parser._advance]; [tokens[current - 1]] with [current = 0] is the last
    token. *)
Definition _advance (self : Parser) : outcome (Token * Parser) :=
  let! at_end := _is_at_end self in
  let self := if at_end then self else set_current self (current self + 1) in
  let previous :=
    match current self with
    | 0 => last (tokens self)
    | S i => tokens self !! i
    end in
  match previous with
  | Some token => Ok (token, self)
  | None => Raise IndexError
  end.

(** [Parser._check(token_type)] *)
Definition _check (self : Parser) (token_type : TokenType) : outcome bool :=
  let! at_end := _is_at_end self in
  if at_end then Ok false
  else
    let! token := _peek self 0 in
    Ok (bool_decide (type token = token_type)).

(** [Parser._match], given its [types] *)
Fixpoint _match (self : Parser) (types : list TokenType)
    : outcome (bool * Parser) :=
  match types with
  | [] => Ok (false, self)
  | t :: types' =>
      let! found := _check self t in
      if found then
        let! advanced := _advance self in
        Ok (true, advanced.2)
      else _match self types'
  end.

(** [f"{token.type.name}('{token.lexeme}')"] *)
Definition found_str (token : Token) : string :=
  TokenType_name (type token) ++ "('" ++ lexeme token ++ "')".

(** [Parser._consume(token_type, expected)]; [expected or token_type.name]
    is the name when [expected] is [None] or empty. *)
Definition _consume (self : Parser) (token_type : TokenType)
    (expected : option string) : outcome (Token * Parser) :=
  let! found := _check self token_type in
  if found then _advance self
  else
    let! token := _peek self 0 in
    let expected_str :=
      match expected with
      | Some (String c rest) => String c rest
      | _ => TokenType_name token_type
      end in
    Raise (UnexpectedTokenError (ExpectedStr expected_str) (found_str token)
             (location token) (source self)).

(** [Parser._error_location] *)
Definition _error_location (self : Parser) : outcome SourceLocation :=
  let! token := _peek self 0 in
  Ok (location token).

(** A helper call in the fuelled setting. *)
Definition call {A : Type} (m : outcome A) : option (outcome A) := Some m.

(** The [try ... except UnexpectedTokenError as e] of [parse_primary]. *)
Definition except_UnexpectedTokenError {A : Type} (m : outcome A)
    (handler : SourceLocation -> outcome A) : outcome A :=
  match m with
  | Raise (UnexpectedTokenError _ _ location _) => handler location
  | _ => m
  end.

(** The grammar methods: [parse_or], [parse_and], [parse_not] and
    [parse_primary], with the [while] loops of the first two as
    [parse_or_loop] and [parse_and_loop]. *)
Fixpoint parse_or (fuel : nat) (self : Parser)
    : option (outcome (Expr * Parser)) :=
  match fuel with
  | 0 => None
  | S fuel =>
      let? r := parse_and fuel self in
      parse_or_loop fuel r.1 r.2
  end
with parse_or_loop (fuel : nat) (expr : Expr) (self : Parser)
    : option (outcome (Expr * Parser)) :=
  match fuel with
  | 0 => None
  | S fuel =>
      let? m := call (_match self [OR]) in
      if m.1 then
        let? r := parse_and fuel m.2 in
        parse_or_loop fuel (Or expr r.1) r.2
      else Some (Ok (expr, m.2))
  end
with parse_and (fuel : nat) (self : Parser)
    : option (outcome (Expr * Parser)) :=
  match fuel with
  | 0 => None
  | S fuel =>
      let? r := parse_not fuel self in
      parse_and_loop fuel r.1 r.2
  end
with parse_and_loop (fuel : nat) (expr : Expr) (self : Parser)
    : option (outcome (Expr * Parser)) :=
  match fuel with
  | 0 => None
  | S fuel =>
      let? m := call (_match self [AND]) in
      if m.1 then
        let? r := parse_not fuel m.2 in
        parse_and_loop fuel (And expr r.1) r.2
      else Some (Ok (expr, m.2))
  end
with parse_not (fuel : nat) (self : Parser)
    : option (outcome (Expr * Parser)) :=
  match fuel with
  | 0 => None
  | S fuel =>
      let? m := call (_match self [NOT]) in
      if m.1 then
        let? r := parse_not fuel m.2 in
        Some (Ok (Not r.1, r.2))
      else parse_primary fuel m.2
  end
with parse_primary (fuel : nat) (self : Parser)
    : option (outcome (Expr * Parser)) :=
  match fuel with
  | 0 => None
  | S fuel =>
      let? token := call (_peek self 0) in
      let? m := call (_match self [BOOL]) in
      if m.1 then
        let value := String.eqb (upper (lexeme token)) "TRUE" in
        Some (Ok (BoolLit value, m.2))
      else
      let? m := call (_match m.2 [IDENT]) in
      if m.1 then Some (Ok (Var (lexeme token), m.2))
      else
      let? m := call (_match m.2 [LPAREN]) in
      if m.1 then
        let? r := parse_or fuel m.2 in
        let? c := call (except_UnexpectedTokenError
                          (_consume r.2 RPAREN (Some "parenthèse fermante ')'"))
                          (fun location =>
                             Raise (MissingParenthesisError "fermante"
                                      location (source r.2)))) in
        Some (Ok (r.1, c.2))
      else
      let self := m.2 in
      let? at_end := call (_is_at_end self) in
      if at_end then
        let? location := call (_error_location self) in
        Some (Raise (EndOfInputError
                       "identifiant, booléen, ou parenthèse ouvrante"
                       location (source self)))
      else
        Some (Raise (UnexpectedTokenError
                       (ExpectedList ["identifiant"; "booléen (TRUE/FALSE)";
                                      "parenthèse ouvrante ('(')"])
                       (found_str token) (location token) (source self)))
  end.

(** [Parser.parse_expression] *)
Definition parse_expression (fuel : nat) (self : Parser)
    : option (outcome Expr) :=
  let? r := parse_or fuel self in
  let? at_end := call (_is_at_end r.2) in
  if negb at_end then
    let? token := call (_peek r.2 0) in
    Some (Raise (UnexpectedTokenError (ExpectedStr "fin d'expression")
                   (found_str token) (location token) (source r.2)))
  else Some (Ok r.1).

(** [parse(source)]. [tokenize] raises nothing but a [LexicalError], which
    is raised again; the other branch of the handler wraps whatever else
    was raised in a [ParseError]. Four units of fuel per token and four more
    are enough for the grammar methods. *)
Definition parse (source : string) : option (outcome Expr) :=
  match tokenize source true with
  | None => None
  | Some (Raise (LexicalError ch location src)) =>
      Some (Raise (LexicalError ch location src))
  | Some (Raise _) => Some (Raise (ParseError "Erreur lexicale" source))
  | Some (Ok tokens) =>
      let parser := mkParser tokens source 0 in
      parse_expression (4 * List.length tokens + 4) parser
  end.

End parser.

(** ** pretty.py *)

Module pretty.
Import ast.

Inductive CaseStyle : Type := UPPER | LOWER | MIXED.

(** [CaseStyle(value)]: the member with that value, or a [ValueError]. *)
Definition CaseStyle_of_value (value : string) : outcome CaseStyle :=
  if String.eqb value "upper" then Ok UPPER
  else if String.eqb value "lower" then Ok LOWER
  else if String.eqb value "mixed" then Ok MIXED
  else Raise (ValueError (PyStr value)).

Record PrettyOptions : Type := mkPrettyOptions {
  case_style : CaseStyle;
  show_parentheses : string;  (* "always", "minimal", "never" *)
  indent : nat
}.

(** [s.capitalize()] on ASCII. *)
Definition capitalize (s : string) : string :=
  match s with
  | EmptyString => EmptyString
  | String c rest => String (ascii_upper c) (lower rest)
  end.

Definition PREC_NOT : nat := 3.
Definition PREC_AND : nat := 2.
Definition PREC_OR : nat := 1.
Definition PREC_PAREN : nat := 0.

(** The state of a [SmartPrettyPrinter]: its options do not change, its
    [_parent_precedence] does. *)
Record SmartPrettyPrinter : Type := mkSmartPrettyPrinter {
  options : PrettyOptions;
  _parent_precedence : nat
}.

Definition set_parent_precedence (self : SmartPrettyPrinter) (prec : nat)
    : SmartPrettyPrinter :=
  mkSmartPrettyPrinter (options self) prec.

(** [SmartPrettyPrinter._format_keyword] *)
Definition _format_keyword (self : SmartPrettyPrinter) (keyword : string)
    : string :=
  match case_style (options self) with
  | UPPER => upper keyword
  | LOWER => lower keyword
  | MIXED => capitalize keyword
  end.

(** [SmartPrettyPrinter._format_bool] *)
Definition _format_bool (self : SmartPrettyPrinter) (value : bool) : string :=
  match case_style (options self) with
  | UPPER => if value then "TRUE" else "FALSE"
  | LOWER => if value then "true" else "false"
  | MIXED => if value then "True" else "False"
  end.

(** [SmartPrettyPrinter._needs_parens] *)
Definition _needs_parens (self : SmartPrettyPrinter) (expr_precedence : nat)
    : bool :=
  if String.eqb (show_parentheses (options self)) "always" then true
  else if String.eqb (show_parentheses (options self)) "never" then false
  else (expr_precedence <? _parent_precedence self)%nat.

(** [SmartPrettyPrinter._wrap_if_needed] *)
Definition _wrap_if_needed (self : SmartPrettyPrinter) (s : string)
    (expr_precedence : nat) : string :=
  if _needs_parens self expr_precedence then "(" ++ s ++ ")" else s.

(** [isinstance(expr, ast.Not)] and [isinstance(expr, ast.Or)] *)
Definition isinstance_Not (expr : Expr) : bool :=
  match expr with Not _ => true | _ => false end.
Definition isinstance_Or (expr : Expr) : bool :=
  match expr with Or _ _ => true | _ => false end.

(** [expr.accept(self)]: the four visit methods, which return the string and
    leave the printer in the state they put it in. *)
Fixpoint accept (expr : Expr) (self : SmartPrettyPrinter)
    : string * SmartPrettyPrinter :=
  match expr with
  | Var name => (name, self)
  | BoolLit value => (_format_bool self value, self)
  | Not e =>
      let not_keyword := _format_keyword self "NOT" in
      let old_prec := _parent_precedence self in
      let self := set_parent_precedence self PREC_NOT in
      let '(operand_str, self) := accept e self in
      let self := set_parent_precedence self old_prec in
      let operand_str :=
        if isinstance_Not e && _needs_parens self PREC_NOT
        then "(" ++ operand_str ++ ")" else operand_str in
      (not_keyword ++ " " ++ operand_str, self)
  | And l r =>
      let and_keyword := _format_keyword self "AND" in
      let old_prec := _parent_precedence self in
      let self := set_parent_precedence self PREC_AND in
      let '(left_str, self) := accept l self in
      let '(right_str, self) := accept r self in
      let self := set_parent_precedence self old_prec in
      let left_str :=
        if isinstance_Or l && _needs_parens self PREC_OR
        then "(" ++ left_str ++ ")" else left_str in
      let right_str :=
        if isinstance_Or r && _needs_parens self PREC_OR
        then "(" ++ right_str ++ ")" else right_str in
      let result := left_str ++ " " ++ and_keyword ++ " " ++ right_str in
      (_wrap_if_needed self result PREC_AND, self)
  | Or l r =>
      let or_keyword := _format_keyword self "OR" in
      let old_prec := _parent_precedence self in
      let self := set_parent_precedence self PREC_OR in
      let '(left_str, self) := accept l self in
      let '(right_str, self) := accept r self in
      let self := set_parent_precedence self old_prec in
      let result := left_str ++ " " ++ or_keyword ++ " " ++ right_str in
      (_wrap_if_needed self result PREC_OR, self)
  end.

(** [SmartPrettyPrinter.format] *)
Definition format (self : SmartPrettyPrinter) (expr : Expr)
    : string * SmartPrettyPrinter :=
  let self := set_parent_precedence self PREC_PAREN in
  accept expr self.

(** [pretty_print(expr, case_style, show_parentheses, indent)]; a
    [case_style] given as a string is lowered and looked up. *)
Definition pretty_print (expr : Expr) (case_style : CaseStyle + string)
    (show_parentheses : string) (indent : nat) : outcome string :=
  let! case_style :=
    match case_style with
    | inl style => Ok style
    | inr value => CaseStyle_of_value (lower value)
    end in
  let options := mkPrettyOptions case_style show_parentheses indent in
  let printer := mkSmartPrettyPrinter options PREC_PAREN in
  Ok (format printer expr).1.

End pretty.

(** ** ast.py: the simple pretty-printer *)

Module ast_printer.
Import ast.

(** [sep.join(l)] *)
Fixpoint join (sep : string) (l : list string) : string :=
  match l with
  | [] => ""
  | x :: l' =>
      match l' with
      | [] => x
      | _ => x ++ sep ++ join sep l'
      end
  end.

(** [s * n] *)
Fixpoint repeat_string (s : string) (n : nat) : string :=
  match n with
  | 0 => ""
  | S n' => s ++ repeat_string s n'
  end.

(** [str(value)] of a [bool] *)
Definition str_bool (value : bool) : string :=
  if value then "True" else "False".

(** The state of an [ASTPrettyPrinter]. *)
Record ASTPrettyPrinter : Type := mkASTPrettyPrinter {
  _lines : list string;
  _indent_level : nat
}.

(** [ASTPrettyPrinter.__init__] *)
Definition __init__ : ASTPrettyPrinter := mkASTPrettyPrinter [] 0.

(** [ASTPrettyPrinter._add_line] *)
Definition _add_line (self : ASTPrettyPrinter) (text : string)
    : ASTPrettyPrinter :=
  let indent := repeat_string "  " (_indent_level self) in
  mkASTPrettyPrinter (_lines self ++ [(indent ++ text)%string])%list
    (_indent_level self).

(** [ASTPrettyPrinter._with_indent]; the visits raise nothing, so the
    [finally] clause runs after [func] has returned. *)
Definition _with_indent (self : ASTPrettyPrinter)
    (func : ASTPrettyPrinter -> ASTPrettyPrinter) : ASTPrettyPrinter :=
  let self := mkASTPrettyPrinter (_lines self) (_indent_level self + 1) in
  let self := func self in
  mkASTPrettyPrinter (_lines self) (_indent_level self - 1).

(** [expr.accept(self)]: the five visit methods. *)
Fixpoint accept (expr : Expr) (self : ASTPrettyPrinter) : ASTPrettyPrinter :=
  match expr with
  | Var name => _add_line self ("Var(name=" ++ name ++ ")")
  | BoolLit value =>
      _add_line self ("BoolLit(value=" ++ str_bool value ++ ")")
  | Not e =>
      let self := _add_line self "Not" in
      _with_indent self (fun self => accept e self)
  | And l r =>
      let self := _add_line self "And" in
      _with_indent self (fun self => accept r (accept l self))
  | Or l r =>
      let self := _add_line self "Or" in
      _with_indent self (fun self => accept r (accept l self))
  end.

(** [ASTPrettyPrinter.format]: the text and the printer afterwards. *)
Definition format (self : ASTPrettyPrinter) (expr : Expr)
    : string * ASTPrettyPrinter :=
  let self := mkASTPrettyPrinter [] 0 in
  let self := accept expr self in
  (join (String "010" "") (_lines self), self).

(** [pretty_print(expr)] *)
Definition pretty_print (expr : Expr) : string :=
  (format __init__ expr).1.

End ast_printer.

(** * Vocabulary of the properties *)

(** ** Normal forms of the optimizer *)

Section optimizer_vocabulary.
Import ast.

(** [isinstance(e, BoolLit)] and [isinstance(e, Not)] *)
Definition is_BoolLit (e : Expr) : bool :=
  match e with BoolLit _ => true | _ => false end.

Definition is_Not (e : Expr) : bool :=
  match e with Not _ => true | _ => false end.

(** A node that one of the rewriting rules applies to. *)
Definition foldable (e : Expr) : bool :=
  match e with
  | Not x => is_BoolLit x || is_Not x
  | And l r => is_BoolLit l || is_BoolLit r
  | Or l r => is_BoolLit l || is_BoolLit r
  | _ => false
  end.

(** [subterm s e]: [s] occurs in [e], possibly as [e] itself. *)
Inductive subterm (s : Expr) : Expr -> Prop :=
  | subterm_refl : subterm s s
  | subterm_Not x : subterm s x -> subterm s (Not x)
  | subterm_And_l l r : subterm s l -> subterm s (And l r)
  | subterm_And_r l r : subterm s r -> subterm s (And l r)
  | subterm_Or_l l r : subterm s l -> subterm s (Or l r)
  | subterm_Or_r l r : subterm s r -> subterm s (Or l r).

(** [proper_subterm s e]: [s] occurs in [e] below the root. *)
Definition proper_subterm (s e : Expr) : Prop :=
  match e with
  | Not x => subterm s x
  | And l r | Or l r => subterm s l ∨ subterm s r
  | _ => False
  end.

(** No rule applies anywhere in the tree. *)
Fixpoint normal (e : Expr) : bool :=
  match e with
  | Var _ | BoolLit _ => true
  | Not x => negb (foldable e) && normal x
  | And l r | Or l r => negb (foldable e) && normal l && normal r
  end.

(** The number of nodes of a tree. *)
Fixpoint size (e : Expr) : nat :=
  match e with
  | Var _ | BoolLit _ => 1
  | Not x => S (size x)
  | And l r | Or l r => S (size l + size r)
  end.

End optimizer_vocabulary.

(** ** Environments, the edit-distance table and the order of suggestions *)

Section evaluator_vocabulary.
Import ast evaluator.

(** The variables occurring in an expression. *)
Fixpoint free_vars (expr : Expr) : gset string :=
  match expr with
  | Var name => {[ name ]}
  | BoolLit _ => ∅
  | Not e => free_vars e
  | And l r => free_vars l ∪ free_vars r
  | Or l r => free_vars l ∪ free_vars r
  end.

(** The edit distance as the specification words it: the classic
    dynamic-programming table, [edit_table s t i j] being the distance
    between the first [i] characters of [s] and the first [j] of [t], with
    unit cost for an insertion, a deletion and a substitution. *)
Fixpoint edit_table (s t : list ascii) (i : nat) : nat -> nat :=
  match i with
  | 0 => fun j => j
  | S i' =>
      fix row (j : nat) : nat :=
        match j with
        | 0 => S i'
        | S j' =>
            (edit_table s t i' (S j') + 1) `min`
            ((row j' + 1) `min`
             (edit_table s t i' j' +
              (if Ascii.eqb (s !!! i') (t !!! j') then 0 else 1)))
        end
  end.

Definition edit_distance (s t : string) : nat :=
  edit_table (list_ascii_of_string s) (list_ascii_of_string t)
    (String.length s) (String.length t).

(** The environment binds [x] to a boolean. *)
Definition binds_bool (env : gmap string pyobj) (x : string) : Prop :=
  match env !! x with Some (PyBool _) => True | _ => False end.

#[global] Instance binds_bool_dec env x : Decision (binds_bool env x).
Proof. unfold binds_bool. destruct (env !! x) as [[]|]; apply _. Defined.

(** [isinstance(v, bool)] *)
Definition is_bool (v : pyobj) : Prop :=
  match v with PyBool _ => True | _ => False end.

#[global] Instance is_bool_dec v : Decision (is_bool v).
Proof. destruct v; apply _. Defined.

(** An environment in the sense of the data model: every value is a
    boolean. *)
Definition bool_env (env : gmap string pyobj) : Prop :=
  map_Forall (fun _ v => is_bool v) env.

(** The cost of a substitution: [c1 != c2] as an integer. *)
Definition cost (c1 c2 : ascii) : nat := if Ascii.eqb c1 c2 then 0 else 1.

(** Row [i] of the table, as the list the code keeps in [previous_row]. *)
Definition table_row (s t : list ascii) (i : nat) : list nat :=
  edit_table s t i <$> seq 0 (List.length t + 1).

(** The case-insensitive distance between the missing name and a key. *)
Definition distance_to (variable_name var : string) : nat :=
  edit_distance (lower variable_name) (lower var).

(** The sort key of a candidate. *)
Definition sort_key (variable_name var : string) : nat * string :=
  (distance_to variable_name var, var).

(** [a] comes before [b], or is [b], in the order of the keys. *)
Definition suggestion_le (variable_name : string) : relation string :=
  fun a b => key_le (sort_key variable_name a) (sort_key variable_name b).

End evaluator_vocabulary.

(** ** Decoding of JSON documents *)

Section json_vocabulary.
Import ast.

(** [from_json(data[key])]: the lookup, then the decoding of the value found
    or a [KeyError]. *)
Definition decode_field (from_json_str : string -> outcome Node)
    (key : string) (items : list (string * pyobj)) : outcome Node :=
  match dict_get key items with
  | Some v => from_json from_json_str v
  | None => Raise (KeyError key)
  end.

(** The recognized ["type"] tags. *)
Definition known_tags : list string := ["Var"; "BoolLit"; "Not"; "And"; "Or"].

Definition known_tag (node_type : pyobj) : bool :=
  existsb (py_eq_str node_type) known_tags.

(** The fields that [from_json] reads for a tag. *)
Definition required_fields (tag : string) : list string :=
  if String.eqb tag "Var" then ["name"]
  else if String.eqb tag "BoolLit" then ["value"]
  else if String.eqb tag "Not" then ["expr"]
  else if String.eqb tag "And" then ["left"; "right"]
  else if String.eqb tag "Or" then ["left"; "right"]
  else [].

(** A generic error: a Python built-in exception, not one of the classes of
    [errors.py]. *)
Definition generic_error (e : exn) : Prop := is_CompilerError e = false.

(** The number of constructors of a Python value. *)
Fixpoint pyobj_size (d : pyobj) : nat :=
  match d with
  | PyList items =>
      S ((fix go (l : list pyobj) : nat :=
            match l with
            | [] => 0
            | x :: l' => pyobj_size x + go l'
            end) items)
  | PyDict items =>
      S ((fix go (l : list (string * pyobj)) : nat :=
            match l with
            | [] => 0
            | (_, v) :: l' => pyobj_size v + go l'
            end) items)
  | _ => 1
  end.

(** The keys [from_json] reads in a dict. *)
Definition read_keys : list string :=
  ["type"; "name"; "value"; "expr"; "left"; "right"].

End json_vocabulary.

(** ** States of the lexer *)

Section tokenizer_vocabulary.
Import tokenizer.

(** What is left to read. *)
Definition remaining (self : Lexer) : nat := length self - offset self.

(** [after self self']: [self'] is a later state of the lexer [self]. *)
Definition after (self self' : Lexer) : Prop :=
  source self' = source self /\
  enable_comments self' = enable_comments self /\
  offset self <= offset self' <= length self.

(** The length of the longest prefix of a list whose elements satisfy
    [p]. *)
Fixpoint prefix_length {A : Type} (p : A -> bool) (l : list A) : nat :=
  match l with
  | [] => 0
  | x :: l' => if p x then S (prefix_length p l') else 0
  end.

(** [source[start:start + n]] *)
Definition slice (source : string) (start n : nat) : string :=
  string_take n (string_drop start source).

(** The line of the character at [offset]: one more than the number of
    newlines before it. *)
Definition line_of (source : string) (offset : nat) : nat :=
  1 + List.length
        (filter (fun c => c = "010"%char)
           (take offset (list_ascii_of_string source))).

(** The column of the character at [offset]: one more than the number of
    characters between it and the last newline before it, or the start. *)
Definition column_of (source : string) (offset : nat) : nat :=
  1 + prefix_length is_not_newline
        (reverse (take offset (list_ascii_of_string source))).

(** A location that is where its offset says, within [source]. *)
Definition located_in (source : string) (l : SourceLocation) : Prop :=
  errors.offset l <= String.length source /\
  errors.line l = line_of source (errors.offset l) /\
  errors.column l = column_of source (errors.offset l).

(** A lexer whose line and column are those of its offset. *)
Definition located (self : Lexer) : Prop :=
  located_in (source self) (_current_location self).

(** The offset just after a token. *)
Definition token_end (token : Token) : nat :=
  errors.offset (location token) + String.length (lexeme token).

(** The fixed lexeme of a token type, for the types that have one. *)
Definition fixed_lexeme (t : TokenType) : option string :=
  match t with
  | LPAREN => Some "("
  | RPAREN => Some ")"
  | EOF => Some ""
  | _ => None
  end.

(** The lexeme of a token against the text of [source] at its offset: equal
    to it up to case; a parenthesis or empty for [LPAREN], [RPAREN] and
    [EOF]; the keyword in upper case for a keyword; the text itself, a
    whole identifier that is no keyword, for [IDENT]. *)
Definition token_shape (source : string) (token : Token) : Prop :=
  let text :=
    slice source (errors.offset (location token))
      (String.length (lexeme token)) in
  upper text = upper (lexeme token) /\
  match type token with
  | LPAREN | RPAREN | EOF => fixed_lexeme (type token) = Some (lexeme token)
  | IDENT =>
      lexeme token = text /\
      _IDENT_RE (lexeme token) = Some (String.length (lexeme token)) /\
      _KEYWORDS (upper (lexeme token)) = None
  | keyword => _KEYWORDS (lexeme token) = Some keyword
  end.

(** A character no token starts with. *)
Definition unexpected_char (enable_comments : bool) (ch : ascii) : Prop :=
  is_space ch = false /\ is_ident_start ch = false /\
  ch <> "("%char /\ ch <> ")"%char /\
  (enable_comments = true -> ch <> "#"%char).

(** The text that the lexer has still to read. *)
Definition text_at (self : Lexer) : string :=
  string_drop (offset self) (source self).

(** No blank, and no comment when comments are enabled, at the position of
    the lexer. *)
Definition at_token (self : Lexer) : Prop :=
  forall c rest, text_at self = String c rest ->
    is_space c = false /\
    (enable_comments self = true -> c <> "#"%char).

(** [t1] ends where [t2] starts, or before. *)
Definition precedes (t1 t2 : Token) : Prop :=
  token_end t1 <= errors.offset (location t2).

(** What holds of every token of a source: its location is that of its
    offset, its lexeme is the text there, and it ends within the source. *)
Definition token_in (source : string) (token : Token) : Prop :=
  located_in source (location token) /\
  token_shape source token /\
  token_end token <= String.length source.

End tokenizer_vocabulary.

(** ** States of the parser *)

Section parser_vocabulary.
Import ast tokenizer parser.

(** The methods move [current] and nothing else. *)
Definition same_input (self self' : Parser) : Prop :=
  tokens self' = tokens self /\ source self' = source self.

(** [f] keeps the input of the parser when it returns a value. *)
Definition preserves (f : Parser -> option (outcome (Expr * Parser))) : Prop :=
  forall self r, f self = Some (Ok r) -> same_input self r.2.

(** The parser stands on a token and the last token is an [EOF], as in the
    output of [tokenize]. *)
Definition in_bounds (self : Parser) : Prop :=
  current self < List.length (tokens self) /\
  exists token, last (tokens self) = Some token /\ type token = EOF.

(** [self'] is a later state of the parser [self]. *)
Definition advances (self self' : Parser) : Prop :=
  same_input self self' /\ current self <= current self' /\ in_bounds self'.

(** The number of tokens before the last one that are still to read. *)
Definition rest (self : Parser) : nat :=
  List.length (tokens self) - 1 - current self.

(** [f] returns on [self], in a later state when it returns a value. *)
Definition returns_from (f : Parser -> option (outcome (Expr * Parser)))
    (self : Parser) : Prop :=
  exists res, f self = Some res /\
    forall r, res = Ok r -> advances self r.2.

(** A syntax error of the parser on the tokens and the source of [self]: one
    of the three classes that the grammar methods raise, located at one of
    the tokens, the [EOF] token for [EndOfInputError]. *)
Definition syntax_error_at (token : Token) (source : string) (e : exn) : Prop :=
  (exists expected,
     e = UnexpectedTokenError expected (found_str token) (location token)
           source) \/
  e = MissingParenthesisError "fermante" (location token) source \/
  (exists expected,
     e = EndOfInputError expected (location token) source /\
     type token = EOF).

Definition syntax_error (self : Parser) (e : exn) : Prop :=
  exists token, token ∈ tokens self /\ syntax_error_at token (source self) e.

(** [f], when it returns on [self], returns a value and a later state, or
    raises a syntax error. *)
Definition sound_from (f : Parser -> option (outcome (Expr * Parser)))
    (self : Parser) : Prop :=
  match f self with
  | Some (Ok r) => advances self r.2
  | Some (Raise e) => syntax_error self e
  | None => True
  end.

End parser_vocabulary.

(** ** Reading tokens *)

Section reading_vocabulary.
Import tokenizer.

(** [reads budget self tokens self']: from [self], the calls of
    [_read_token] return the tokens of [tokens] one after the other, none
    of them an [EOF], and leave the lexer in [self']. *)
Fixpoint reads (budget : nat) (self : Lexer) (tokens : list Token)
    (self' : Lexer) : Prop :=
  match tokens with
  | [] => self' = self
  | token :: tokens =>
      exists self1,
        _read_token budget self = Some (Ok (token, self1)) /\
        type token <> EOF /\
        reads budget self1 tokens self'
  end.

(** A name that the tokenizer reads as one [IDENT] token: it matches
    [_IDENT_RE] as a whole and is no keyword in any casing. *)
Definition is_identifier (name : string) : Prop :=
  _IDENT_RE name = Some (String.length name) /\
  _KEYWORDS (upper name) = None.

#[global] Instance is_identifier_dec name : Decision (is_identifier name).
Proof. unfold is_identifier. apply _. Defined.

(** Nothing or one space. *)
Definition blank (pre : string) : Prop := pre = "" \/ pre = " ".

(** A text that does not go on with an identifier character. *)
Definition delimited (rest : string) : Prop := span is_ident_char rest = 0.

End reading_vocabulary.

(** ** The grammar of the parser *)

Section grammar_vocabulary.
Import ast tokenizer parser.

(** The value of a [BOOL] token. *)
Definition bool_value (token : Token) : bool :=
  String.eqb (upper (lexeme token)) "TRUE".

(** The grammar in the docstring of [Parser.parse_expression], on lists of
    tokens, with the tree that a derivation builds:

      expression -> or ;
      or         -> and ( OR and )* ;
      and        -> not ( AND not )* ;
      not        -> NOT not | primary ;
      primary    -> IDENT | BOOL | '(' expression ')' ;

    The repetitions [( OR and )*] and [( AND not )*] are [derives_or_tail]
    and [derives_and_tail]: they extend the tree on their left, [acc], to
    the left. *)
Inductive derives_or : list Token -> Expr -> Prop :=
  | derives_or_intro ts tail e0 e :
      derives_and ts e0 -> derives_or_tail e0 tail e ->
      derives_or (ts ++ tail) e
with derives_or_tail : Expr -> list Token -> Expr -> Prop :=
  | derives_or_nil acc : derives_or_tail acc [] acc
  | derives_or_cons acc token ts r tail e :
      type token = OR -> derives_and ts r ->
      derives_or_tail (Or acc r) tail e ->
      derives_or_tail acc (token :: ts ++ tail) e
with derives_and : list Token -> Expr -> Prop :=
  | derives_and_intro ts tail e0 e :
      derives_not ts e0 -> derives_and_tail e0 tail e ->
      derives_and (ts ++ tail) e
with derives_and_tail : Expr -> list Token -> Expr -> Prop :=
  | derives_and_nil acc : derives_and_tail acc [] acc
  | derives_and_cons acc token ts r tail e :
      type token = AND -> derives_not ts r ->
      derives_and_tail (And acc r) tail e ->
      derives_and_tail acc (token :: ts ++ tail) e
with derives_not : list Token -> Expr -> Prop :=
  | derives_not_not token ts e :
      type token = NOT -> derives_not ts e ->
      derives_not (token :: ts) (Not e)
  | derives_not_primary ts e :
      derives_primary ts e -> derives_not ts e
with derives_primary : list Token -> Expr -> Prop :=
  | derives_ident token :
      type token = IDENT -> derives_primary [token] (Var (lexeme token))
  | derives_bool token :
      type token = BOOL ->
      derives_primary [token] (BoolLit (bool_value token))
  | derives_paren l ts r e :
      type l = LPAREN -> derives_or ts e -> type r = RPAREN ->
      derives_primary (l :: ts ++ [r]) e.

Scheme derives_or_mut := Minimality for derives_or Sort Prop
with derives_or_tail_mut := Minimality for derives_or_tail Sort Prop
with derives_and_mut := Minimality for derives_and Sort Prop
with derives_and_tail_mut := Minimality for derives_and_tail Sort Prop
with derives_not_mut := Minimality for derives_not Sort Prop
with derives_primary_mut := Minimality for derives_primary Sort Prop.

Combined Scheme derives_mutind from
  derives_or_mut, derives_or_tail_mut, derives_and_mut, derives_and_tail_mut,
  derives_not_mut, derives_primary_mut.

(** The token that follows, [post] being what follows, is of none of
    [types]. *)
Definition stops (types : list TokenType) (post : list Token) : Prop :=
  match post with
  | next :: _ => type next ∉ types
  | [] => False
  end.

(** The tokens from the position of the parser on. *)
Definition ahead (self : Parser) : list Token :=
  drop (current self) (tokens self).

(** The parser [n] tokens further. *)
Definition forward (self : Parser) (n : nat) : Parser :=
  set_current self (current self + n).

End grammar_vocabulary.

(** ** Printed expressions *)

Section printing_vocabulary.
Import ast tokenizer parser pretty.

(** [readable_as derives s e]: wherever the text [s] stands in a source,
    after nothing or one space and before a text that does not go on with
    an identifier character, the lexer reads it as tokens from which
    [derives] gives the tree [e]. *)
Definition readable_as (derives : list Token -> Expr -> Prop) (s : string)
    (e : Expr) : Prop :=
  forall lexer pre rest budget,
    text_at lexer = pre ++ s ++ rest -> blank pre -> delimited rest ->
    2 <= budget ->
    exists tokens lexer',
      reads budget lexer tokens lexer' /\ derives tokens e /\
      text_at lexer' = rest.

(** Where the parser stands when it reads an operand: at the start of an
    expression, after [acc AND], or after [acc OR]. *)
Inductive onto : Type :=
  | Whole
  | OntoAnd (acc : Expr)
  | OntoOr (acc : Expr).

Definition attach (c : onto) (e : Expr) : Expr :=
  match c with
  | Whole => e
  | OntoAnd acc => And acc e
  | OntoOr acc => Or acc e
  end.

(** [reassociate Whole e] is [e] with its chains of [And] and its chains of
    [Or] nested to the left: [And a (And b c)] becomes [And (And a b) c].
    [reassociate (OntoAnd acc) e] is the same for [And acc e], and
    [reassociate (OntoOr acc) e] for [Or acc e]. *)
Fixpoint reassociate (c : onto) (e : Expr) : Expr :=
  match e with
  | Var _ | BoolLit _ => attach c e
  | Not x => attach c (Not (reassociate Whole x))
  | And l r =>
      match c with
      | OntoAnd acc => reassociate (OntoAnd (reassociate (OntoAnd acc) l)) r
      | _ => attach c (reassociate (OntoAnd (reassociate Whole l)) r)
      end
  | Or l r =>
      match c with
      | OntoOr acc => reassociate (OntoOr (reassociate (OntoOr acc) l)) r
      | _ => attach c (reassociate (OntoOr (reassociate Whole l)) r)
      end
  end.

(** No [And] is the right operand of an [And], and no [Or] of an [Or]. *)
Fixpoint left_nested (e : Expr) : Prop :=
  match e with
  | Var _ | BoolLit _ => True
  | Not x => left_nested x
  | And l r => left_nested l /\ left_nested r /\ forall a b, r <> And a b
  | Or l r => left_nested l /\ left_nested r /\ forall a b, r <> Or a b
  end.

(** Tokens that, after an [AND] and a tree [acc], extend [acc] with [e]. *)
Definition and_item (e : Expr) (tokens : list Token) : Prop :=
  forall acc token, type token = AND ->
    derives_and_tail acc (token :: tokens) (reassociate (OntoAnd acc) e).

(** Tokens that, after an [OR] and a tree [acc], extend [acc] with [e]. *)
Definition or_item (e : Expr) (tokens : list Token) : Prop :=
  forall acc token, type token = OR ->
    derives_or_tail acc (token :: tokens) (reassociate (OntoOr acc) e).

(** An operand of an [And], as tokens. *)
Definition and_operand (tokens : list Token) (e : Expr) : Prop :=
  derives_and tokens (reassociate Whole e) /\ and_item e tokens.

(** An operand of an [Or], as tokens. *)
Definition or_operand (tokens : list Token) (e : Expr) : Prop :=
  derives_or tokens (reassociate Whole e) /\ or_item e tokens.

(** What the tokens of [e] derive when [e] is printed with the fewest
    parentheses under an operator of precedence [parent]. *)
Definition printed (parent : nat) (tokens : list Token) (e : Expr) : Prop :=
  derives_or tokens (reassociate Whole e) /\
  (parent = PREC_OR -> or_operand tokens e) /\
  (parent = PREC_AND -> and_operand tokens e) /\
  (PREC_NOT <= parent -> derives_not tokens (reassociate Whole e)).

End printing_vocabulary.

(** ** The lines of the simple pretty-printer *)

Section ast_printer_vocabulary.
Import ast ast_printer.

(** The lines of [expr] with its root at depth [d], in the order of the
    visit. *)
Fixpoint listing (d : nat) (expr : Expr) : list string :=
  match expr with
  | Var name => [repeat_string "  " d ++ "Var(name=" ++ name ++ ")"]
  | BoolLit value =>
      [repeat_string "  " d ++ "BoolLit(value=" ++ str_bool value ++ ")"]
  | Not e => (repeat_string "  " d ++ "Not") :: listing (S d) e
  | And l r =>
      (repeat_string "  " d ++ "And") :: listing (S d) l ++ listing (S d) r
  | Or l r =>
      (repeat_string "  " d ++ "Or") :: listing (S d) l ++ listing (S d) r
  end.

(** The number of newlines of a string. *)
Fixpoint newlines (s : string) : nat :=
  match s with
  | EmptyString => 0
  | String c s' =>
      (if Ascii.eqb c "010" then 1 else 0) + newlines s'
  end.

Definition newline_free (s : string) : Prop := newlines s = 0.

#[global] Instance newline_free_dec s : Decision (newline_free s).
Proof. unfold newline_free. apply _. Defined.

End ast_printer_vocabulary.

(** * Properties *)

(** ** The optimizer *)

Section optimizer_properties.
Import ast optimizer evaluator.

Lemma normal_visit_not x : normal x = true -> normal (visit_not x) = true.
Proof.
  destruct x as [n|[]|x|l r|l r]; simpl; try done.
  rewrite andb_true_iff. tauto.
Qed.

Lemma normal_visit_and l r :
  normal l = true -> normal r = true -> normal (visit_and l r) = true.
Proof.
  intros Hl Hr.
  destruct l as [?|[]|?|??|??]; try done;
    destruct r as [?|[]|?|??|??]; try done;
    simpl in *; by rewrite ?Hl, ?Hr.
Qed.

Lemma normal_visit_or l r :
  normal l = true -> normal r = true -> normal (visit_or l r) = true.
Proof.
  intros Hl Hr.
  destruct l as [?|[]|?|??|??]; try done;
    destruct r as [?|[]|?|??|??]; try done;
    simpl in *; by rewrite ?Hl, ?Hr.
Qed.

Lemma optimize_normal e : normal (optimize e) = true.
Proof.
  induction e; simpl;
    auto using normal_visit_not, normal_visit_and, normal_visit_or.
Qed.

Lemma normal_subterm e s : normal e = true -> subterm s e -> normal s = true.
Proof.
  intros He Hs. induction Hs; simpl in He; try done;
    repeat (apply andb_true_iff in He as [He ?]); auto.
Qed.

Lemma normal_not_foldable e : normal e = true -> foldable e = false.
Proof.
  destruct e; simpl; try done; intros He;
    repeat (apply andb_true_iff in He as [He ?]);
    by apply negb_true_iff in He.
Qed.

Lemma normal_fixpoint e : normal e = true -> optimize e = e.
Proof.
  induction e as [n|b|x IH|l IHl r IHr|l IHl r IHr]; try done.
  - intros He. pose proof (normal_not_foldable _ He) as Hf.
    simpl in He. apply andb_true_iff in He as [_ He].
    simpl. rewrite (IH He). simpl in Hf. by destruct x.
  - intros He. pose proof (normal_not_foldable _ He) as Hf.
    simpl in He. repeat (apply andb_true_iff in He as [He ?]).
    simpl. rewrite IHl, IHr by done. simpl in Hf.
    destruct l; try done; destruct r; done.
  - intros He. pose proof (normal_not_foldable _ He) as Hf.
    simpl in He. repeat (apply andb_true_iff in He as [He ?]).
    simpl. rewrite IHl, IHr by done. simpl in Hf.
    destruct l; try done; destruct r; done.
Qed.

Lemma subterm_BoolLit_proper e s :
  normal e = true -> proper_subterm s e -> is_BoolLit s = false.
Proof.
  assert (Hsub : ∀ e', normal e' = true -> subterm s e' ->
            is_BoolLit s = true -> is_BoolLit e' = true).
  { intros e' He' Hs Hb. induction Hs; try done; exfalso.
    - pose proof (normal_not_foldable _ He') as Hf. simpl in *.
      apply andb_true_iff in He' as [_ He'].
      rewrite (IHHs He') in Hf. done.
    - pose proof (normal_not_foldable _ He') as Hf. simpl in *.
      repeat (apply andb_true_iff in He' as [He' ?]).
      rewrite IHHs in Hf by done. done.
    - pose proof (normal_not_foldable _ He') as Hf. simpl in *.
      repeat (apply andb_true_iff in He' as [He' ?]).
      rewrite IHHs in Hf by done. by rewrite orb_true_r in Hf.
    - pose proof (normal_not_foldable _ He') as Hf. simpl in *.
      repeat (apply andb_true_iff in He' as [He' ?]).
      rewrite IHHs in Hf by done. done.
    - pose proof (normal_not_foldable _ He') as Hf. simpl in *.
      repeat (apply andb_true_iff in He' as [He' ?]).
      rewrite IHHs in Hf by done. by rewrite orb_true_r in Hf. }
  intros He Hp. destruct (is_BoolLit s) eqn:Hb; [exfalso|done].
  pose proof (normal_not_foldable _ He) as Hf.
  destruct e as [n|b|x|l r|l r]; simpl in Hp, He, Hf; try done;
    repeat (apply andb_true_iff in He as [He ?]).
  - rewrite (Hsub x) in Hf; done.
  - destruct Hp as [Hp|Hp].
    + rewrite (Hsub l) in Hf; done.
    + rewrite (Hsub r), orb_true_r in Hf; done.
  - destruct Hp as [Hp|Hp].
    + rewrite (Hsub l) in Hf; done.
    + rewrite (Hsub r), orb_true_r in Hf; done.
Qed.

End optimizer_properties.

Section evaluator_properties.
Import ast optimizer evaluator.

(** [__eq__] decides structural equality. *)
Lemma __eq___true_iff a b : __eq__ a b = true <-> a = b.
Proof.
  revert b. induction a as [n|v|x IH|l IHl r IHr|l IHl r IHr];
    intros [n'|v'|x'|l' r'|l' r']; simpl; try (split; [done|congruence]).
  - rewrite String.eqb_eq. split; congruence.
  - rewrite Bool.eqb_true_iff. split; congruence.
  - rewrite IH. split; congruence.
  - rewrite andb_true_iff, IHl, IHr. split; [intros [-> ->]; done|intros [= -> ->]; done].
  - rewrite andb_true_iff, IHl, IHr. split; [intros [-> ->]; done|intros [= -> ->]; done].
Qed.

Lemma evaluate_visit_not env x b :
  evaluate x env = Ok b -> evaluate (visit_not x) env = Ok (negb b).
Proof.
  destruct x as [n|[]|x|l r|l r]; simpl.
  - intros ->. done.
  - intros [= <-]. done.
  - intros [= <-]. done.
  - destruct (evaluate x env); simpl; [|done].
    intros [= <-]. by rewrite negb_involutive.
  - intros ->. done.
  - intros ->. done.
Qed.

Lemma evaluate_visit_and env l r bl br :
  evaluate l env = Ok bl -> evaluate r env = Ok br ->
  evaluate (visit_and l r) env = Ok (bl && br).
Proof.
  intros Hl Hr.
  assert (Hgen : evaluate (And l r) env = Ok (bl && br))
    by (simpl; by rewrite Hl, Hr).
  destruct l as [?|[]|?|??|??];
    try (simpl in Hl; injection Hl as <-; by rewrite ?andb_true_l, ?andb_false_l);
    destruct r as [?|[]|?|??|??]; try exact Hgen;
    simpl in Hr; injection Hr as <-;
    by rewrite ?andb_true_r, ?andb_false_r.
Qed.

Lemma evaluate_visit_or env l r bl br :
  evaluate l env = Ok bl -> evaluate r env = Ok br ->
  evaluate (visit_or l r) env = Ok (bl || br).
Proof.
  intros Hl Hr.
  assert (Hgen : evaluate (Or l r) env = Ok (bl || br))
    by (simpl; by rewrite Hl, Hr).
  destruct l as [?|[]|?|??|??];
    try (simpl in Hl; injection Hl as <-; by rewrite ?orb_true_l, ?orb_false_l);
    destruct r as [?|[]|?|??|??]; try exact Hgen;
    simpl in Hr; injection Hr as <-;
    by rewrite ?orb_true_r, ?orb_false_r.
Qed.

Lemma evaluate_bound e env :
  set_Forall (binds_bool env) (free_vars e) ->
  exists b, evaluate e env = Ok b.
Proof.
  induction e as [n|v|x IH|l IHl r IHr|l IHl r IHr]; simpl; intros Hb.
  - specialize (Hb n). unfold binds_bool, visit_var in *.
    destruct (env !! n) as [[]|]; try (exfalso; apply Hb; set_solver).
    eauto.
  - eauto.
  - destruct (IH Hb) as [b ->]. simpl. eauto.
  - destruct IHl as [bl ->]; [intros x Hx; apply Hb; set_solver|].
    destruct IHr as [br ->]; [intros x Hx; apply Hb; set_solver|].
    simpl. eauto.
  - destruct IHl as [bl ->]; [intros x Hx; apply Hb; set_solver|].
    destruct IHr as [br ->]; [intros x Hx; apply Hb; set_solver|].
    simpl. eauto.
Qed.

Lemma evaluate_optimize e env b :
  evaluate e env = Ok b -> evaluate (optimize e) env = Ok b.
Proof.
  revert b. induction e as [n|v|x IH|l IHl r IHr|l IHl r IHr];
    simpl; intros b; try done.
  - destruct (evaluate x env) as [bx|] eqn:Hx; simpl; [|done].
    intros [= <-]. by apply evaluate_visit_not, IH.
  - destruct (evaluate l env) as [bl|] eqn:Hl; simpl; [|done].
    destruct (evaluate r env) as [br|] eqn:Hr; simpl; [|done].
    intros [= <-]. apply evaluate_visit_and; auto.
  - destruct (evaluate l env) as [bl|] eqn:Hl; simpl; [|done].
    destruct (evaluate r env) as [br|] eqn:Hr; simpl; [|done].
    intros [= <-]. apply evaluate_visit_or; auto.
Qed.

(** In an environment of booleans, [evaluate] raises nothing but
    [UnknownVariableError]. *)
Lemma evaluate_raises_unknown e env er :
  bool_env env -> evaluate e env = Raise er ->
  is_UnknownVariableError er = true.
Proof.
  intros Henv. revert er.
  induction e as [n|v|x IH|l IHl r IHr|l IHl r IHr]; simpl; intros er.
  - unfold visit_var. destruct (env !! n) as [v|] eqn:Hn.
    + apply Henv in Hn. destruct v; try done.
    + intros [= <-]. done.
  - done.
  - destruct (evaluate x env); simpl; [done|]. intros [= <-]. auto.
  - destruct (evaluate l env); simpl; [|intros [= <-]; auto].
    destruct (evaluate r env); simpl; [done|]. intros [= <-]. auto.
  - destruct (evaluate l env); simpl; [|intros [= <-]; auto].
    destruct (evaluate r env); simpl; [done|]. intros [= <-]. auto.
Qed.

End evaluator_properties.

(** ** The claims about the optimizer and the evaluator *)

Section optimizer_evaluator_claims.
Import ast optimizer evaluator.

(** C1. Optimizer soundness: when the environment binds every variable
    occurring in [e] to a boolean, evaluating [e] succeeds, and evaluating
    [optimize e] succeeds with the same boolean. *)
Theorem optimize_sound (e : Expr) (env : gmap string pyobj) :
  set_Forall (binds_bool env) (free_vars e) ->
  exists b, evaluate e env = Ok b /\ evaluate (optimize e) env = Ok b.
Proof.
  intros Hb. destruct (evaluate_bound e env Hb) as [b He].
  exists b. split; [done|]. by apply evaluate_optimize.
Qed.

Lemma optimize_sound_witness :
  let e := And (BoolLit true) (Or (BoolLit false) (Not (Not (Var "A")))) in
  let env : gmap string pyobj := {[ "A" := PyBool true ]} in
  set_Forall (binds_bool env) (free_vars e) /\
  exists b, evaluate e env = Ok b /\ evaluate (optimize e) env = Ok b.
Proof.
  intros e env.
  assert (Hb : set_Forall (binds_bool env) (free_vars e))
    by (apply (bool_decide_unpack _); vm_compute; exact I).
  split; [exact Hb|]. exact (optimize_sound e env Hb).
Defined.

(** C2. [optimize] is idempotent: optimizing an optimized expression gives
    an expression equal to it, for [==] and as a tree. *)
Theorem optimize_idempotent (e : Expr) :
  __eq__ (optimize (optimize e)) (optimize e) = true /\
  optimize (optimize e) = optimize e.
Proof.
  assert (H : optimize (optimize e) = optimize e)
    by apply normal_fixpoint, optimize_normal.
  split; [by apply __eq___true_iff|done].
Qed.

(** C7. No short-circuit: when evaluating [r] alone fails, evaluating
    [And l r] and [Or l r] fails, whatever [l] is; the failure is an
    [UnknownVariableError] in an environment of booleans; and when [l]
    evaluates to a value, [false] or [true], it is the very error of [r]. *)
Theorem evaluate_no_short_circuit (env : gmap string pyobj) (l r : Expr)
    (er : exn) :
  evaluate r env = Raise er ->
  (exists e1, evaluate (And l r) env = Raise e1 /\
              (bool_env env -> is_UnknownVariableError e1 = true)) /\
  (exists e2, evaluate (Or l r) env = Raise e2 /\
              (bool_env env -> is_UnknownVariableError e2 = true)) /\
  (forall b, evaluate l env = Ok b ->
             evaluate (And l r) env = Raise er /\
             evaluate (Or l r) env = Raise er).
Proof.
  intros Hr.
  assert (Hand : exists e1, evaluate (And l r) env = Raise e1).
  { simpl. destruct (evaluate l env); simpl; rewrite ?Hr; simpl; eauto. }
  assert (Hor : exists e2, evaluate (Or l r) env = Raise e2).
  { simpl. destruct (evaluate l env); simpl; rewrite ?Hr; simpl; eauto. }
  destruct Hand as [e1 H1], Hor as [e2 H2].
  split; [|split].
  - exists e1. eauto using evaluate_raises_unknown.
  - exists e2. eauto using evaluate_raises_unknown.
  - intros b Hl. simpl. rewrite Hl, Hr. done.
Qed.

Lemma evaluate_no_short_circuit_witness :
  let env : gmap string pyobj := {[ "A" := PyBool false ]} in
  let l := Var "A" in
  let r := Var "B" in
  let er := UnknownVariableError "B" ["A"] in
  evaluate r env = Raise er /\
  bool_env env /\
  evaluate l env = Ok false /\
  evaluate (And l r) env = Raise er /\
  evaluate (Or l r) env = Raise er.
Proof.
  intros env l r er.
  assert (Hr : evaluate r env = Raise er) by (vm_compute; reflexivity).
  assert (Henv : bool_env env)
    by (apply (bool_decide_unpack _); vm_compute; exact I).
  assert (Hl : evaluate l env = Ok false) by (vm_compute; reflexivity).
  split; [exact Hr|]. split; [exact Henv|]. split; [exact Hl|].
  exact (proj2 (proj2 (evaluate_no_short_circuit env l r er Hr)) false Hl).
Defined.

(** C10. Normal form: no rewriting rule applies to any subterm of
    [optimize e], and a boolean literal occurs in [optimize e] only as the
    whole of it. *)
Theorem optimize_normal_form (e s : Expr) :
  subterm s (optimize e) ->
  foldable s = false /\
  (is_BoolLit s = true -> s = optimize e).
Proof.
  intros Hs. pose proof (optimize_normal e) as Hn. split.
  - eapply normal_not_foldable, normal_subterm; eauto.
  - intros Hb.
    assert (Hcases : s = optimize e \/ proper_subterm s (optimize e)).
    { destruct Hs; simpl; auto. }
    destruct Hcases as [->|Hp]; [done|].
    pose proof (subterm_BoolLit_proper _ _ Hn Hp). congruence.
Qed.

Lemma optimize_normal_form_witness :
  let e := Or (Var "A") (And (BoolLit true) (Not (Not (Not (Var "B"))))) in
  let s := Not (Var "B") in
  subterm s (optimize e) /\
  foldable s = false /\ (is_BoolLit s = true -> s = optimize e).
Proof.
  intros e s.
  assert (Hs : subterm s (optimize e))
    by (simpl; apply subterm_Or_r, subterm_refl).
  split; [exact Hs|]. exact (optimize_normal_form e s Hs).
Defined.

End optimizer_evaluator_claims.

(** ** JSON serialization *)

Section json_properties.
Import ast.

Variable from_json_str : string -> outcome Node.

Lemma from_json_field key items :
  (fix field (rest : list (string * pyobj)) : outcome Node :=
     match rest with
     | [] => Raise (KeyError key)
     | (k, v) :: rest' =>
         if String.eqb key k then from_json from_json_str v else field rest'
     end) items = decode_field from_json_str key items.
Proof.
  unfold decode_field. induction items as [|[k v] items IH]; simpl; [done|].
  destruct (String.eqb key k); [done|]. exact IH.
Qed.

(** The equation of [from_json] on a dict, as the source reads. *)
Lemma from_json_dict items :
  from_json from_json_str (PyDict items) =
  let node_type := default PyNone (dict_get "type" items) in
  if py_eq_str node_type "Var" then
    match dict_get "name" items with
    | Some name => Ok (NVar name)
    | None => Raise (KeyError "name")
    end
  else if py_eq_str node_type "BoolLit" then
    match dict_get "value" items with
    | Some value => Ok (NBoolLit value)
    | None => Raise (KeyError "value")
    end
  else if py_eq_str node_type "Not" then
    let! expr := decode_field from_json_str "expr" items in Ok (NNot expr)
  else if py_eq_str node_type "And" then
    let! l := decode_field from_json_str "left" items in
    let! r := decode_field from_json_str "right" items in
    Ok (NAnd l r)
  else if py_eq_str node_type "Or" then
    let! l := decode_field from_json_str "left" items in
    let! r := decode_field from_json_str "right" items in
    Ok (NOr l r)
  else Raise (ValueError node_type).
Proof.
  cbn [from_json]. rewrite !from_json_field. reflexivity.
Qed.

Lemma dict_get_size key items v :
  dict_get key items = Some v -> pyobj_size v < pyobj_size (PyDict items).
Proof.
  simpl. induction items as [|[k w] items IH]; simpl; [done|].
  destruct (String.eqb key k).
  - intros [= ->]. lia.
  - intros H. specialize (IH H). lia.
Qed.

(** Whatever [from_json] raises is generic, when decoding a string raises
    nothing but generic errors. *)
Lemma from_json_raises_generic :
  (forall s e, from_json_str s = Raise e -> generic_error e) ->
  forall data e, from_json from_json_str data = Raise e -> generic_error e.
Proof.
  intros Hstr data.
  remember (pyobj_size data) as n eqn:Hn. revert data Hn.
  induction (lt_wf n) as [n _ IH]. intros data ->.
  assert (Hfield : forall key items e, data = PyDict items ->
            decode_field from_json_str key items = Raise e -> generic_error e).
  { intros key items e -> Hd. unfold decode_field in Hd.
    destruct (dict_get key items) as [v|] eqn:Hv.
    - eapply (IH (pyobj_size v)); eauto using dict_get_size.
    - injection Hd as <-. done. }
  intros e. destruct data as [| | |s|items|items]; try (by intros [= <-]).
  - apply Hstr.
  - rewrite from_json_dict. cbv zeta.
    repeat match goal with
    | |- context [if ?c then _ else _] => destruct c
    end.
    + destruct (dict_get "name" items); by intros [= <-].
    + destruct (dict_get "value" items); by intros [= <-].
    + destruct (decode_field from_json_str "expr" items) eqn:Hd; simpl; [done|].
      intros [= <-]. eauto.
    + destruct (decode_field from_json_str "left" items) eqn:Hl; simpl;
        [|intros [= <-]; eauto].
      destruct (decode_field from_json_str "right" items) eqn:Hr; simpl; [done|].
      intros [= <-]. eauto.
    + destruct (decode_field from_json_str "left" items) eqn:Hl; simpl;
        [|intros [= <-]; eauto].
      destruct (decode_field from_json_str "right" items) eqn:Hr; simpl; [done|].
      intros [= <-]. eauto.
    + by intros [= <-].
Qed.

Lemma from_json_to_json_node e :
  from_json from_json_str (to_json e) = Ok (node_of e).
Proof.
  induction e as [n|v|x IH|l IHl r IHr|l IHl r IHr]; simpl; try done.
  - by rewrite IH.
  - by rewrite IHl, IHr.
  - by rewrite IHl, IHr.
Qed.

Lemma expr_of_node_of e : expr_of (node_of e) = Some e.
Proof.
  induction e as [n|v|x IH|l IHl r IHr|l IHl r IHr]; simpl; try done.
  - by rewrite IH.
  - by rewrite IHl, IHr.
  - by rewrite IHl, IHr.
Qed.

End json_properties.

Section json_claims.
Import ast.

(** C3. JSON round trip: decoding the serialization of an expression
    succeeds and gives back the node that is this expression. *)
Theorem from_json_to_json (from_json_str : string -> outcome Node) (e : Expr) :
  from_json from_json_str (to_json e) = Ok (node_of e) /\
  expr_of (node_of e) = Some e.
Proof.
  split; [apply from_json_to_json_node|apply expr_of_node_of].
Qed.

Lemma decode_field_missing from_json_str field items :
  dict_get field items = None ->
  decode_field from_json_str field items = Raise (KeyError field).
Proof. unfold decode_field. intros H. by rewrite H. Qed.

(** C8. Failures of [from_json] on a dict: with a ["type"] tag that is not
    recognized it raises a [ValueError], and with a recognized tag and one of
    its required fields missing it raises too; in both cases the exception
    is a generic one. *)
Theorem from_json_fails (from_json_str : string -> outcome Node)
    (items : list (string * pyobj)) :
  (forall s e, from_json_str s = Raise e -> generic_error e) ->
  let node_type := default PyNone (dict_get "type" items) in
  (known_tag node_type = false ->
   from_json from_json_str (PyDict items) = Raise (ValueError node_type) /\
   generic_error (ValueError node_type)) /\
  (forall tag field,
     node_type = PyStr tag -> field ∈ required_fields tag ->
     dict_get field items = None ->
     exists e, from_json from_json_str (PyDict items) = Raise e /\
               generic_error e).
Proof.
  intros Hstr node_type. split.
  - intros Hk. split; [|done]. rewrite from_json_dict. fold node_type.
    cbv zeta. unfold known_tag, known_tags in Hk. simpl in Hk.
    repeat (apply orb_false_iff in Hk as [? Hk]).
    by repeat match goal with H : py_eq_str _ _ = false |- _ =>
      rewrite H; clear H end.
  - intros tag field Htag Hfield Hmiss.
    assert (Hfails : exists e,
              from_json from_json_str (PyDict items) = Raise e).
    { rewrite from_json_dict. fold node_type. cbv zeta. rewrite Htag.
      unfold required_fields in Hfield. simpl py_eq_str.
      repeat match type of Hfield with
      | _ ∈ (if ?c then _ else _) => destruct c eqn:?
      end; [..|by apply elem_of_nil in Hfield].
      + apply list_elem_of_singleton in Hfield as ->.
        rewrite Hmiss. eauto.
      + apply list_elem_of_singleton in Hfield as ->.
        rewrite Hmiss. eauto.
      + apply list_elem_of_singleton in Hfield as ->.
        rewrite decode_field_missing by done. simpl. eauto.
      + destruct (decode_field from_json_str "left" items) eqn:Hl;
          simpl; [|eauto].
        apply elem_of_cons in Hfield as [->|Hfield];
          [rewrite decode_field_missing in Hl; done|].
        apply list_elem_of_singleton in Hfield as ->.
        rewrite decode_field_missing by done. simpl. eauto.
      + destruct (decode_field from_json_str "left" items) eqn:Hl;
          simpl; [|eauto].
        apply elem_of_cons in Hfield as [->|Hfield];
          [rewrite decode_field_missing in Hl; done|].
        apply list_elem_of_singleton in Hfield as ->.
        rewrite decode_field_missing by done. simpl. eauto. }
    destruct Hfails as [e He]. exists e. split; [done|].
    eapply from_json_raises_generic; eauto.
Qed.

Lemma from_json_fails_witness :
  let from_json_str : string -> outcome Node := fun _ => Raise JSONDecodeError in
  let items : list (string * pyobj) := [("type", PyStr "Var")] in
  (forall s e, from_json_str s = Raise e -> generic_error e) /\
  dict_get "name" items = None /\
  from_json from_json_str (PyDict items) = Raise (KeyError "name") /\
  exists e, from_json from_json_str (PyDict items) = Raise e /\
            generic_error e.
Proof.
  intros from_json_str items.
  assert (Hstr : forall s e, from_json_str s = Raise e -> generic_error e)
    by (intros s e [= <-]; reflexivity).
  assert (Hmiss : dict_get "name" items = None) by reflexivity.
  assert (Hin : "name" ∈ required_fields "Var")
    by (apply (bool_decide_unpack _); vm_compute; exact I).
  split; [exact Hstr|]. split; [exact Hmiss|]. split; [reflexivity|].
  exact (proj2 (from_json_fails from_json_str items Hstr)
           "Var" "name" eq_refl Hin Hmiss).
Defined.

End json_claims.

(** ** The tokenizer *)

Section tokenizer_properties.
Import tokenizer.

Lemma string_drop_length n s :
  String.length (string_drop n s) = String.length s - n.
Proof.
  revert s. induction n as [|n IH]; intros [|c s]; simpl; auto with lia.
Qed.

Lemma span_le p s : span p s <= String.length s.
Proof. induction s as [|c s IH]; simpl; [lia|]. destruct (p c); lia. Qed.

Lemma after_refl self : offset self <= length self -> after self self.
Proof. unfold after. auto with lia. Qed.

Lemma after_trans a b c : after a b -> after b c -> after a c.
Proof.
  unfold after, length. intros (Hs1 & He1 & Ho1) (Hs2 & He2 & Ho2).
  rewrite Hs1 in *. repeat split; try congruence; lia.
Qed.

Lemma _advance_step_spec self :
  offset self < length self ->
  source (_advance_step self) = source self /\
  enable_comments (_advance_step self) = enable_comments self /\
  offset (_advance_step self) = offset self + 1.
Proof.
  intros Hlt. unfold _advance_step.
  destruct (Nat.ltb_spec (offset self) (length self)); [|lia].
  by case_bool_decide.
Qed.

Lemma _advance_spec self count :
  offset self + count <= length self ->
  source (_advance self count) = source self /\
  enable_comments (_advance self count) = enable_comments self /\
  offset (_advance self count) = offset self + count.
Proof.
  unfold _advance. induction count as [|count IH]; simpl; intros Hle.
  - auto with lia.
  - destruct IH as (Hs & He & Ho); [lia|].
    destruct (_advance_step_spec (Nat.iter count _advance_step self))
      as (Hs' & He' & Ho').
    { unfold length. rewrite Hs, Ho. fold (length self). lia. }
    rewrite Hs', He', Ho'. repeat split; auto with lia.
Qed.

Lemma _advance_after self count :
  offset self + count <= length self -> after self (_advance self count).
Proof.
  intros Hle. destruct (_advance_spec self count Hle) as (Hs & He & Ho).
  unfold after. rewrite Hs, He, Ho. auto with lia.
Qed.

Lemma _WHITESPACE_RE_bounds text n :
  _WHITESPACE_RE text = Some n -> 1 <= n <= String.length text.
Proof.
  unfold _WHITESPACE_RE. pose proof (span_le is_space text).
  destruct (Nat.eqb_spec (span is_space text) 0); [done|].
  intros [= <-]. lia.
Qed.

Lemma _COMMENT_RE_bounds text n :
  _COMMENT_RE text = Some n -> 1 <= n <= String.length text.
Proof.
  unfold _COMMENT_RE. destruct text as [|c rest]; [done|].
  pose proof (span_le is_not_newline rest).
  destruct (Ascii.eqb_spec c "#") as [->|Hc].
  - intros [= <-]. simpl. lia.
  - destruct c as [[] [] [] [] [] [] [] []]; done.
Qed.

Lemma _IDENT_RE_bounds text n :
  _IDENT_RE text = Some n -> 1 <= n <= String.length text.
Proof.
  unfold _IDENT_RE. destruct text as [|c rest]; [done|].
  pose proof (span_le is_ident_char rest).
  destruct (is_ident_start c); [|done]. intros [= <-]. simpl. lia.
Qed.

Lemma _match_regex_bounds self pattern n :
  (forall text m, pattern text = Some m -> 1 <= m <= String.length text) ->
  offset self <= length self ->
  _match_regex self pattern = Some n ->
  1 <= n /\ offset self + n <= length self.
Proof.
  intros Hp Hle Hm. apply Hp in Hm. rewrite string_drop_length in Hm.
  unfold length in *. lia.
Qed.

End tokenizer_properties.

Section tokenizer_totality.
Import tokenizer.

Lemma after_length self self' : after self self' -> length self' = length self.
Proof. unfold after, length. by intros (-> & _). Qed.

Lemma after_bound self self' : after self self' -> offset self' <= length self'.
Proof.
  intros H. rewrite (after_length _ _ H). unfold after in H. lia.
Qed.

(** Arithmetic on offsets, from the [after] facts at hand. *)
Ltac lexer_lia :=
  repeat match goal with
  | H : after ?a ?b |- _ =>
      pose proof (after_length a b H);
      let H' := fresh in
      destruct H as (_ & _ & H')
  end;
  unfold remaining in *; lia.

Lemma _skip_whitespace_total fuel self :
  offset self <= length self -> remaining self < fuel ->
  exists self', _skip_whitespace fuel self = Some self' /\ after self self'.
Proof.
  revert self. induction fuel as [|fuel IH]; intros self Hle Hfuel; [lia|].
  simpl. destruct (Nat.ltb_spec (offset self) (length self));
    [|eauto using after_refl].
  destruct (_match_regex self _WHITESPACE_RE) as [n|] eqn:Hm;
    [|eauto using after_refl].
  apply _match_regex_bounds in Hm as [Hn Hin];
    [|apply _WHITESPACE_RE_bounds|done].
  pose proof (_advance_after self n Hin) as Hafter.
  destruct (IH (_advance self n)) as (self' & -> & Hafter').
  - eauto using after_bound.
  - destruct (_advance_spec self n Hin) as (_ & _ & Ho). lexer_lia.
  - eauto using after_trans.
Qed.

Lemma _skip_comment_spec self :
  offset self <= length self ->
  after self (_skip_comment self).1 /\
  ((_skip_comment self).2 = true ->
   offset self < offset (_skip_comment self).1).
Proof.
  intros Hle. unfold _skip_comment.
  destruct (enable_comments self); simpl; [|split; [by apply after_refl|done]].
  destruct (_match_regex self _COMMENT_RE) as [n|] eqn:Hm; simpl;
    [|split; [by apply after_refl|done]].
  apply _match_regex_bounds in Hm as [Hn Hin];
    [|apply _COMMENT_RE_bounds|done].
  split; [by apply _advance_after|].
  destruct (_advance_spec self n Hin) as (_ & _ & ->). lia.
Qed.

Lemma _skip_blanks_total fuel self :
  offset self <= length self -> remaining self < fuel ->
  exists self', _skip_blanks fuel self = Some self' /\ after self self'.
Proof.
  revert self. induction fuel as [|fuel IH]; intros self Hle Hfuel; [lia|].
  cbn [_skip_blanks].
  destruct (_skip_whitespace_total (S fuel) self Hle Hfuel)
    as (self1 & -> & H1).
  pose proof (_skip_comment_spec self1 (after_bound _ _ H1)) as [H2 Hadv].
  destruct (_skip_comment self1) as [self2 skipped]; simpl in *.
  destruct skipped; [|eauto using after_trans].
  specialize (Hadv eq_refl).
  destruct (IH self2) as (self' & -> & H3).
  - eauto using after_bound.
  - lexer_lia.
  - eauto using after_trans.
Qed.

Lemma _read_token_total budget self :
  offset self <= length self -> remaining self < budget ->
  exists r, _read_token budget self = Some r /\
    forall token self', r = Ok (token, self') ->
      after self self' /\ (type token <> EOF -> offset self < offset self').
Proof.
  intros Hle Hfuel. unfold _read_token.
  destruct (_skip_blanks_total budget self Hle Hfuel) as (self1 & -> & H1).
  pose proof (after_bound _ _ H1) as Hle1.
  assert (Hone : length self1 > offset self1 ->
    after self (_advance self1 1) /\ offset self < offset (_advance self1 1)).
  { intros Hgt. assert (Hin : offset self1 + 1 <= length self1) by lia.
    split; [eauto using after_trans, _advance_after|].
    destruct (_advance_spec self1 1 Hin) as (_ & _ & ->). lexer_lia. }
  destruct (Nat.leb_spec (length self1) (offset self1)).
  { eexists; split; [done|]. intros token self' [= <- <-]. by split. }
  destruct (Ascii.eqb _ "(").
  { destruct Hone as [Ha Ho]; [lia|]. eexists; split; [done|].
    intros token self' [= <- <-]. split; [exact Ha|intros _; exact Ho]. }
  destruct (Ascii.eqb _ ")").
  { destruct Hone as [Ha Ho]; [lia|]. eexists; split; [done|].
    intros token self' [= <- <-]. split; [exact Ha|intros _; exact Ho]. }
  destruct (_match_regex self1 _IDENT_RE) as [n|] eqn:Hm;
    [|eexists; split; [done|]; intros ? ? [=]].
  apply _match_regex_bounds in Hm as [Hn Hin];
    [|apply _IDENT_RE_bounds|done].
  eexists; split; [done|]. intros token self' [= <- <-].
  set (lexeme := string_take n _).
  assert (Hlen : String.length lexeme = n).
  { subst lexeme. generalize (string_drop_length (offset self1) (source self1)).
    generalize (string_drop (offset self1) (source self1)).
    unfold length in Hin. intros text Htext.
    assert (Hn' : n <= String.length text) by lia. clear -Hn'.
    revert text Hn'. induction n as [|n IH]; intros [|c text]; simpl;
      intros; try lia. rewrite IH; lia. }
  rewrite Hlen. split; [eauto using after_trans, _advance_after|].
  intros _. destruct (_advance_spec self1 n Hin) as (_ & _ & ->). lexer_lia.
Qed.

Lemma tokenize_loop_total budget fuel self tokens :
  offset self <= length self -> length self < budget ->
  remaining self < fuel ->
  exists r, tokenize_loop budget fuel self tokens = Some r.
Proof.
  revert self tokens.
  induction fuel as [|fuel IH]; intros self tokens Hle Hb Hfuel; [lia|].
  cbn [tokenize_loop].
  destruct (_read_token_total budget self Hle) as (r & -> & Hr).
  { unfold remaining. lia. }
  destruct r as [[token self']|e]; simpl; [|eauto].
  destruct (Hr token self' eq_refl) as [Hafter Hadv].
  case_bool_decide; [eauto|].
  apply IH.
  - eauto using after_bound.
  - by rewrite (after_length _ _ Hafter).
  - specialize (Hadv ltac:(done)). lexer_lia.
Qed.

(** The fuel of [tokenize] is never exhausted. *)
Lemma tokenize_total source enable_comments :
  exists r, tokenize source enable_comments = Some r.
Proof.
  unfold tokenize. apply tokenize_loop_total;
    unfold remaining, length, __init__; simpl; lia.
Qed.

Lemma tokenize_loop_EOF budget fuel self acc tokens :
  Forall (fun t => type t <> EOF) acc ->
  tokenize_loop budget fuel self acc = Some (Ok tokens) ->
  exists front last, tokens = (front ++ [last])%list /\ type last = EOF /\
    Forall (fun t => type t <> EOF) front.
Proof.
  revert self acc.
  induction fuel as [|fuel IH]; intros self acc Hacc; [done|].
  cbn [tokenize_loop].
  destruct (_read_token budget self) as [[[token self']|e]|]; simpl; try done.
  case_bool_decide as Htype.
  - intros [= <-]. eauto.
  - apply IH. apply Forall_app. split; [done|]. by constructor.
Qed.

End tokenizer_totality.

Section tokenizer_claims.
Import tokenizer.

(** C9. The terminal end-of-input token: when [tokenize] succeeds, the
    tokens are some tokens none of which is an [EOF], followed by one [EOF]
    token; and the empty source gives exactly the [EOF] token with an empty
    lexeme at line 1, column 1, offset 0. *)
Theorem tokenize_terminal_EOF (enable_comments : bool) :
  tokenize "" enable_comments =
    Some (Ok [mkToken EOF "" (mkSourceLocation 1 1 0)]) /\
  forall source tokens,
    tokenize source enable_comments = Some (Ok tokens) ->
    exists front last, tokens = (front ++ [last])%list /\ type last = EOF /\
      Forall (fun t => type t <> EOF) front.
Proof.
  split.
  - by destruct enable_comments.
  - intros source tokens. unfold tokenize. by apply tokenize_loop_EOF.
Qed.

Lemma tokenize_terminal_EOF_witness :
  let source := "A and (b)" in
  let tokens :=
    [mkToken IDENT "A" (mkSourceLocation 1 1 0);
     mkToken AND "AND" (mkSourceLocation 1 3 2);
     mkToken LPAREN "(" (mkSourceLocation 1 7 6);
     mkToken IDENT "b" (mkSourceLocation 1 8 7);
     mkToken RPAREN ")" (mkSourceLocation 1 9 8);
     mkToken EOF "" (mkSourceLocation 1 10 9)] in
  tokenize source true = Some (Ok tokens) /\
  exists front last, tokens = (front ++ [last])%list /\ type last = EOF /\
    Forall (fun t => type t <> EOF) front.
Proof.
  intros source tokens.
  assert (Htok : tokenize source true = Some (Ok tokens))
    by (vm_compute; reflexivity).
  split; [exact Htok|].
  exact (proj2 (tokenize_terminal_EOF true) source tokens Htok).
Defined.

End tokenizer_claims.

(** ** The parser *)

Section parser_properties.
Import ast tokenizer parser.

Lemma _check_true self token_type :
  _check self token_type = Ok true ->
  exists token, _peek self 0 = Ok token /\ type token = token_type /\
                type token <> EOF.
Proof.
  unfold _check, _is_at_end. destruct (_peek self 0) as [token|]; simpl; [|done].
  case_bool_decide; simpl; [done|].
  case_bool_decide; [|done]. eauto.
Qed.

Lemma _check_other self token_type token_type' :
  _check self token_type = Ok true -> token_type' <> token_type ->
  _check self token_type' = Ok false.
Proof.
  intros Hc Hne. apply _check_true in Hc as (token & Hpeek & Htype & Heof).
  unfold _check, _is_at_end. rewrite Hpeek. simpl.
  rewrite bool_decide_eq_false_2 by done. simpl.
  rewrite bool_decide_eq_false_2 by congruence. done.
Qed.

Lemma _match_single_false self token_type :
  _check self token_type = Ok false ->
  _match self [token_type] = Ok (false, self).
Proof. simpl. intros H. by rewrite H. Qed.

Lemma _match_single_true self token_type token self' :
  _check self token_type = Ok true -> _advance self = Ok (token, self') ->
  _match self [token_type] = Ok (true, self').
Proof. simpl. intros H1 H2. by rewrite H1, H2. Qed.

Lemma same_input_refl self : same_input self self.
Proof. by split. Qed.

Lemma same_input_trans a b c : same_input a b -> same_input b c -> same_input a c.
Proof. unfold same_input. intros [-> ->] [-> ->]. done. Qed.

Lemma _advance_same_input self token self' :
  _advance self = Ok (token, self') -> same_input self self'.
Proof.
  unfold _advance. destruct (_is_at_end self) as [[]|]; simpl; try done;
    repeat case_match; try done; intros [= _ <-]; by split.
Qed.

Lemma _match_same_input self types found self' :
  _match self types = Ok (found, self') -> same_input self self'.
Proof.
  induction types as [|t types IH]; simpl.
  - intros [= _ <-]. apply same_input_refl.
  - destruct (_check self t) as [[]|]; simpl; try done.
    destruct (_advance self) as [[token self1]|] eqn:Hadv; simpl; [|done].
    intros [= _ <-]. eauto using _advance_same_input.
Qed.

Lemma _consume_same_input self token_type expected token self' :
  _consume self token_type expected = Ok (token, self') -> same_input self self'.
Proof.
  unfold _consume. destruct (_check self token_type) as [[]|]; simpl; try done.
  - apply _advance_same_input.
  - destruct (_peek self 0); done.
Qed.

End parser_properties.

Section parser_invariants.
Import ast tokenizer parser.

Ltac step_call H :=
  match type of H with
  | fbind (call ?m) _ = _ =>
      let E := fresh "E" in
      destruct m as [?|?] eqn:E;
      unfold fbind at 1, call at 1 in H; cbv beta iota in H; [|done]
  | fbind ?m _ = _ =>
      let E := fresh "E" in
      destruct m as [[?|?]|] eqn:E;
      unfold fbind at 1 in H; cbv beta iota in H; [|done|done]
  end.

Lemma parse_same_input fuel :
  preserves (parse_or fuel) /\
  (forall e, preserves (parse_or_loop fuel e)) /\
  preserves (parse_and fuel) /\
  (forall e, preserves (parse_and_loop fuel e)) /\
  preserves (parse_not fuel) /\
  preserves (parse_primary fuel).
Proof.
  induction fuel as [|fuel (IHor & IHorl & IHand & IHandl & IHnot & IHprim)].
  { split_and!; repeat intro; done. }
  unfold preserves in *. split_and!.
  - intros self r H. cbn [parse_or] in H. step_call H.
    eauto using same_input_trans.
  - intros e self r H. cbn [parse_or_loop] in H. step_call H.
    destruct a as [found self1]. apply _match_same_input in E. cbn [fst snd] in H.
    destruct found.
    + step_call H. eauto using same_input_trans.
    + by injection H as <-.
  - intros self r H. cbn [parse_and] in H. step_call H.
    eauto using same_input_trans.
  - intros e self r H. cbn [parse_and_loop] in H. step_call H.
    destruct a as [found self1]. apply _match_same_input in E. cbn [fst snd] in H.
    destruct found.
    + step_call H. eauto using same_input_trans.
    + by injection H as <-.
  - intros self r H. cbn [parse_not] in H. step_call H.
    destruct a as [found self1]. apply _match_same_input in E. cbn [fst snd] in H.
    destruct found.
    + step_call H. injection H as <-. simpl. eauto using same_input_trans.
    + eauto using same_input_trans.
  - intros self r H. cbn [parse_primary] in H. step_call H. step_call H.
    destruct a0 as [found self1]. apply _match_same_input in E0. cbn [fst snd] in H.
    destruct found; [injection H as <-; simpl; done|].
    step_call H.
    destruct a0 as [found self2]. apply _match_same_input in E1. cbn [fst snd] in H.
    destruct found; [injection H as <-; simpl; eauto using same_input_trans|].
    step_call H.
    destruct a0 as [found self3]. apply _match_same_input in E2. cbn [fst snd] in H.
    destruct found.
    + step_call H. apply IHor in E3. step_call H.
      injection H as <-. simpl.
      assert (same_input a0.2 a1.2).
      { unfold except_UnexpectedTokenError in E4.
        destruct (_consume a0.2 RPAREN _) as [[token self4]|[]] eqn:Hc;
          try done.
        injection E4 as <-. eauto using _consume_same_input. }
      eauto using same_input_trans.
    + step_call H. destruct a0; [step_call H|]; done.
Qed.

End parser_invariants.

Section parser_claims.
Import ast tokenizer parser.

(** C4. Precedence: ["A OR B AND NOT C"] parses to
    [Or(Var("A"), And(Var("B"), Not(Var("C"))))]; [NOT] binds tighter than
    [AND], which binds tighter than [OR]. *)
Theorem parse_precedence :
  parse "A OR B AND NOT C" =
    Some (Ok (Or (Var "A") (And (Var "B") (Not (Var "C"))))).
Proof. vm_compute. reflexivity. Qed.

(** C5, as stated, fails: the error raised for ["(A AND B"] is a
    [MissingParenthesisError], but its [kind] is not ["closing"]. *)
Lemma parse_missing_paren_kind_not_closing :
  ~ (exists e, parse "(A AND B" = Some (Raise e) /\
               is_MissingParenthesisError e = true /\
               kind_of e = Some "closing").
Proof.
  intros (e & He & _ & Hkind). vm_compute in He. injection He as <-.
  vm_compute in Hkind. discriminate Hkind.
Qed.

(** C5, amended. ["(A AND B"] fails with a [MissingParenthesisError] whose
    [kind] is ["fermante"], located at the end of the input. More generally,
    when [parse_primary] has read a left parenthesis and the expression
    after it, and the next token is not a right parenthesis, it raises a
    [MissingParenthesisError] of kind ["fermante"] at that token, not the
    [UnexpectedTokenError] of [_consume]. *)
Theorem parse_missing_closing_parenthesis :
  parse "(A AND B" =
    Some (Raise (MissingParenthesisError "fermante"
                   (mkSourceLocation 1 9 8) "(A AND B")) /\
  forall fuel self paren self1 expr self2 token,
    _check self LPAREN = Ok true ->
    _advance self = Ok (paren, self1) ->
    parse_or fuel self1 = Some (Ok (expr, self2)) ->
    _check self2 RPAREN = Ok false ->
    _peek self2 0 = Ok token ->
    parse_primary (S fuel) self =
      Some (Raise (MissingParenthesisError "fermante"
                     (location token) (source self))).
Proof.
  split; [vm_compute; reflexivity|].
  intros fuel self paren self1 expr self2 token Hlp Hadv Hor Hrp Hpeek.
  destruct (_check_true _ _ Hlp) as (token0 & Hpeek0 & _ & _).
  assert (Hsrc : source self2 = source self).
  { apply _advance_same_input in Hadv as [_ Hs1].
    apply (proj1 (parse_same_input fuel)) in Hor as [_ Hs2].
    simpl in Hs2. congruence. }
  cbn [parse_primary]. rewrite Hpeek0.
  rewrite (_match_single_false self BOOL)
    by (by apply (_check_other _ LPAREN)).
  cbn [fbind call fst snd].
  rewrite (_match_single_false self IDENT)
    by (by apply (_check_other _ LPAREN)).
  cbn [fbind call fst snd].
  rewrite (_match_single_true self LPAREN paren self1) by done.
  cbn [fbind call fst snd]. rewrite Hor. cbn [fbind call fst snd].
  unfold _consume. rewrite Hrp. cbn [bind]. rewrite Hpeek. cbn [bind].
  cbn [except_UnexpectedTokenError fbind call]. by rewrite Hsrc.
Qed.

Lemma parse_missing_closing_parenthesis_witness :
  let source := "(A AND B" in
  let tokens :=
    [mkToken LPAREN "(" (mkSourceLocation 1 1 0);
     mkToken IDENT "A" (mkSourceLocation 1 2 1);
     mkToken AND "AND" (mkSourceLocation 1 4 3);
     mkToken IDENT "B" (mkSourceLocation 1 8 7);
     mkToken EOF "" (mkSourceLocation 1 9 8)] in
  let self := mkParser tokens source 0 in
  let paren := mkToken LPAREN "(" (mkSourceLocation 1 1 0) in
  let self1 := mkParser tokens source 1 in
  let expr := And (Var "A") (Var "B") in
  let self2 := mkParser tokens source 4 in
  let token := mkToken EOF "" (mkSourceLocation 1 9 8) in
  _check self LPAREN = Ok true /\
  _advance self = Ok (paren, self1) /\
  parse_or 10 self1 = Some (Ok (expr, self2)) /\
  _check self2 RPAREN = Ok false /\
  _peek self2 0 = Ok token /\
  parse_primary 11 self =
    Some (Raise (MissingParenthesisError "fermante"
                   (mkSourceLocation 1 9 8) source)).
Proof.
  intros source tokens self paren self1 expr self2 token.
  assert (H1 : _check self LPAREN = Ok true) by (vm_compute; reflexivity).
  assert (H2 : _advance self = Ok (paren, self1)) by (vm_compute; reflexivity).
  assert (H3 : parse_or 10 self1 = Some (Ok (expr, self2)))
    by (vm_compute; reflexivity).
  assert (H4 : _check self2 RPAREN = Ok false) by (vm_compute; reflexivity).
  assert (H5 : _peek self2 0 = Ok token) by (vm_compute; reflexivity).
  split_and!; try assumption.
  exact (proj2 parse_missing_closing_parenthesis
           10 self paren self1 expr self2 token H1 H2 H3 H4 H5).
Defined.

End parser_claims.

(** ** The edit distance *)

Section levenshtein_properties.
Import evaluator.

Lemma edit_table_0_l s t j : edit_table s t 0 j = j.
Proof. done. Qed.

Lemma edit_table_0_r s t i : edit_table s t i 0 = i.
Proof. by destruct i. Qed.

Lemma edit_table_S_S s t i j :
  edit_table s t (S i) (S j) =
  (edit_table s t i (S j) + 1) `min`
  ((edit_table s t (S i) j + 1) `min`
   (edit_table s t i j + cost (s !!! i) (t !!! j))).
Proof. done. Qed.

#[local] Arguments edit_table : simpl never.

Lemma cost_sym c1 c2 : cost c1 c2 = cost c2 c1.
Proof. unfold cost. by rewrite Ascii.eqb_sym. Qed.

(** The table is symmetric: swapping the strings transposes it. *)
Lemma edit_table_sym s t i j : edit_table s t i j = edit_table t s j i.
Proof.
  revert j. induction i as [|i IHi]; intros j.
  { by rewrite edit_table_0_l, edit_table_0_r. }
  induction j as [|j IHj].
  { by rewrite edit_table_0_l, edit_table_0_r. }
  rewrite !edit_table_S_S, IHj, !IHi, (cost_sym (s !!! i)). lia.
Qed.

Lemma lookup_total_fmap_seq (f : nat -> nat) n j :
  j < n -> (f <$> seq 0 n) !!! j = f j.
Proof.
  intros Hj. apply list_lookup_total_correct.
  by rewrite list_lookup_fmap, lookup_seq_lt.
Qed.

Lemma enumerate_lookup {A} (l : list A) k x :
  l !! k = Some x -> enumerate l !! k = Some (k, x).
Proof.
  intros Hk. unfold enumerate. apply lookup_zip_with_Some.
  exists k, x. split_and!; [done| |done].
  apply lookup_seq_lt. by eapply lookup_lt_Some.
Qed.

Lemma enumerate_length {A} (l : list A) :
  List.length (enumerate l) = List.length l.
Proof.
  unfold enumerate. rewrite length_zip_with, length_seq. lia.
Qed.

(** The inner loop, after [k] turns, holds the first [k + 1] entries of the
    next row. *)
Lemma inner_loop_prefix s t i k :
  k <= List.length t ->
  fold_left (inner_step (s !!! i) (table_row s t i))
    (take k (enumerate t)) [i + 1] =
  edit_table s t (S i) <$> seq 0 (k + 1).
Proof.
  induction k as [|k IH]; intros Hk.
  { simpl. rewrite edit_table_0_r. f_equal. lia. }
  destruct (lookup_lt_is_Some_2 t k) as [c2 Hc2]; [lia|].
  rewrite (take_S_r _ _ _ (enumerate_lookup _ _ _ Hc2)).
  rewrite fold_left_app, IH by lia. cbn [fold_left inner_step].
  unfold table_row. rewrite !lookup_total_fmap_seq by lia.
  replace (S k + 1) with (S (k + 1)) by lia.
  rewrite seq_S, fmap_app. cbn [fmap list_fmap]. f_equal. f_equal.
  replace (0 + (k + 1)) with (S k) by lia.
  replace (k + 1) with (S k) by lia.
  rewrite edit_table_S_S. unfold cost.
  by rewrite (list_lookup_total_correct _ _ _ Hc2).
Qed.

Lemma outer_step_row s t i c1 :
  s !! i = Some c1 ->
  outer_step t (table_row s t i) (i, c1) = table_row s t (S i).
Proof.
  intros Hc1. unfold outer_step.
  rewrite <- (list_lookup_total_correct _ _ _ Hc1).
  rewrite <- (firstn_all (enumerate t)), enumerate_length.
  by rewrite inner_loop_prefix.
Qed.

(** The outer loop, after [k] turns, holds row [k]. *)
Lemma outer_loop_prefix s t k :
  k <= List.length s ->
  fold_left (outer_step t) (take k (enumerate s)) (table_row s t 0) =
  table_row s t k.
Proof.
  induction k as [|k IH]; intros Hk; [done|].
  destruct (lookup_lt_is_Some_2 s k) as [c1 Hc1]; [lia|].
  rewrite (take_S_r _ _ _ (enumerate_lookup _ _ _ Hc1)).
  rewrite fold_left_app, IH by lia. simpl. by apply outer_step_row.
Qed.

Lemma table_row_last s t i :
  List.last (table_row s t i) 0 = edit_table s t i (List.length t).
Proof.
  unfold table_row. rewrite seq_app, fmap_app. simpl.
  by rewrite last_last.
Qed.

Lemma table_row_0 s t : table_row s t 0 = seq 0 (List.length t + 1).
Proof.
  unfold table_row. induction (seq 0 _) as [|x l IH]; [done|].
  cbn [fmap list_fmap] in *. by rewrite IH, edit_table_0_l.
Qed.

Lemma list_ascii_length s :
  List.length (list_ascii_of_string s) = String.length s.
Proof. induction s; simpl; auto. Qed.

Lemma levenshtein_rows_correct s1 s2 :
  levenshtein_rows s1 s2 = edit_distance s1 s2.
Proof.
  unfold levenshtein_rows, edit_distance.
  destruct (Nat.eqb_spec (String.length s2) 0) as [->|_].
  { by rewrite edit_table_0_r. }
  set (s := list_ascii_of_string s1). set (t := list_ascii_of_string s2).
  replace (seq 0 (String.length s2 + 1)) with (table_row s t 0).
  2:{ subst t. by rewrite table_row_0, list_ascii_length. }
  rewrite <- (firstn_all (enumerate s)), enumerate_length.
  rewrite outer_loop_prefix by done. rewrite table_row_last.
  subst s t. by rewrite !list_ascii_length.
Qed.

(** The code computes the edit distance of the specification. *)
Lemma levenshtein_distance_correct s1 s2 :
  levenshtein_distance s1 s2 = edit_distance s1 s2.
Proof.
  unfold levenshtein_distance.
  destruct (String.length s1 <? String.length s2)%nat;
    rewrite levenshtein_rows_correct; [|done].
  unfold edit_distance. apply edit_table_sym.
Qed.

End levenshtein_properties.

(** ** The suggestions *)

Section suggestions_properties.
Import ast evaluator.

Lemma string_compare_trans a b c :
  String.compare a b <> Gt -> String.compare b c <> Gt ->
  String.compare a c <> Gt.
Proof.
  revert b c. induction a as [|x a IH]; intros [|y b] [|z c]; simpl; try done.
  unfold Ascii.compare.
  destruct (N.compare_spec (N_of_ascii x) (N_of_ascii y)) as [Hxy|Hxy|Hxy];
    destruct (N.compare_spec (N_of_ascii y) (N_of_ascii z)) as [Hyz|Hyz|Hyz];
    destruct (N.compare_spec (N_of_ascii x) (N_of_ascii z)) as [Hxz|Hxz|Hxz];
    try done; try lia.
  apply IH.
Qed.

Lemma string_leb_trans a b c :
  String.leb a b = true -> String.leb b c = true -> String.leb a c = true.
Proof.
  unfold String.leb. intros Hab Hbc.
  pose proof (string_compare_trans a b c) as H.
  destruct (String.compare a b), (String.compare b c), (String.compare a c);
    try done; exfalso; by apply H.
Qed.

#[local] Instance key_le_total : Total key_le.
Proof.
  intros [d1 n1] [d2 n2]. unfold key_le. simpl.
  destruct (String.leb_total n1 n2); destruct (decide (d1 = d2)); lia || auto.
Qed.

#[local] Instance key_le_trans : Transitive key_le.
Proof.
  intros [d1 n1] [d2 n2] [d3 n3]. unfold key_le. simpl.
  intros [?|[-> ?]] [?|[-> ?]]; eauto using string_leb_trans with lia.
Qed.

#[local] Instance key_le_antisym : AntiSymm (=) key_le.
Proof.
  intros [d1 n1] [d2 n2]. unfold key_le. simpl.
  intros [?|[-> ?]] [?|[? ?]]; try lia.
  f_equal. by apply String.leb_antisym.
Qed.

Lemma candidates_filter variable_name (available_vars : list string)
    max_distance :
  omap (fun var =>
          let distance :=
            levenshtein_distance (lower variable_name) (lower var) in
          if (distance <=? max_distance)%nat then Some (distance, var)
          else None) available_vars =
  sort_key variable_name <$>
    filter (fun var => distance_to variable_name var <= max_distance)
      available_vars.
Proof.
  induction available_vars as [|var l IH]; [done|].
  cbn [omap list_omap]. rewrite filter_cons.
  unfold distance_to at 1. rewrite levenshtein_distance_correct.
  destruct (Nat.leb_spec (edit_distance (lower variable_name) (lower var))
              max_distance).
  - rewrite decide_True by done. cbn [fmap list_fmap]. f_equal. exact IH.
  - rewrite decide_False by (unfold distance_to; lia). exact IH.
Qed.

Lemma find_similar_variables_sorted_keys variable_name
    (available_vars : list string) d :
  sort_key variable_name <$>
    find_similar_variables variable_name available_vars d =
  merge_sort key_le
    (sort_key variable_name <$>
       filter (fun var => distance_to variable_name var <= d) available_vars).
Proof.
  unfold find_similar_variables. cbv zeta. rewrite candidates_filter.
  set (l := sort_key variable_name <$> filter _ _).
  assert (Hall : Forall (fun p => sort_key variable_name p.2 = p)
                   (merge_sort key_le l)).
  { rewrite merge_sort_Permutation. subst l. apply Forall_fmap.
    by apply Forall_forall. }
  induction Hall as [|p l' Hp _ IH]; [done|].
  cbn [fmap list_fmap]. by rewrite Hp, IH.
Qed.

Lemma find_similar_variables_Permutation_filter variable_name
    (available_vars : list string) d :
  find_similar_variables variable_name available_vars d ≡ₚ
  filter (fun var => distance_to variable_name var <= d) available_vars.
Proof.
  unfold find_similar_variables. cbv zeta. rewrite candidates_filter.
  rewrite merge_sort_Permutation, <- list_fmap_compose.
  by rewrite list_fmap_id.
Qed.

Lemma find_similar_variables_elem_of variable_name
    (available_vars : list string) d var :
  var ∈ find_similar_variables variable_name available_vars d <->
  var ∈ available_vars /\ distance_to variable_name var <= d.
Proof.
  rewrite find_similar_variables_Permutation_filter, list_elem_of_filter.
  tauto.
Qed.

Lemma find_similar_variables_NoDup variable_name
    (available_vars : list string) d :
  NoDup available_vars ->
  NoDup (find_similar_variables variable_name available_vars d).
Proof.
  intros Hnd. rewrite find_similar_variables_Permutation_filter.
  by apply NoDup_filter.
Qed.

Lemma StronglySorted_fmap_inv {A B} (f : A -> B) (R : relation B)
    (l : list A) :
  StronglySorted R (f <$> l) -> StronglySorted (fun x y => R (f x) (f y)) l.
Proof.
  induction l as [|x l IH]; [constructor|].
  cbn [fmap list_fmap]. intros [Hs Hall]%StronglySorted_inv.
  constructor; [by apply IH|]. by rewrite Forall_fmap in Hall.
Qed.

Lemma find_similar_variables_sorted variable_name
    (available_vars : list string) d :
  StronglySorted (suggestion_le variable_name)
    (find_similar_variables variable_name available_vars d).
Proof.
  apply (StronglySorted_fmap_inv (sort_key variable_name) key_le).
  rewrite find_similar_variables_sorted_keys.
  apply StronglySorted_merge_sort; apply _.
Qed.

(** The suggestions depend on the set of available names only, not on the
    order in which they are listed. *)
Lemma find_similar_variables_Permutation variable_name
    (l1 l2 : list string) d :
  l1 ≡ₚ l2 ->
  find_similar_variables variable_name l1 d =
  find_similar_variables variable_name l2 d.
Proof.
  intros Hperm.
  assert (Hinj : Inj (=) (=) (sort_key variable_name))
    by (intros a b [= _ ->]; done).
  apply (inj (fmap (sort_key variable_name))).
  rewrite !find_similar_variables_sorted_keys.
  apply (Sorted_unique key_le); try apply Sorted_merge_sort; try apply _.
  rewrite !merge_sort_Permutation. by rewrite Hperm.
Qed.

End suggestions_properties.

Section suggestions_claims.
Import ast evaluator parser.

Lemma elem_of_keys (env : gmap string pyobj) key :
  key ∈ keys env <-> is_Some (env !! key).
Proof.
  unfold keys. rewrite list_elem_of_fmap. split.
  - intros ([k v] & -> & Hkv). apply elem_of_map_to_list in Hkv. by eexists.
  - intros [v Hv]. exists (key, v). split; [done|].
    by apply elem_of_map_to_list.
Qed.

Lemma evaluate_unknown_origin e (env : gmap string pyobj) name suggestions :
  evaluate e env = Raise (UnknownVariableError name suggestions) ->
  env !! name = None /\
  suggestions = find_similar_variables name (keys env) 3.
Proof.
  induction e as [n|v|x IH|l IHl r IHr|l IHl r IHr]; simpl.
  - unfold visit_var. destruct (env !! n) as [[]|] eqn:Hn; try done.
    by intros [= <- <-].
  - done.
  - destruct (evaluate x env); simpl; [done|]. intros [= ->]. auto.
  - destruct (evaluate l env); simpl; [|intros [= ->]; auto].
    destruct (evaluate r env); simpl; [done|]. intros [= ->]. auto.
  - destruct (evaluate l env); simpl; [|intros [= ->]; auto].
    destruct (evaluate r env); simpl; [done|]. intros [= ->]. auto.
Qed.

(** C6. Suggestions for an unknown variable. Evaluating a variable that
    the environment does not bind raises an [UnknownVariableError]; and
    whenever [evaluate] raises one, its name is not bound and its
    suggestions are exactly the keys of the environment at case-insensitive
    edit distance at most 3 from the name, each once, in ascending order of
    (distance, name). For the misspelt ["UNKNON"] the suggestions are
    ["UNKNOWN"]. *)
Theorem unknown_variable_suggestions :
  (forall (env : gmap string pyobj) name,
     env !! name = None ->
     exists suggestions,
       evaluate (Var name) env =
         Raise (UnknownVariableError name suggestions)) /\
  (forall e (env : gmap string pyobj) name suggestions,
     evaluate e env = Raise (UnknownVariableError name suggestions) ->
     env !! name = None /\
     (forall key, key ∈ suggestions <->
        is_Some (env !! key) /\ distance_to name key <= 3) /\
     NoDup suggestions /\
     StronglySorted (suggestion_le name) suggestions) /\
  (parse "UNKNON" = Some (Ok (Var "UNKNON")) /\
   evaluate (Var "UNKNON")
     (<["UNKNOWN" := PyBool true]> (<["OTHER" := PyBool false]> ∅)) =
     Raise (UnknownVariableError "UNKNON" ["UNKNOWN"])).
Proof.
  split_and!.
  - intros env name Hname. simpl. unfold visit_var. rewrite Hname. eauto.
  - intros e env name suggestions He.
    apply evaluate_unknown_origin in He as [Hname ->]. split_and!.
    + done.
    + intros key. rewrite find_similar_variables_elem_of, elem_of_keys. done.
    + apply find_similar_variables_NoDup, NoDup_fst_map_to_list.
    + apply find_similar_variables_sorted.
  - vm_compute. reflexivity.
  - vm_compute. reflexivity.
Qed.

Lemma unknown_variable_suggestions_witness :
  let env : gmap string pyobj :=
    <["UNKNOWN" := PyBool true]> (<["OTHER" := PyBool false]> ∅) in
  let e := And (BoolLit true) (Var "UNKNON") in
  evaluate e env = Raise (UnknownVariableError "UNKNON" ["UNKNOWN"]) /\
  env !! "UNKNON" = None /\
  NoDup ["UNKNOWN"] /\
  StronglySorted (suggestion_le "UNKNON") ["UNKNOWN"].
Proof.
  intros env e.
  assert (He : evaluate e env =
               Raise (UnknownVariableError "UNKNON" ["UNKNOWN"]))
    by (vm_compute; reflexivity).
  destruct (proj1 (proj2 unknown_variable_suggestions)
              e env "UNKNON" ["UNKNOWN"] He) as (H1 & _ & H3 & H4).
  split_and!; assumption.
Defined.

End suggestions_claims.

(** ** Termination of the parser *)

Section parser_totality.
Import ast tokenizer parser.

Lemma advances_refl self : in_bounds self -> advances self self.
Proof. intros H. split_and!; auto using same_input_refl. Qed.

Lemma advances_trans a b c : advances a b -> advances b c -> advances a c.
Proof.
  intros (H1 & ? & _) (H2 & ? & ?).
  split_and!; eauto using same_input_trans with lia.
Qed.

Lemma advances_rest a b : advances a b -> rest b <= rest a.
Proof. intros ([Ht _] & ? & _). unfold rest. rewrite Ht. lia. Qed.

Lemma advances_rest_lt a b :
  advances a b -> current b = S (current a) -> rest b < rest a.
Proof.
  intros ([Ht _] & _ & [? _]) Hcur. unfold rest. rewrite Ht in *. lia.
Qed.

Lemma _peek_in_bounds self :
  in_bounds self ->
  exists token, _peek self 0 = Ok token /\
                tokens self !! current self = Some token.
Proof.
  intros [Hlt _]. unfold _peek. rewrite Nat.add_0_r.
  destruct (Nat.leb_spec (List.length (tokens self)) (current self)); [lia|].
  destruct (lookup_lt_is_Some_2 (tokens self) (current self) Hlt) as [t Ht].
  rewrite Ht. eauto.
Qed.

Lemma _is_at_end_in_bounds self :
  in_bounds self ->
  exists at_end, _is_at_end self = Ok at_end /\
    (at_end = false -> S (current self) < List.length (tokens self)).
Proof.
  intros Hb. destruct (_peek_in_bounds self Hb) as (token & Hpeek & Htok).
  unfold _is_at_end. rewrite Hpeek. simpl. eexists; split; [done|].
  intros Hne%bool_decide_eq_false.
  destruct Hb as [Hlt (token' & Hlast & Heof)].
  rewrite last_lookup in Hlast.
  destruct (decide (current self = pred (List.length (tokens self))))
    as [Heq|]; [|lia].
  rewrite <- Heq in Hlast. congruence.
Qed.

Lemma _advance_in_bounds self :
  in_bounds self ->
  exists token self', _advance self = Ok (token, self') /\
    advances self self' /\
    (_is_at_end self = Ok false -> current self' = S (current self)).
Proof.
  intros Hb. destruct (_is_at_end_in_bounds self Hb) as (at_end & He & Hlt).
  unfold _advance. rewrite He. simpl. destruct at_end.
  - assert (Hprev : is_Some (match current self with
                             | 0 => last (tokens self)
                             | S i => tokens self !! i
                             end)).
    { destruct Hb as [Hc (t & -> & _)].
      destruct (current self); [done|]. apply lookup_lt_is_Some_2. lia. }
    destruct Hprev as [t ->]. do 2 eexists. split; [done|].
    split; [by apply advances_refl|done].
  - specialize (Hlt eq_refl). simpl. rewrite Nat.add_1_r.
    destruct (lookup_lt_is_Some_2 (tokens self) (current self)) as [t Ht];
      [lia|].
    rewrite Ht. do 2 eexists. split; [done|]. split; [|done].
    destruct Hb as [_ Hlast]. split_and!; simpl; try done; lia.
Qed.

Lemma _check_in_bounds self token_type :
  in_bounds self ->
  exists found, _check self token_type = Ok found /\
    (found = true -> _is_at_end self = Ok false).
Proof.
  intros Hb. destruct (_is_at_end_in_bounds self Hb) as (at_end & He & _).
  destruct (_peek_in_bounds self Hb) as (token & Hpeek & _).
  unfold _check. rewrite He. simpl. destruct at_end; [by eexists|].
  rewrite Hpeek. simpl. eauto.
Qed.

Lemma _match_in_bounds self token_type :
  in_bounds self ->
  exists found self', _match self [token_type] = Ok (found, self') /\
    advances self self' /\
    (found = true -> current self' = S (current self)) /\
    (found = false -> self' = self).
Proof.
  intros Hb. destruct (_check_in_bounds self token_type Hb) as (found & Hc & He).
  destruct (_advance_in_bounds self Hb) as (token & self' & Ha & Hadv & Hcur).
  simpl. rewrite Hc. simpl. destruct found.
  - rewrite Ha. simpl. do 2 eexists. split; [done|]. split_and!; auto.
    done.
  - do 2 eexists. split; [done|]. split_and!; auto using advances_refl.
    done.
Qed.

Lemma _consume_in_bounds self token_type expected token self' :
  in_bounds self ->
  _consume self token_type expected = Ok (token, self') ->
  advances self self'.
Proof.
  intros Hb. unfold _consume.
  destruct (_check self token_type) as [[]|]; simpl; try done.
  - destruct (_advance_in_bounds self Hb) as (t & s & -> & Hadv & _).
    by intros [= _ <-].
  - by destruct (_peek self 0).
Qed.

Ltac failed := eexists; split; [reflexivity|]; intros ? [=].

Ltac run_match self t found self' Hadv Hcur Hsame :=
  let Hm := fresh "Hm" in
  destruct (_match_in_bounds self t) as (found & self' & Hm & Hadv & Hcur & Hsame);
  [assumption|];
  rewrite Hm; unfold fbind at 1, call at 1; cbv beta iota; cbn [fst snd].

Ltac run_call IH self r Hadv :=
  let res := fresh "res" in
  let Hres := fresh "Hres" in
  destruct (IH self) as (res & Hres & Hadv);
  [..|rewrite Hres; destruct res as [r|?];
      unfold fbind at 1; cbv beta iota;
      [specialize (Hadv _ eq_refl)|failed]].

Ltac tail_call IH self :=
  let res := fresh "res" in
  let Hres := fresh "Hres" in
  let Hadv := fresh "Hadv" in
  destruct (IH self) as (res & Hres & Hadv);
  [..|exists res; split; [exact Hres|];
      let r := fresh "r" in
      let Hr := fresh "Hr" in
      intros r Hr; specialize (Hadv r Hr); eauto using advances_trans].

Lemma parse_returns fuel :
  (forall self, in_bounds self -> 4 * rest self + 4 <= fuel ->
     returns_from (parse_or fuel) self) /\
  (forall e self, in_bounds self -> 4 * rest self + 3 <= fuel ->
     returns_from (parse_or_loop fuel e) self) /\
  (forall self, in_bounds self -> 4 * rest self + 3 <= fuel ->
     returns_from (parse_and fuel) self) /\
  (forall e self, in_bounds self -> 4 * rest self + 2 <= fuel ->
     returns_from (parse_and_loop fuel e) self) /\
  (forall self, in_bounds self -> 4 * rest self + 2 <= fuel ->
     returns_from (parse_not fuel) self) /\
  (forall self, in_bounds self -> 4 * rest self + 1 <= fuel ->
     returns_from (parse_primary fuel) self).
Proof.
  induction fuel as [|fuel (IHor & IHorl & IHand & IHandl & IHnot & IHprim)].
  { split_and!; intros; lia. }
  split_and!.
  - intros self Hb Hfuel. unfold returns_from. cbn [parse_or].
    run_call IHand self r1 H1; [done|lia|].
    pose proof (advances_rest _ _ H1).
    tail_call (IHorl r1.1) r1.2; [apply H1|lia].
  - intros e self Hb Hfuel. unfold returns_from. cbn [parse_or_loop].
    run_match self OR found self1 Hadv Hcur Hsame. destruct found.
    + specialize (Hcur eq_refl).
      pose proof (advances_rest_lt _ _ Hadv Hcur).
      run_call IHand self1 r1 H1; [apply Hadv|lia|].
      pose proof (advances_rest _ _ H1).
      tail_call (IHorl (Or e r1.1)) r1.2; [apply H1|lia].
    + eexists; split; [done|]. by intros r [= <-].
  - intros self Hb Hfuel. unfold returns_from. cbn [parse_and].
    run_call IHnot self r1 H1; [done|lia|].
    pose proof (advances_rest _ _ H1).
    tail_call (IHandl r1.1) r1.2; [apply H1|lia].
  - intros e self Hb Hfuel. unfold returns_from. cbn [parse_and_loop].
    run_match self AND found self1 Hadv Hcur Hsame. destruct found.
    + specialize (Hcur eq_refl).
      pose proof (advances_rest_lt _ _ Hadv Hcur).
      run_call IHnot self1 r1 H1; [apply Hadv|lia|].
      pose proof (advances_rest _ _ H1).
      tail_call (IHandl (And e r1.1)) r1.2; [apply H1|lia].
    + eexists; split; [done|]. by intros r [= <-].
  - intros self Hb Hfuel. unfold returns_from. cbn [parse_not].
    run_match self NOT found self1 Hadv Hcur Hsame. destruct found.
    + specialize (Hcur eq_refl).
      pose proof (advances_rest_lt _ _ Hadv Hcur).
      run_call IHnot self1 r1 H1; [apply Hadv|lia|].
      eexists; split; [done|]. intros r [= <-]. simpl.
      eauto using advances_trans.
    + rewrite (Hsame eq_refl). apply IHprim; [done|lia].
  - intros self Hb Hfuel. unfold returns_from. cbn [parse_primary].
    destruct (_peek_in_bounds self Hb) as (token & Hpeek & _).
    rewrite Hpeek. unfold fbind at 1, call at 1. cbv beta iota.
    run_match self BOOL found self1 Hadv Hcur Hsame. destruct found.
    { eexists; split; [done|]. by intros r [= <-]. }
    rewrite (Hsame eq_refl). clear dependent self1.
    run_match self IDENT found self1 Hadv Hcur Hsame. destruct found.
    { eexists; split; [done|]. by intros r [= <-]. }
    rewrite (Hsame eq_refl). clear dependent self1.
    run_match self LPAREN found self1 Hadv Hcur Hsame. destruct found.
    + specialize (Hcur eq_refl).
      pose proof (advances_rest_lt _ _ Hadv Hcur).
      run_call IHor self1 r1 H1; [apply Hadv|lia|].
      destruct (except_UnexpectedTokenError _ _) as [[t self2]|err] eqn:Hc;
        unfold fbind at 1, call at 1; cbv beta iota; [|failed].
      eexists; split; [done|]. intros r [= <-]. simpl.
      assert (advances r1.2 self2).
      { unfold except_UnexpectedTokenError in Hc.
        destruct (_consume r1.2 RPAREN _) as [[t' s']|[]] eqn:Hc'; try done.
        injection Hc as -> ->.
        eapply _consume_in_bounds; [apply H1|done]. }
      eauto using advances_trans.
    + rewrite (Hsame eq_refl). clear dependent self1.
      destruct (_is_at_end_in_bounds self Hb) as (at_end & -> & _).
      unfold fbind at 1, call at 1. cbv beta iota. destruct at_end.
      * unfold _error_location. rewrite Hpeek. simpl. failed.
      * failed.
Qed.

Lemma tokenize_in_bounds source enable_comments tokens :
  tokenize source enable_comments = Some (Ok tokens) ->
  in_bounds (mkParser tokens source 0).
Proof.
  intros Htok. unfold tokenize in Htok.
  apply tokenize_loop_EOF in Htok as (front & last & -> & Hlast & _); [|done].
  split; simpl.
  - rewrite length_app. simpl. lia.
  - exists last. by rewrite last_snoc.
Qed.

(** The fuel of [parse] is never exhausted. *)
Lemma parse_total source : exists r, parse source = Some r.
Proof.
  unfold parse.
  destruct (tokenize_total source true) as [[tokens|e] Htok]; rewrite Htok.
  2:{ destruct e; eauto. }
  pose proof (tokenize_in_bounds _ _ _ Htok) as Hb.
  unfold parse_expression.
  destruct (proj1 (parse_returns (4 * List.length tokens + 4)) _ Hb)
    as (res & -> & Hadv).
  { unfold rest. simpl. lia. }
  destruct res as [r|e]; simpl; [|eauto].
  destruct (_is_at_end_in_bounds r.2) as (at_end & -> & _);
    [apply (Hadv r eq_refl)|].
  simpl. destruct at_end; simpl; [eauto|].
  destruct (_peek_in_bounds r.2) as (token & -> & _);
    [apply (Hadv r eq_refl)|].
  simpl. eauto.
Qed.

End parser_totality.

(** * Further properties *)

(** ** The optimizer and the evaluator *)

Section optimizer_further.
Import ast optimizer evaluator.

Lemma size_visit_not x : size (visit_not x) <= S (size x).
Proof. destruct x as [?|[]|?|??|??]; simpl; lia. Qed.

Lemma size_visit_and l r : size (visit_and l r) <= S (size l + size r).
Proof.
  destruct l as [?|[]|?|??|??]; simpl; try lia;
    destruct r as [?|[]|?|??|??]; simpl; lia.
Qed.

Lemma size_visit_or l r : size (visit_or l r) <= S (size l + size r).
Proof.
  destruct l as [?|[]|?|??|??]; simpl; try lia;
    destruct r as [?|[]|?|??|??]; simpl; lia.
Qed.

(** X1. The optimizer never grows a tree: the optimized expression has at
    most as many nodes as the expression. *)
Theorem optimize_size (e : Expr) : size (optimize e) <= size e.
Proof.
  induction e as [n|v|x IH|l IHl r IHr|l IHl r IHr]; simpl; try lia.
  - pose proof (size_visit_not (optimize x)). lia.
  - pose proof (size_visit_and (optimize l) (optimize r)). lia.
  - pose proof (size_visit_or (optimize l) (optimize r)). lia.
Qed.

Lemma free_vars_visit_not x : free_vars (visit_not x) ⊆ free_vars x.
Proof. destruct x as [?|[]|?|??|??]; simpl; set_solver. Qed.

Lemma free_vars_visit_and l r :
  free_vars (visit_and l r) ⊆ free_vars l ∪ free_vars r.
Proof.
  destruct l as [?|[]|?|??|??]; simpl; try set_solver;
    destruct r as [?|[]|?|??|??]; simpl; set_solver.
Qed.

Lemma free_vars_visit_or l r :
  free_vars (visit_or l r) ⊆ free_vars l ∪ free_vars r.
Proof.
  destruct l as [?|[]|?|??|??]; simpl; try set_solver;
    destruct r as [?|[]|?|??|??]; simpl; set_solver.
Qed.

(** X2. The optimizer introduces no variable: every variable of the
    optimized expression occurs in the expression. *)
Theorem optimize_free_vars (e : Expr) : free_vars (optimize e) ⊆ free_vars e.
Proof.
  induction e as [n|v|x IH|l IHl r IHr|l IHl r IHr]; simpl; try done.
  - pose proof (free_vars_visit_not (optimize x)). set_solver.
  - pose proof (free_vars_visit_and (optimize l) (optimize r)). set_solver.
  - pose proof (free_vars_visit_or (optimize l) (optimize r)). set_solver.
Qed.

Lemma normal_closed e :
  normal e = true -> free_vars e = ∅ -> is_BoolLit e = true.
Proof.
  induction e as [n|v|x IH|l IHl r IHr|l IHl r IHr]; simpl; try done.
  - intros [Hf Hn]%andb_true_iff Hc. apply negb_true_iff in Hf.
    by rewrite (IH Hn Hc) in Hf.
  - intros [[Hf Hl]%andb_true_iff Hr]%andb_true_iff Hc.
    apply negb_true_iff in Hf. rewrite IHl in Hf; [done|done|set_solver].
  - intros [[Hf Hl]%andb_true_iff Hr]%andb_true_iff Hc.
    apply negb_true_iff in Hf. rewrite IHl in Hf; [done|done|set_solver].
Qed.

(** X3. Constant folding is complete: an expression without variables is
    optimized to a boolean literal, which is the value the expression
    evaluates to in any environment. *)
Theorem optimize_closed (e : Expr) (env : gmap string pyobj) :
  free_vars e = ∅ ->
  exists b, optimize e = BoolLit b /\ evaluate e env = Ok b.
Proof.
  intros Hc.
  assert (Hlit : is_BoolLit (optimize e) = true).
  { apply normal_closed; [apply optimize_normal|].
    pose proof (optimize_free_vars e). set_solver. }
  destruct (optimize e) as [|b| | |] eqn:Ho; try done.
  exists b. split; [done|].
  destruct (evaluate_bound e env) as [b' Hb'].
  { rewrite Hc. intros x Hx. set_solver. }
  pose proof (evaluate_optimize e env b' Hb') as H.
  rewrite Ho in H. simpl in H. congruence.
Qed.

Lemma optimize_closed_witness :
  let e := Or (And (BoolLit true) (Not (BoolLit true))) (Not (BoolLit false)) in
  let env : gmap string pyobj := ∅ in
  free_vars e = ∅ /\
  exists b, optimize e = BoolLit b /\ evaluate e env = Ok b.
Proof.
  intros e env.
  assert (Hc : free_vars e = ∅) by (vm_compute; reflexivity).
  split; [exact Hc|]. exact (optimize_closed e env Hc).
Defined.

(** X4. The expressions the optimizer leaves as they are are exactly those
    to no subterm of which a rewriting rule applies. *)
Theorem optimize_unchanged_iff (e : Expr) :
  optimize e = e <-> (forall s, subterm s e -> foldable s = false).
Proof.
  split.
  - intros He s Hs. rewrite <- He in Hs.
    eapply normal_not_foldable, normal_subterm; [apply optimize_normal|done].
  - intros Hall. apply normal_fixpoint.
    induction e as [n|v|x IH|l IHl r IHr|l IHl r IHr]; try done.
    + cbn [normal]. rewrite (Hall _ (subterm_refl _)). simpl.
      apply IH. intros s Hs. apply Hall. by constructor.
    + cbn [normal]. rewrite (Hall _ (subterm_refl _)). simpl.
      rewrite IHl, IHr; [done| |]; intros s Hs; apply Hall;
        [by apply subterm_And_r|by apply subterm_And_l].
    + cbn [normal]. rewrite (Hall _ (subterm_refl _)). simpl.
      rewrite IHl, IHr; [done| |]; intros s Hs; apply Hall;
        [by apply subterm_Or_r|by apply subterm_Or_l].
Qed.

End optimizer_further.

Section evaluator_further.
Import ast optimizer evaluator.

Lemma evaluate_Ok_bound e (env : gmap string pyobj) b :
  evaluate e env = Ok b -> set_Forall (binds_bool env) (free_vars e).
Proof.
  revert b. induction e as [n|v|x IH|l IHl r IHr|l IHl r IHr];
    simpl; intros b.
  - unfold visit_var. destruct (env !! n) as [[]|] eqn:Hn; try done.
    intros _ x Hx. apply elem_of_singleton in Hx as ->.
    unfold binds_bool. by rewrite Hn.
  - intros _ x Hx. set_solver.
  - destruct (evaluate x env) eqn:Hx; simpl; [|done]. eauto.
  - destruct (evaluate l env) eqn:Hl; simpl; [|done].
    destruct (evaluate r env) eqn:Hr; simpl; [|done].
    intros _ x [Hx|Hx]%elem_of_union; [by eapply IHl|by eapply IHr].
  - destruct (evaluate l env) eqn:Hl; simpl; [|done].
    destruct (evaluate r env) eqn:Hr; simpl; [|done].
    intros _ x [Hx|Hx]%elem_of_union; [by eapply IHl|by eapply IHr].
Qed.

(** X5. Evaluation succeeds exactly when the environment binds every
    variable of the expression to a boolean: no variable is skipped by a
    short-circuit. *)
Theorem evaluate_succeeds_iff (e : Expr) (env : gmap string pyobj) :
  (exists b, evaluate e env = Ok b) <->
  set_Forall (binds_bool env) (free_vars e).
Proof.
  split.
  - intros [b Hb]. by eapply evaluate_Ok_bound.
  - apply evaluate_bound.
Qed.

(** X6. What [evaluate] raises: an [UnknownVariableError] for a variable of
    the expression that the environment does not bind, or a [TypeError] for
    a variable of the expression bound to a value that is not a boolean. *)
Theorem evaluate_raises (e : Expr) (env : gmap string pyobj) (err : exn) :
  evaluate e env = Raise err ->
  (exists name suggestions,
     err = UnknownVariableError name suggestions /\
     name ∈ free_vars e /\ env !! name = None) \/
  (exists name value,
     err = TypeError name value /\
     name ∈ free_vars e /\ env !! name = Some value /\ ~ is_bool value).
Proof.
  induction e as [n|v|x IH|l IHl r IHr|l IHl r IHr]; simpl.
  - unfold visit_var. destruct (env !! n) as [value|] eqn:Hn.
    + destruct value; try done; intros [= <-]; right;
        do 2 eexists; split_and!; try done; set_solver.
    + intros [= <-]. left. do 2 eexists. split_and!; try done. set_solver.
  - done.
  - destruct (evaluate x env); simpl; [done|]. intros [= <-]. auto.
  - destruct (evaluate l env); simpl.
    + destruct (evaluate r env); simpl; [done|]. intros [= <-].
      destruct IHr as [(n & s & ? & ? & ?)|(n & v & ? & ? & ?)]; [done| |];
        [left|right]; do 2 eexists; split_and!; try done; set_solver.
    + intros [= <-].
      destruct IHl as [(n & s & ? & ? & ?)|(n & v & ? & ? & ?)]; [done| |];
        [left|right]; do 2 eexists; split_and!; try done; set_solver.
  - destruct (evaluate l env); simpl.
    + destruct (evaluate r env); simpl; [done|]. intros [= <-].
      destruct IHr as [(n & s & ? & ? & ?)|(n & v & ? & ? & ?)]; [done| |];
        [left|right]; do 2 eexists; split_and!; try done; set_solver.
    + intros [= <-].
      destruct IHl as [(n & s & ? & ? & ?)|(n & v & ? & ? & ?)]; [done| |];
        [left|right]; do 2 eexists; split_and!; try done; set_solver.
Qed.

Lemma evaluate_raises_witness :
  let e := Or (Var "A") (And (Var "B") (Var "C")) in
  let env : gmap string pyobj :=
    <["A" := PyBool true]> (<["B" := PyInt 1]> ∅) in
  evaluate e env = Raise (TypeError "B" (PyInt 1)) /\
  "B" ∈ free_vars e /\ env !! "B" = Some (PyInt 1).
Proof.
  intros e env.
  assert (He : evaluate e env = Raise (TypeError "B" (PyInt 1)))
    by (vm_compute; reflexivity).
  split; [exact He|].
  destruct (evaluate_raises e env _ He)
    as [(n & s & Heq & _)|(n & v & Heq & Hin & Henv & _)];
    [discriminate Heq|].
  injection Heq as <- <-. split; assumption.
Defined.

(** X7. The value of an expression depends only on the bindings of its own
    variables: two environments that agree on them give the same value. *)
Theorem evaluate_agree (e : Expr) (env1 env2 : gmap string pyobj) (b : bool) :
  (forall x, x ∈ free_vars e -> env1 !! x = env2 !! x) ->
  evaluate e env1 = Ok b -> evaluate e env2 = Ok b.
Proof.
  revert b. induction e as [n|v|x IH|l IHl r IHr|l IHl r IHr];
    simpl; intros b Hagree.
  - unfold visit_var. rewrite <- (Hagree n) by set_solver.
    by destruct (env1 !! n) as [[]|].
  - done.
  - destruct (evaluate x env1) eqn:Hx; simpl; [|done].
    rewrite (IH _ Hagree eq_refl). done.
  - destruct (evaluate l env1) eqn:Hl; simpl; [|done].
    destruct (evaluate r env1) eqn:Hr; simpl; [|done].
    rewrite (IHl a), (IHr a0); try done; intros x Hx; apply Hagree;
      set_solver.
  - destruct (evaluate l env1) eqn:Hl; simpl; [|done].
    destruct (evaluate r env1) eqn:Hr; simpl; [|done].
    rewrite (IHl a), (IHr a0); try done; intros x Hx; apply Hagree;
      set_solver.
Qed.

Lemma evaluate_agree_witness :
  let e := And (Var "A") (Not (Var "B")) in
  let env1 : gmap string pyobj :=
    <["A" := PyBool true]> (<["B" := PyBool false]> ∅) in
  let env2 : gmap string pyobj := <["C" := PyInt 7]> env1 in
  (forall x, x ∈ free_vars e -> env1 !! x = env2 !! x) /\
  evaluate e env1 = Ok true /\ evaluate e env2 = Ok true.
Proof.
  intros e env1 env2.
  assert (Hagree : forall x, x ∈ free_vars e -> env1 !! x = env2 !! x).
  { intros x Hx. subst env2. rewrite lookup_insert_ne; [done|].
    intros <-. revert Hx. vm_compute. intros Hx. discriminate Hx. }
  assert (H1 : evaluate e env1 = Ok true) by (vm_compute; reflexivity).
  split; [exact Hagree|]. split; [exact H1|].
  exact (evaluate_agree e env1 env2 true Hagree H1).
Defined.

End evaluator_further.

(** ** The edit distance and the suggestions *)

Section levenshtein_further.
Import evaluator.

#[local] Arguments edit_table : simpl never.

Lemma edit_table_bounds s t i j :
  (i - j) + (j - i) <= edit_table s t i j <= i `max` j.
Proof.
  revert j. induction i as [|i IHi]; intros j.
  { rewrite edit_table_0_l. lia. }
  induction j as [|j IHj].
  { rewrite edit_table_0_r. lia. }
  rewrite edit_table_S_S.
  pose proof (IHi (S j)). pose proof (IHi j).
  unfold cost. destruct (Ascii.eqb _ _); lia.
Qed.

Lemma edit_table_diag s i : edit_table s s i i = 0.
Proof.
  induction i as [|i IH]; [done|].
  rewrite edit_table_S_S, IH. unfold cost. rewrite Ascii.eqb_refl. lia.
Qed.

Lemma edit_table_zero s t i j :
  i <= List.length s -> j <= List.length t ->
  edit_table s t i j = 0 -> i = j /\ take i s = take j t.
Proof.
  revert j. induction i as [|i IHi]; intros j Hi Hj.
  { rewrite edit_table_0_l. intros ->. done. }
  destruct j as [|j].
  { rewrite edit_table_0_r. done. }
  rewrite edit_table_S_S. unfold cost.
  destruct (Ascii.eqb_spec (s !!! i) (t !!! j)) as [Heq|]; [|lia].
  intros Hz. destruct (IHi j) as [-> Htake]; [lia|lia|lia|].
  split; [done|].
  destruct (lookup_lt_is_Some_2 s j) as [c1 Hc1]; [lia|].
  destruct (lookup_lt_is_Some_2 t j) as [c2 Hc2]; [lia|].
  rewrite (take_S_r _ _ _ Hc1), (take_S_r _ _ _ Hc2), Htake.
  rewrite (list_lookup_total_correct _ _ _ Hc1) in Heq.
  rewrite (list_lookup_total_correct _ _ _ Hc2) in Heq.
  by rewrite Heq.
Qed.

(** X8. The two-row computation of [levenshtein_distance] gives the entry
    of the classic edit-distance table for the two whole strings. *)
Theorem levenshtein_distance_edit_distance (s1 s2 : string) :
  levenshtein_distance s1 s2 = edit_distance s1 s2.
Proof. apply levenshtein_distance_correct. Qed.

(** X9. The distance computed is symmetric, is zero exactly for equal
    strings, is at least the difference of the lengths and at most the
    greater length. *)
Theorem levenshtein_distance_metric (s1 s2 : string) :
  levenshtein_distance s1 s2 = levenshtein_distance s2 s1 /\
  (levenshtein_distance s1 s2 = 0 <-> s1 = s2) /\
  (String.length s1 - String.length s2) +
    (String.length s2 - String.length s1) <= levenshtein_distance s1 s2 /\
  levenshtein_distance s1 s2 <= String.length s1 `max` String.length s2.
Proof.
  rewrite !levenshtein_distance_correct. unfold edit_distance.
  split_and!.
  - apply edit_table_sym.
  - split.
    + intros Hz. apply edit_table_zero in Hz as [_ Htake];
        [|by rewrite list_ascii_length..].
      rewrite <- !list_ascii_length, !firstn_all in Htake.
      rewrite <- (string_of_list_ascii_of_string s1),
        <- (string_of_list_ascii_of_string s2). by rewrite Htake.
    + intros ->. apply edit_table_diag.
  - apply edit_table_bounds.
  - apply edit_table_bounds.
Qed.

(** X10. The suggestions do not depend on the order in which the available
    names are listed. *)
Theorem find_similar_variables_order (variable_name : string)
    (l1 l2 : list string) (max_distance : nat) :
  l1 ≡ₚ l2 ->
  find_similar_variables variable_name l1 max_distance =
  find_similar_variables variable_name l2 max_distance.
Proof. apply find_similar_variables_Permutation. Qed.

Lemma find_similar_variables_order_witness :
  let l1 := ["beta"; "alpha"; "ALPHA"] in
  let l2 := ["alpha"; "beta"; "ALPHA"] in
  l1 ≡ₚ l2 /\
  find_similar_variables "alpa" l1 2 = find_similar_variables "alpa" l2 2.
Proof.
  intros l1 l2.
  assert (Hperm : l1 ≡ₚ l2) by apply perm_swap.
  split; [exact Hperm|].
  exact (find_similar_variables_order "alpa" l1 l2 2 Hperm).
Defined.



End levenshtein_further.

(** ** Equality and JSON *)

Section ast_further.
Import ast.

(** X12. [==] on expressions is structural equality: it holds exactly when
    the two trees are the same, so it is reflexive and symmetric. *)
Theorem eq_structural (a b : Expr) :
  (__eq__ a b = true <-> a = b) /\
  __eq__ a a = true /\
  __eq__ a b = __eq__ b a.
Proof.
  split_and!.
  - apply __eq___true_iff.
  - by apply __eq___true_iff.
  - destruct (__eq__ a b) eqn:Hab, (__eq__ b a) eqn:Hba; try done.
    + apply __eq___true_iff in Hab as ->.
      rewrite (proj2 (__eq___true_iff b b) eq_refl) in Hba. done.
    + apply __eq___true_iff in Hba as ->.
      rewrite (proj2 (__eq___true_iff a a) eq_refl) in Hab. done.
Qed.

(** X13. [from_json] reads only the tag and the fields of a node: two
    dicts with the same values under these keys, whatever else they hold
    and in whatever order, decode alike. *)
Theorem from_json_read_keys (from_json_str : string -> outcome Node)
    (items1 items2 : list (string * pyobj)) :
  (forall key, key ∈ read_keys -> dict_get key items1 = dict_get key items2) ->
  from_json from_json_str (PyDict items1) =
  from_json from_json_str (PyDict items2).
Proof.
  intros Hkeys. rewrite !from_json_dict. unfold decode_field. cbv zeta.
  rewrite !(Hkeys "type"), !(Hkeys "name"), !(Hkeys "value"),
    !(Hkeys "expr"), !(Hkeys "left"), !(Hkeys "right");
    try done; apply (bool_decide_unpack _); vm_compute; exact I.
Qed.

Lemma from_json_read_keys_witness :
  let from_json_str : string -> outcome Node := fun _ => Raise JSONDecodeError in
  let items1 := [("type", PyStr "Var"); ("name", PyStr "A")] in
  let items2 :=
    [("comment", PyInt 3); ("name", PyStr "A"); ("type", PyStr "Var")] in
  (forall key, key ∈ read_keys -> dict_get key items1 = dict_get key items2) /\
  from_json from_json_str (PyDict items2) = Ok (NVar (PyStr "A")).
Proof.
  intros from_json_str items1 items2.
  assert (Hkeys : forall key, key ∈ read_keys ->
                    dict_get key items1 = dict_get key items2).
  { intros key Hkey. unfold read_keys in Hkey.
    repeat (apply elem_of_cons in Hkey as [->|Hkey]; [reflexivity|]).
    by apply elem_of_nil in Hkey. }
  split; [exact Hkeys|].
  rewrite <- (from_json_read_keys from_json_str items1 items2 Hkeys).
  reflexivity.
Defined.

End ast_further.

(** ** The tokenizer: locations and lexemes *)

Section tokenizer_further.
Import tokenizer.

Lemma string_get_lookup s n :
  String.get n s = list_ascii_of_string s !! n.
Proof.
  revert n. induction s as [|c s IH]; intros [|n]; simpl; auto.
Qed.

Lemma string_drop_get s n c :
  String.get n s = Some c ->
  string_drop n s = String c (string_drop (S n) s).
Proof.
  revert n. induction s as [|c' s IH]; intros [|n]; simpl; try done.
  - intros [= ->]. by destruct s.
  - intros H. rewrite (IH n H). by destruct s.
Qed.

Lemma string_drop_ge s n : String.length s <= n -> string_drop n s = "".
Proof.
  revert n. induction s as [|c s IH]; intros [|n]; simpl; try done; try lia.
  intros H. apply IH. lia.
Qed.

Lemma string_get_lt s n : n < String.length s -> is_Some (String.get n s).
Proof.
  rewrite string_get_lookup, <- list_ascii_length. apply lookup_lt_is_Some_2.
Qed.

Lemma string_drop_cons_get s n c rest :
  string_drop n s = String c rest ->
  String.get n s = Some c /\ n < String.length s.
Proof.
  revert n. induction s as [|c' s IH]; intros [|n]; simpl; try done.
  - intros [= -> ->]. split; [done|lia].
  - intros H. destruct (IH n H). split; [done|lia].
Qed.

Lemma located_in_step source o l c :
  located_in source (mkSourceLocation l c o) ->
  forall ch, String.get o source = Some ch ->
  located_in source
    (if bool_decide (Some ch = Some "010"%char)
     then mkSourceLocation (l + 1) 1 (o + 1)
     else mkSourceLocation l (c + 1) (o + 1)).
Proof.
  unfold located_in, line_of, column_of. simpl. intros (Ho & -> & ->) ch Hch.
  assert (Hlt : o < String.length source).
  { rewrite string_get_lookup in Hch. apply lookup_lt_Some in Hch.
    by rewrite list_ascii_length in Hch. }
  rewrite string_get_lookup in Hch.
  case_bool_decide as Hnl; simpl; rewrite Nat.add_1_r;
    rewrite (take_S_r _ _ _ Hch), filter_app, reverse_snoc, length_app;
    rewrite filter_cons, filter_nil; simpl.
  - injection Hnl as ->. rewrite decide_True by done. simpl.
    split_and!; lia.
  - assert (ch <> "010"%char) by congruence.
    rewrite decide_False by done.
    unfold is_not_newline.
    destruct (Ascii.eqb_spec ch "010"); [done|]. simpl. split_and!; lia.
Qed.

Lemma _advance_step_located self : located self -> located (_advance_step self).
Proof.
  unfold located, _advance_step, _current_location. intros Hloc.
  destruct (Nat.ltb_spec (offset self) (length self)) as [Hlt|]; [|done].
  destruct (string_get_lt _ _ Hlt) as [ch Hch].
  pose proof (located_in_step _ _ _ _ Hloc ch Hch) as Hstep.
  rewrite Hch. by case_bool_decide.
Qed.

Lemma _advance_located self count :
  located self -> located (_advance self count).
Proof.
  unfold _advance. induction count as [|count IH]; simpl; [done|].
  intros H. by apply _advance_step_located, IH.
Qed.

Lemma located_bound self : located self -> offset self <= length self.
Proof. by intros [? _]. Qed.

Lemma _skip_whitespace_spec fuel self self' :
  _skip_whitespace fuel self = Some self' -> located self ->
  located self' /\ after self self' /\
  (forall c rest, text_at self' = String c rest -> is_space c = false).
Proof.
  revert self. induction fuel as [|fuel IH]; intros self; [done|].
  simpl. intros Hskip Hloc. pose proof (located_bound _ Hloc) as Hle.
  destruct (Nat.ltb_spec (offset self) (length self)).
  - destruct (_match_regex self _WHITESPACE_RE) as [n|] eqn:Hm.
    + pose proof Hm as Hm'.
      apply _match_regex_bounds in Hm' as [Hn Hin];
        [|apply _WHITESPACE_RE_bounds|done].
      destruct (IH _ Hskip) as (H1 & H2 & H3);
        [by apply _advance_located|].
      split_and!; eauto using after_trans, _advance_after.
    + injection Hskip as <-. split_and!; [done|by apply after_refl|].
      intros c rest Htext. unfold _match_regex, _WHITESPACE_RE in Hm.
      unfold text_at in Htext. rewrite Htext in Hm. simpl in Hm.
      by destruct (is_space c).
  - injection Hskip as <-. split_and!; [done|by apply after_refl|].
    intros c rest Htext. unfold text_at in Htext.
    rewrite string_drop_ge in Htext; [done|]. unfold length in *. lia.
Qed.

Lemma _skip_comment_located self :
  located self ->
  located (_skip_comment self).1 /\
  ((_skip_comment self).2 = false ->
   (_skip_comment self).1 = self /\
   (enable_comments self = true ->
    forall c rest, text_at self = String c rest -> c <> "#"%char)).
Proof.
  intros Hloc. unfold _skip_comment.
  destruct (enable_comments self); simpl; [|by split].
  destruct (_match_regex self _COMMENT_RE) as [n|] eqn:Hm; simpl.
  - split; [by apply _advance_located|done].
  - split; [done|]. intros _. split; [done|]. intros _ c rest Htext ->.
    unfold _match_regex, _COMMENT_RE in Hm. unfold text_at in Htext.
    by rewrite Htext in Hm.
Qed.

Lemma _skip_blanks_spec fuel self self' :
  _skip_blanks fuel self = Some self' -> located self ->
  located self' /\ after self self' /\ at_token self'.
Proof.
  revert self. induction fuel as [|fuel IH]; intros self; [done|].
  cbn [_skip_blanks]. intros Hskip Hloc.
  destruct (_skip_whitespace (S fuel) self) as [self1|] eqn:Hws; [|done].
  apply _skip_whitespace_spec in Hws as (Hloc1 & Hafter1 & Hsp); [|done].
  pose proof (_skip_comment_spec self1 (located_bound _ Hloc1)) as [Hafter2 _].
  pose proof (_skip_comment_located self1 Hloc1) as [Hloc2 Hsame].
  destruct (_skip_comment self1) as [self2 skipped]; simpl in *.
  destruct skipped.
  - destruct (IH _ Hskip Hloc2) as (H1 & H2 & H3).
    split_and!; eauto using after_trans.
  - injection Hskip as <-. destruct (Hsame eq_refl) as [-> Hcomment].
    split_and!; [done|done|]. intros c rest Htext. split; eauto.
Qed.

Lemma ascii_upper_idemp c : ascii_upper (ascii_upper c) = ascii_upper c.
Proof. by destruct c as [[] [] [] [] [] [] [] []]. Qed.

Lemma upper_idemp s : upper (upper s) = upper s.
Proof.
  unfold upper. induction s as [|c s IH]; simpl; [done|].
  by rewrite ascii_upper_idemp, IH.
Qed.

Lemma upper_length s : String.length (upper s) = String.length s.
Proof. unfold upper. induction s; simpl; auto. Qed.

Lemma string_take_length n s :
  n <= String.length s -> String.length (string_take n s) = n.
Proof.
  revert s. induction n as [|n IH]; intros [|c s]; simpl; intros; try lia.
  rewrite IH; lia.
Qed.

Lemma span_take p s : span p (string_take (span p s) s) = span p s.
Proof.
  induction s as [|c s IH]; simpl; [done|].
  destruct (p c) eqn:Hc; simpl; [|done]. by rewrite Hc, IH.
Qed.

Lemma _KEYWORDS_Some word t :
  _KEYWORDS word = Some t -> t = AND \/ t = OR \/ t = NOT \/ t = BOOL.
Proof.
  unfold _KEYWORDS.
  repeat match goal with
  | |- context [if ?c then _ else _] => destruct c
  end; intros [= <-]; auto.
Qed.

Lemma _read_token_spec budget self res :
  _read_token budget self = Some res -> located self ->
  match res with
  | Ok (token, self') =>
      located self' /\ after self self' /\
      located_in (source self) (location token) /\
      offset self <= errors.offset (location token) /\
      token_shape (source self) token /\
      offset self' = token_end token /\
      (type token = EOF -> errors.offset (location token) = length self) /\
      (type token <> EOF -> lexeme token <> "")
  | Raise e =>
      exists ch loc,
        e = LexicalError ch loc (source self) /\
        located_in (source self) loc /\
        String.get (errors.offset loc) (source self) = Some ch /\
        unexpected_char (enable_comments self) ch
  end.
Proof.
  unfold _read_token. intros Hread Hloc.
  destruct (_skip_blanks budget self) as [self1|] eqn:Hskip; [|done].
  apply _skip_blanks_spec in Hskip as (Hloc1 & Hafter & Hat); [|done].
  pose proof (located_bound _ Hloc1) as Hle1.
  pose proof (after_length _ _ Hafter) as Hlen.
  assert (Hsrc : source self1 = source self) by apply Hafter.
  assert (Hec : enable_comments self1 = enable_comments self) by apply Hafter.
  assert (Hoff : offset self <= offset self1) by apply Hafter.
  assert (Hlocin : located_in (source self) (_current_location self1)).
  { by rewrite <- Hsrc. }
  destruct (Nat.leb_spec (length self1) (offset self1)).
  { injection Hread as <-. split_and!; simpl; try done; lia. }
  destruct (string_get_lt (source self1) (offset self1)) as [ch Hch]; [done|].
  pose proof (string_drop_get _ _ _ Hch) as Htext.
  destruct (Hat ch _ Htext) as [Hspace Hcomment].
  rewrite Hch in Hread.
  change (default "000"%char (Some ch)) with ch in Hread.
  assert (Hslice1 : slice (source self) (offset self1) 1 = String ch "").
  { unfold slice. rewrite <- Hsrc, Htext. simpl.
    by destruct (string_drop _ _). }
  assert (Hone : located (_advance self1 1) /\ after self (_advance self1 1)
                 /\ offset (_advance self1 1) = offset self1 + 1).
  { assert (Hin : offset self1 + 1 <= length self1) by lia.
    split_and!; [by apply _advance_located|
                 eauto using after_trans, _advance_after|].
    by destruct (_advance_spec self1 1 Hin) as (_ & _ & ->). }
  destruct (Ascii.eqb_spec ch "(") as [Heq|Hlp].
  { subst ch. injection Hread as <-. destruct Hone as (? & ? & ?).
    split_and!; try done. unfold token_shape.
    cbn [type lexeme location _current_location errors.offset String.length].
    by rewrite Hslice1. }
  destruct (Ascii.eqb_spec ch ")") as [Heq|Hrp].
  { subst ch. injection Hread as <-. destruct Hone as (? & ? & ?).
    split_and!; try done. unfold token_shape.
    cbn [type lexeme location _current_location errors.offset String.length].
    by rewrite Hslice1. }
  destruct (_match_regex self1 _IDENT_RE) as [n|] eqn:Hm.
  2:{ injection Hread as <-. exists ch, (_current_location self1).
      split; [by rewrite Hsrc|]. split; [done|].
      split; [simpl; by rewrite <- Hsrc|].
      unfold unexpected_char. rewrite <- Hec. split_and!; try done.
      unfold _match_regex in Hm. rewrite Htext in Hm. simpl in Hm.
      by destruct (is_ident_start ch). }
  pose proof Hm as Hm'.
  apply _match_regex_bounds in Hm' as [Hn Hin];
    [|apply _IDENT_RE_bounds|done].
  set (text := string_take n (string_drop (offset self1) (source self1)))
    in *.
  assert (Hlen_text : String.length text = n).
  { subst text. apply string_take_length. rewrite string_drop_length.
    unfold length in *. lia. }
  assert (Hident : _IDENT_RE text = Some (String.length text)).
  { rewrite Hlen_text. subst text. unfold _match_regex in Hm.
    rewrite Htext in *. simpl in Hm.
    destruct (is_ident_start ch) eqn:Hstart; [|done].
    injection Hm as <-. simpl. rewrite Hstart. by rewrite span_take. }
  rewrite Hlen_text in Hread.
  destruct (_advance_spec self1 n Hin) as (_ & _ & Hadv).
  assert (Hslice : slice (source self) (offset self1) n = text).
  { unfold slice. by rewrite <- Hsrc. }
  injection Hread as <-.
  split_and!.
  - by apply _advance_located.
  - eauto using after_trans, _advance_after.
  - done.
  - done.
  - unfold token_shape. cbn [type lexeme location].
    destruct (_KEYWORDS (upper text)) as [t|] eqn:Hkw; cbn [default].
    + assert (Ht : t <> IDENT)
        by (destruct (_KEYWORDS_Some _ _ Hkw) as [-> | [-> | [-> | ->]]]; done).
      rewrite bool_decide_eq_true_2 by done.
      rewrite upper_length, Hlen_text. cbn [_current_location errors.offset].
      rewrite Hslice, upper_idemp. split; [done|].
      destruct (_KEYWORDS_Some _ _ Hkw) as [-> | [-> | [-> | ->]]]; done.
    + rewrite bool_decide_eq_false_2 by (intros H'; by apply H').
      rewrite Hlen_text. cbn [_current_location errors.offset].
      rewrite Hslice. rewrite Hlen_text in Hident. done.
  - unfold token_end. cbn [lexeme location _current_location errors.offset].
    rewrite Hadv. f_equal.
    destruct (bool_decide _); by rewrite ?upper_length.
  - cbn [type]. intros Heof.
    destruct (_KEYWORDS (upper text)) as [t|] eqn:Hkw; [|done].
    destruct (_KEYWORDS_Some _ _ Hkw) as [-> | [-> | [-> | ->]]]; done.
  - intros _. cbn [lexeme]. intros Hempty.
    assert (String.length
              (if bool_decide (default IDENT (_KEYWORDS (upper text)) <> IDENT)
               then upper text else text) = n)
      by (destruct (bool_decide _); by rewrite ?upper_length).
    rewrite Hempty in H0. simpl in H0. lia.
Qed.

Lemma tokenize_loop_spec budget fuel self acc res :
  tokenize_loop budget fuel self acc = Some res ->
  located self ->
  Forall (token_in (source self)) acc ->
  Forall (fun t => token_end t <= offset self) acc ->
  StronglySorted precedes acc ->
  match res with
  | Ok tokens =>
      Forall (token_in (source self)) tokens /\
      StronglySorted precedes tokens /\
      exists front last,
        tokens = (front ++ [last])%list /\
        errors.offset (location last) = String.length (source self)
  | Raise e =>
      exists ch loc,
        e = LexicalError ch loc (source self) /\
        located_in (source self) loc /\
        String.get (errors.offset loc) (source self) = Some ch /\
        unexpected_char (enable_comments self) ch
  end.
Proof.
  revert self acc.
  induction fuel as [|fuel IH]; intros self acc Hloop Hloc Hin Hend Hsort;
    [done|].
  cbn [tokenize_loop] in Hloop.
  destruct (_read_token budget self) as [[[token self']|e]|] eqn:Hread;
    simpl in Hloop; [| |done].
  2:{ injection Hloop as <-. by apply (_read_token_spec _ _ _ Hread). }
  apply _read_token_spec in Hread
    as (Hloc' & Hafter & Hlocin & Hoff & Hshape & Htend & Heof & _);
    [|done].
  assert (Hsrc : source self' = source self) by apply Hafter.
  assert (Hin' : Forall (token_in (source self)) (acc ++ [token])).
  { apply Forall_app. split; [done|]. constructor; [|done].
    split_and!; try done. rewrite <- Htend, <- Hsrc.
    apply (located_bound _ Hloc'). }
  assert (Hsort' : StronglySorted precedes (acc ++ [token])).
  { apply StronglySorted_app_2; [|done|repeat constructor].
    intros t1 t2 Ht1 ->%list_elem_of_singleton.
    rewrite Forall_forall in Hend. specialize (Hend _ Ht1).
    unfold precedes. lia. }
  case_bool_decide as Htype.
  - injection Hloop as <-. split_and!; [done|done|].
    exists acc, token. split; [done|]. rewrite (Heof Htype). done.
  - specialize (IH self' _ Hloop Hloc'). rewrite Hsrc in IH.
    assert (Hec : enable_comments self' = enable_comments self)
      by apply Hafter.
    rewrite Hec in IH. apply IH; [done| |done].
    apply Forall_app. split.
    + eapply Forall_impl; [exact Hend|]. simpl. intros t Ht.
      destruct Hafter as (_ & _ & ?). lia.
    + constructor; [lia|done].
Qed.

Lemma __init___located source enable_comments :
  located (__init__ source enable_comments).
Proof.
  unfold located, located_in, __init__, line_of, column_of. simpl.
  split_and!; [lia|done|done].
Qed.

End tokenizer_further.

Section tokenizer_extras.
Import tokenizer.

(** X14. Every token carries the line and the column of its offset: the
    line is one more than the number of newlines before the offset, the
    column one more than the number of characters since the last of them. *)
Theorem tokenize_locations (source : string) (enable_comments : bool)
    (tokens : list Token) :
  tokenize source enable_comments = Some (Ok tokens) ->
  Forall (fun token => located_in source (location token)) tokens.
Proof.
  intros Htok. unfold tokenize in Htok.
  apply tokenize_loop_spec in Htok as (Hall & _);
    [|apply __init___located|constructor..].
  eapply Forall_impl; [exact Hall|]. by intros t (? & _).
Qed.

Lemma tokenize_locations_witness :
  let source := String "A" (String "010" (String " " "b")) in
  let tokens :=
    [mkToken IDENT "A" (mkSourceLocation 1 1 0);
     mkToken IDENT "b" (mkSourceLocation 2 2 3);
     mkToken EOF "" (mkSourceLocation 2 3 4)] in
  tokenize source true = Some (Ok tokens) /\
  Forall (fun token => located_in source (location token)) tokens.
Proof.
  intros source tokens.
  assert (Htok : tokenize source true = Some (Ok tokens))
    by (vm_compute; reflexivity).
  split; [exact Htok|]. exact (tokenize_locations source true tokens Htok).
Defined.

(** X15. Tokens come in the order of the source and do not overlap: each
    ends where a later one starts or before, all end within the source,
    and the last one stands at the end of the source. *)
Theorem tokenize_order (source : string) (enable_comments : bool)
    (tokens : list Token) :
  tokenize source enable_comments = Some (Ok tokens) ->
  StronglySorted precedes tokens /\
  Forall (fun token => token_end token <= String.length source) tokens /\
  exists front last,
    tokens = (front ++ [last])%list /\
    errors.offset (location last) = String.length source.
Proof.
  intros Htok. unfold tokenize in Htok.
  apply tokenize_loop_spec in Htok as (Hall & Hsort & Hlast);
    [|apply __init___located|constructor..].
  split_and!; [done| |done].
  eapply Forall_impl; [exact Hall|]. by intros t (_ & _ & ?).
Qed.

Lemma tokenize_order_witness :
  let source := "(A or  b) # c" in
  let tokens :=
    [mkToken LPAREN "(" (mkSourceLocation 1 1 0);
     mkToken IDENT "A" (mkSourceLocation 1 2 1);
     mkToken OR "OR" (mkSourceLocation 1 4 3);
     mkToken IDENT "b" (mkSourceLocation 1 8 7);
     mkToken RPAREN ")" (mkSourceLocation 1 9 8);
     mkToken EOF "" (mkSourceLocation 1 14 13)] in
  tokenize source true = Some (Ok tokens) /\
  StronglySorted precedes tokens.
Proof.
  intros source tokens.
  assert (Htok : tokenize source true = Some (Ok tokens))
    by (vm_compute; reflexivity).
  split; [exact Htok|].
  exact (proj1 (tokenize_order source true tokens Htok)).
Defined.

(** X16. The lexeme of every token is the text of the source at its offset,
    up to case: a parenthesis for [LPAREN] and [RPAREN], nothing for [EOF],
    the keyword in upper case for [AND], [OR], [NOT] and [BOOL], and for
    [IDENT] the text itself, a whole identifier that is no keyword in any
    case. *)
Theorem tokenize_lexemes (source : string) (enable_comments : bool)
    (tokens : list Token) :
  tokenize source enable_comments = Some (Ok tokens) ->
  Forall (token_shape source) tokens.
Proof.
  intros Htok. unfold tokenize in Htok.
  apply tokenize_loop_spec in Htok as (Hall & _);
    [|apply __init___located|constructor..].
  eapply Forall_impl; [exact Hall|]. by intros t (_ & ? & _).
Qed.

Lemma tokenize_lexemes_witness :
  let source := "x1 And TRUE" in
  let tokens :=
    [mkToken IDENT "x1" (mkSourceLocation 1 1 0);
     mkToken AND "AND" (mkSourceLocation 1 4 3);
     mkToken BOOL "TRUE" (mkSourceLocation 1 8 7);
     mkToken EOF "" (mkSourceLocation 1 12 11)] in
  tokenize source true = Some (Ok tokens) /\
  Forall (token_shape source) tokens.
Proof.
  intros source tokens.
  assert (Htok : tokenize source true = Some (Ok tokens))
    by (vm_compute; reflexivity).
  split; [exact Htok|]. exact (tokenize_lexemes source true tokens Htok).
Defined.

(** X17. [tokenize] always returns: either the tokens, or a [LexicalError]
    that carries the whole source, the location of a character of it (line
    and column those of its offset) and that character, which is no blank,
    no parenthesis, starts no identifier and, when comments are enabled, is
    no ['#']. *)
Theorem tokenize_outcome (source : string) (enable_comments : bool) :
  (exists tokens, tokenize source enable_comments = Some (Ok tokens)) \/
  (exists ch loc,
     tokenize source enable_comments =
       Some (Raise (LexicalError ch loc source)) /\
     located_in source loc /\
     String.get (errors.offset loc) source = Some ch /\
     unexpected_char enable_comments ch).
Proof.
  destruct (tokenize_total source enable_comments) as [[tokens|e] Htok].
  - left. eauto.
  - right. pose proof Htok as Htok'. unfold tokenize in Htok'.
    apply tokenize_loop_spec in Htok'
      as (ch & loc & -> & Hloc & Hget & Hbad);
      [|apply __init___located|constructor..].
    exists ch, loc. done.
Qed.

End tokenizer_extras.

(** ** The parser: what it raises *)

Section parser_further.
Import ast tokenizer parser.

Lemma syntax_error_same_input self self' e :
  same_input self self' -> syntax_error self' e -> syntax_error self e.
Proof. intros [Ht Hs] (token & Hin & He). exists token. by rewrite <- Ht, <- Hs. Qed.

Lemma syntax_error_advances self self' e :
  advances self self' -> syntax_error self' e -> syntax_error self e.
Proof. intros [H _]. by apply syntax_error_same_input. Qed.

Lemma _peek_elem_of self token :
  in_bounds self -> _peek self 0 = Ok token -> token ∈ tokens self.
Proof.
  intros Hb Hpeek. destruct (_peek_in_bounds self Hb) as (t & Ht & Hlook).
  rewrite Hpeek in Ht. injection Ht as <-. by eapply list_elem_of_lookup_2.
Qed.

Lemma _consume_sound self token_type expected :
  in_bounds self ->
  match _consume self token_type expected with
  | Ok r => advances self r.2
  | Raise e =>
      exists token exp,
        token ∈ tokens self /\
        e = UnexpectedTokenError exp (found_str token) (location token)
              (source self)
  end.
Proof.
  intros Hb. unfold _consume.
  destruct (_check_in_bounds self token_type Hb) as (found & -> & _).
  simpl. destruct found.
  - destruct (_advance_in_bounds self Hb) as (t & s' & -> & Hadv & _). done.
  - destruct (_peek_in_bounds self Hb) as (token & Hpeek & Hlook).
    rewrite Hpeek. simpl. do 2 eexists. split; [|done].
    by eapply list_elem_of_lookup_2.
Qed.

Ltac sound_match self t found self' Hadv Hcur Hsame :=
  let Hm := fresh "Hm" in
  destruct (_match_in_bounds self t) as (found & self' & Hm & Hadv & Hcur & Hsame);
  [assumption|];
  rewrite Hm; unfold fbind at 1, call at 1; cbv beta iota; cbn [fst snd].

Lemma parse_sound fuel :
  (forall self, in_bounds self -> sound_from (parse_or fuel) self) /\
  (forall e self, in_bounds self -> sound_from (parse_or_loop fuel e) self) /\
  (forall self, in_bounds self -> sound_from (parse_and fuel) self) /\
  (forall e self, in_bounds self -> sound_from (parse_and_loop fuel e) self) /\
  (forall self, in_bounds self -> sound_from (parse_not fuel) self) /\
  (forall self, in_bounds self -> sound_from (parse_primary fuel) self).
Proof.
  induction fuel as [|fuel (IHor & IHorl & IHand & IHandl & IHnot & IHprim)].
  { split_and!; intros; exact I. }
  unfold sound_from in *. split_and!.
  - intros self Hb. cbn [parse_or].
    specialize (IHand self Hb).
    destruct (parse_and fuel self) as [[r1|e]|]; unfold fbind at 1;
      cbv beta iota; [|done|done].
    specialize (IHorl r1.1 r1.2 ltac:(apply IHand)).
    destruct (parse_or_loop fuel r1.1 r1.2) as [[r2|e]|]; [| |done];
      eauto using advances_trans, syntax_error_advances.
  - intros e self Hb. cbn [parse_or_loop].
    sound_match self OR found self1 Hadv Hcur Hsame. destruct found; [|done].
    specialize (IHand self1 ltac:(apply Hadv)).
    destruct (parse_and fuel self1) as [[r1|err]|]; unfold fbind at 1;
      cbv beta iota; [| |done]; [|eauto using syntax_error_advances].
    specialize (IHorl (Or e r1.1) r1.2 ltac:(apply IHand)).
    destruct (parse_or_loop fuel (Or e r1.1) r1.2) as [[r2|err]|]; [| |done];
      eauto using advances_trans, syntax_error_advances.
  - intros self Hb. cbn [parse_and].
    specialize (IHnot self Hb).
    destruct (parse_not fuel self) as [[r1|e]|]; unfold fbind at 1;
      cbv beta iota; [|done|done].
    specialize (IHandl r1.1 r1.2 ltac:(apply IHnot)).
    destruct (parse_and_loop fuel r1.1 r1.2) as [[r2|e]|]; [| |done];
      eauto using advances_trans, syntax_error_advances.
  - intros e self Hb. cbn [parse_and_loop].
    sound_match self AND found self1 Hadv Hcur Hsame. destruct found; [|done].
    specialize (IHnot self1 ltac:(apply Hadv)).
    destruct (parse_not fuel self1) as [[r1|err]|]; unfold fbind at 1;
      cbv beta iota; [| |done]; [|eauto using syntax_error_advances].
    specialize (IHandl (And e r1.1) r1.2 ltac:(apply IHnot)).
    destruct (parse_and_loop fuel (And e r1.1) r1.2) as [[r2|err]|];
      [| |done]; eauto using advances_trans, syntax_error_advances.
  - intros self Hb. cbn [parse_not].
    sound_match self NOT found self1 Hadv Hcur Hsame. destruct found.
    + specialize (IHnot self1 ltac:(apply Hadv)).
      destruct (parse_not fuel self1) as [[r1|err]|]; unfold fbind at 1;
        cbv beta iota; [| |done]; simpl;
        eauto using advances_trans, syntax_error_advances.
    + rewrite (Hsame eq_refl). by apply IHprim.
  - intros self Hb. cbn [parse_primary].
    destruct (_peek_in_bounds self Hb) as (token & Hpeek & Hlook).
    apply list_elem_of_lookup_2 in Hlook.
    rewrite Hpeek. unfold fbind at 1, call at 1. cbv beta iota.
    sound_match self BOOL found self1 Hadv Hcur Hsame.
    destruct found; [done|].
    rewrite (Hsame eq_refl). clear dependent self1.
    sound_match self IDENT found self1 Hadv Hcur Hsame.
    destruct found; [done|].
    rewrite (Hsame eq_refl). clear dependent self1.
    sound_match self LPAREN found self1 Hadv Hcur Hsame. destruct found.
    + specialize (IHor self1 ltac:(apply Hadv)).
      destruct (parse_or fuel self1) as [[r1|err]|]; unfold fbind at 1;
        cbv beta iota; [| |done]; [|eauto using syntax_error_advances].
      pose proof (_consume_sound r1.2 RPAREN (Some "parenthèse fermante ')'")
                    ltac:(apply IHor)) as Hc.
      assert (Hsame1 : same_input self r1.2).
      { eapply same_input_trans; [apply Hadv|apply IHor]. }
      destruct (_consume r1.2 RPAREN _) as [c|err]; simpl.
      * eauto using advances_trans.
      * destruct Hc as (t & exp & Hin & ->). simpl.
        apply (syntax_error_same_input _ r1.2); [done|].
        exists t. split; [done|]. right. by left.
    + rewrite (Hsame eq_refl). clear dependent self1.
      destruct (_is_at_end_in_bounds self Hb) as (at_end & Hend & _).
      rewrite Hend. unfold fbind at 1, call at 1. cbv beta iota.
      destruct at_end.
      * unfold _error_location. rewrite Hpeek. simpl.
        exists token. split; [done|]. right. right. eexists. split; [done|].
        unfold _is_at_end in Hend. rewrite Hpeek in Hend. simpl in Hend.
        injection Hend as Hend. by apply bool_decide_eq_true in Hend.
      * exists token. split; [done|]. left. by eexists.
Qed.

(** X18. [parse] always returns: an expression, the [LexicalError] of the
    tokenizer, or one of [UnexpectedTokenError], [MissingParenthesisError]
    (of kind ["fermante"]) and [EndOfInputError], which carries the source
    and the location of one of its tokens, the final [EOF] for
    [EndOfInputError]. It raises no [IndexError] and none of the other
    classes of errors. *)
Theorem parse_outcome (source : string) :
  (exists expr, parse source = Some (Ok expr)) \/
  (exists ch loc, parse source = Some (Raise (LexicalError ch loc source))) \/
  (exists tokens token err,
     tokenize source true = Some (Ok tokens) /\
     token ∈ tokens /\ located_in source (location token) /\
     parse source = Some (Raise err) /\
     syntax_error_at token source err).
Proof.
  destruct (parse_total source) as [[expr|err] Hparse]; [eauto|].
  right. pose proof Hparse as Hp. unfold parse in Hp.
  destruct (tokenize_total source true) as [[tokens|e] Htok];
    rewrite Htok in Hp.
  2:{ left. pose proof Htok as Htok'. unfold tokenize in Htok'.
      apply tokenize_loop_spec in Htok' as (ch & loc & -> & _);
        [|apply __init___located|constructor..].
      simpl in Hp. exists ch, loc. by rewrite Hparse, <- Hp. }
  right. exists tokens.
  assert (Hloc : Forall (fun t => located_in source (location t)) tokens).
  { pose proof Htok as Htok'. unfold tokenize in Htok'.
    apply tokenize_loop_spec in Htok' as (Hall & _);
      [|apply __init___located|constructor..].
    eapply Forall_impl; [exact Hall|]. by intros t (? & _). }
  rewrite Forall_forall in Hloc.
  pose proof (tokenize_in_bounds _ _ _ Htok) as Hb.
  assert (Herr : syntax_error (mkParser tokens source 0) err).
  { unfold parse_expression in Hp.
    pose proof (proj1 (parse_sound (4 * List.length tokens + 4)) _ Hb) as Hs.
    unfold sound_from in Hs.
    destruct (parse_or _ _) as [[r|e]|]; simpl in Hp; [| |done].
    - destruct (_is_at_end_in_bounds r.2) as (at_end & Hend & _);
        [apply Hs|].
      rewrite Hend in Hp. simpl in Hp. destruct at_end; [done|]. simpl in Hp.
      destruct (_peek r.2 0) as [token|] eqn:Hpeek; simpl in Hp;
        [|destruct (_peek_in_bounds r.2 ltac:(apply Hs)) as (? & ? & _);
          congruence].
      injection Hp as <-.
      apply (syntax_error_advances _ r.2); [done|].
      exists token. split; [apply _peek_elem_of; [apply Hs|done]|].
      left. by eexists.
    - by injection Hp as <-. }
  destruct Herr as (token & Hin & Herr). exists token, err. simpl in *.
  split_and!; auto.
Qed.

End parser_further.

(** ** The parser and its grammar *)

Section parser_grammar.
Import ast tokenizer parser.

Lemma ahead_lookup self token post :
  ahead self = token :: post -> tokens self !! current self = Some token.
Proof.
  unfold ahead. intros H.
  by rewrite <- (Nat.add_0_r (current self)), <- lookup_drop, H.
Qed.

Lemma ahead_forward self seg post :
  ahead self = (seg ++ post)%list ->
  ahead (forward self (List.length seg)) = post.
Proof.
  unfold ahead, forward. simpl. intros H.
  by rewrite <- drop_drop, H, drop_app_length.
Qed.

Lemma forward_0 self : forward self 0 = self.
Proof. destruct self. unfold forward, set_current. simpl. f_equal. lia. Qed.

Lemma forward_forward self n m :
  forward (forward self n) m = forward self (n + m).
Proof. unfold forward, set_current. simpl. f_equal. lia. Qed.

Lemma _peek_ahead self token post :
  ahead self = token :: post -> _peek self 0 = Ok token.
Proof.
  intros H%ahead_lookup. unfold _peek. rewrite Nat.add_0_r.
  pose proof (lookup_lt_Some _ _ _ H).
  destruct (Nat.leb_spec (List.length (tokens self)) (current self)); [lia|].
  by rewrite H.
Qed.

Lemma _match_ahead_true self token post :
  ahead self = token :: post -> type token <> EOF ->
  _match self [type token] = Ok (true, forward self 1).
Proof.
  intros H Heof. pose proof (_peek_ahead _ _ _ H) as Hpeek.
  apply ahead_lookup in H.
  simpl. unfold _check, _advance, _is_at_end. rewrite Hpeek. simpl.
  rewrite bool_decide_eq_false_2 by done. simpl.
  rewrite bool_decide_eq_true_2 by done. simpl.
  unfold forward. rewrite Nat.add_1_r. by rewrite H.
Qed.

Lemma _match_ahead_false self token post token_type :
  ahead self = token :: post -> type token <> token_type ->
  _match self [token_type] = Ok (false, self).
Proof.
  intros H Hne. pose proof (_peek_ahead _ _ _ H) as Hpeek.
  simpl. unfold _check, _is_at_end. rewrite Hpeek. simpl.
  case_bool_decide; simpl; [done|].
  by rewrite bool_decide_eq_false_2 by done.
Qed.

Lemma _consume_ahead self token post expected :
  ahead self = token :: post -> type token <> EOF ->
  _consume self (type token) expected = Ok (token, forward self 1).
Proof.
  intros H Heof. pose proof (_peek_ahead _ _ _ H) as Hpeek.
  apply ahead_lookup in H.
  unfold _consume, _check, _advance, _is_at_end. rewrite Hpeek. simpl.
  rewrite bool_decide_eq_false_2 by done. simpl.
  rewrite bool_decide_eq_true_2 by done. simpl.
  unfold forward. rewrite Nat.add_1_r. by rewrite H.
Qed.

Lemma _is_at_end_ahead self token post :
  ahead self = token :: post ->
  _is_at_end self = Ok (bool_decide (type token = EOF)).
Proof.
  intros H. unfold _is_at_end. by rewrite (_peek_ahead _ _ _ H).
Qed.

Lemma ahead_forward_1 self token post :
  ahead self = token :: post -> ahead (forward self 1) = post.
Proof. intros H. by apply (ahead_forward self [token]). Qed.

Lemma stops_weaken types types' post :
  types' ⊆ types -> stops types post -> stops types' post.
Proof. destruct post; simpl; [done|]. intros Hsub Hnot Hin. auto. Qed.

Lemma derives_or_tail_stops acc tail e post :
  derives_or_tail acc tail e -> stops [OR; AND] post ->
  stops [AND] (tail ++ post).
Proof.
  intros Htail Hstop. inversion Htail; subst; simpl.
  - eapply stops_weaken; [|done]. intros t Ht. by right.
  - intros Hin. apply list_elem_of_singleton in Hin. congruence.
Qed.

(** One step of a grammar method whose head is a helper call or a call of
    another grammar method, the result of which is known. *)
Ltac run_with H :=
  rewrite H; unfold fbind at 1; try unfold call at 1; cbv beta iota;
  cbn [fst snd].

(** Completeness: on the tokens of a derivation, with enough fuel, each
    grammar method returns the tree of the derivation and stands after
    them. *)
Lemma parse_complete :
  (forall seg e, derives_or seg e ->
     forall self post fuel, ahead self = (seg ++ post)%list ->
       stops [OR; AND] post -> 4 * List.length seg + 4 <= fuel ->
       parse_or fuel self = Some (Ok (e, forward self (List.length seg)))) /\
  (forall acc tail e, derives_or_tail acc tail e ->
     forall self post fuel, ahead self = (tail ++ post)%list ->
       stops [OR; AND] post -> 4 * List.length tail + 3 <= fuel ->
       parse_or_loop fuel acc self =
         Some (Ok (e, forward self (List.length tail)))) /\
  (forall seg e, derives_and seg e ->
     forall self post fuel, ahead self = (seg ++ post)%list ->
       stops [AND] post -> 4 * List.length seg + 3 <= fuel ->
       parse_and fuel self = Some (Ok (e, forward self (List.length seg)))) /\
  (forall acc tail e, derives_and_tail acc tail e ->
     forall self post fuel, ahead self = (tail ++ post)%list ->
       stops [AND] post -> 4 * List.length tail + 2 <= fuel ->
       parse_and_loop fuel acc self =
         Some (Ok (e, forward self (List.length tail)))) /\
  (forall seg e, derives_not seg e ->
     forall self post fuel, ahead self = (seg ++ post)%list ->
       4 * List.length seg + 2 <= fuel ->
       parse_not fuel self = Some (Ok (e, forward self (List.length seg)))) /\
  (forall seg e, derives_primary seg e ->
     forall self post fuel, ahead self = (seg ++ post)%list ->
       4 * List.length seg + 1 <= fuel ->
       parse_primary fuel self =
         Some (Ok (e, forward self (List.length seg)))).
Proof.
  apply derives_mutind.
  - (* or -> and ( OR and )* *)
    intros ts tail e0 e Hand IHand Htail IHtail self post fuel Hahead Hstop Hfuel.
    rewrite length_app in *. destruct fuel as [|fuel]; [lia|].
    cbn [parse_or]. rewrite <- app_assoc in Hahead.
    rewrite (IHand self (tail ++ post)%list fuel Hahead);
      [|by eapply derives_or_tail_stops|lia].
    unfold fbind at 1; cbv beta iota; cbn [fst snd].
    rewrite (IHtail _ post fuel); [|by eapply ahead_forward|done|lia].
    by rewrite forward_forward.
  - (* the end of ( OR and )* *)
    intros acc self post fuel Hahead Hstop Hfuel.
    destruct fuel as [|fuel]; [lia|]. cbn [parse_or_loop].
    destruct post as [|next post]; [done|]. simpl in Hahead, Hstop.
    rewrite (_match_ahead_false self next post OR Hahead) by set_solver.
    unfold fbind at 1, call at 1; cbv beta iota; cbn [fst snd].
    by rewrite forward_0.
  - (* OR and, and the rest *)
    intros acc token ts r tail e Htype Hand IHand Htail IHtail
      self post fuel Hahead Hstop Hfuel.
    cbn [List.length] in *. rewrite length_app in *.
    destruct fuel as [|fuel]; [lia|]. cbn [parse_or_loop].
    rewrite <- app_comm_cons, <- app_assoc in Hahead.
    rewrite <- Htype.
    rewrite (_match_ahead_true self token _ Hahead) by congruence.
    unfold fbind at 1, call at 1; cbv beta iota; cbn [fst snd].
    apply ahead_forward_1 in Hahead.
    rewrite (IHand _ (tail ++ post)%list fuel Hahead);
      [|by eapply derives_or_tail_stops|lia].
    unfold fbind at 1; cbv beta iota; cbn [fst snd].
    rewrite (IHtail _ post fuel); [|by eapply ahead_forward|done|lia].
    rewrite !forward_forward. repeat f_equal; lia.
  - (* and -> not ( AND not )* *)
    intros ts tail e0 e Hnot IHnot Htail IHtail self post fuel Hahead Hstop Hfuel.
    rewrite length_app in *. destruct fuel as [|fuel]; [lia|].
    cbn [parse_and]. rewrite <- app_assoc in Hahead.
    rewrite (IHnot self (tail ++ post)%list fuel Hahead) by lia.
    unfold fbind at 1; cbv beta iota; cbn [fst snd].
    rewrite (IHtail _ post fuel); [|by eapply ahead_forward|done|lia].
    by rewrite forward_forward.
  - (* the end of ( AND not )* *)
    intros acc self post fuel Hahead Hstop Hfuel.
    destruct fuel as [|fuel]; [lia|]. cbn [parse_and_loop].
    destruct post as [|next post]; [done|]. simpl in Hahead, Hstop.
    rewrite (_match_ahead_false self next post AND Hahead) by set_solver.
    unfold fbind at 1, call at 1; cbv beta iota; cbn [fst snd].
    by rewrite forward_0.
  - (* AND not, and the rest *)
    intros acc token ts r tail e Htype Hnot IHnot Htail IHtail
      self post fuel Hahead Hstop Hfuel.
    cbn [List.length] in *. rewrite length_app in *.
    destruct fuel as [|fuel]; [lia|]. cbn [parse_and_loop].
    rewrite <- app_comm_cons, <- app_assoc in Hahead.
    rewrite <- Htype.
    rewrite (_match_ahead_true self token _ Hahead) by congruence.
    unfold fbind at 1, call at 1; cbv beta iota; cbn [fst snd].
    apply ahead_forward_1 in Hahead.
    rewrite (IHnot _ (tail ++ post)%list fuel Hahead) by lia.
    unfold fbind at 1; cbv beta iota; cbn [fst snd].
    rewrite (IHtail _ post fuel); [|by eapply ahead_forward|done|lia].
    rewrite !forward_forward. repeat f_equal; lia.
  - (* not -> NOT not *)
    intros token ts e Htype Hnot IHnot self post fuel Hahead Hfuel.
    cbn [List.length] in *. destruct fuel as [|fuel]; [lia|].
    cbn [parse_not]. rewrite <- app_comm_cons in Hahead. rewrite <- Htype.
    rewrite (_match_ahead_true self token _ Hahead) by congruence.
    unfold fbind at 1, call at 1; cbv beta iota; cbn [fst snd].
    apply ahead_forward_1 in Hahead.
    rewrite (IHnot _ post fuel Hahead) by lia.
    unfold fbind at 1; cbv beta iota; cbn [fst snd].
    rewrite forward_forward. repeat f_equal; lia.
  - (* not -> primary *)
    intros ts e Hprim IHprim self post fuel Hahead Hfuel.
    destruct fuel as [|fuel]; [lia|]. cbn [parse_not].
    destruct ts as [|token ts]; [by inversion Hprim|].
    rewrite <- app_comm_cons in Hahead.
    rewrite (_match_ahead_false self token _ NOT Hahead).
    2:{ inversion Hprim; congruence. }
    unfold fbind at 1, call at 1; cbv beta iota; cbn [fst snd].
    apply (IHprim self post fuel); [done|lia].
  - (* primary -> IDENT *)
    intros token Htype self post fuel Hahead Hfuel.
    destruct fuel as [|fuel]; [lia|]. cbn [parse_primary]. simpl in Hahead.
    rewrite (_peek_ahead _ _ _ Hahead).
    unfold fbind at 1, call at 1; cbv beta iota.
    rewrite (_match_ahead_false self token _ BOOL Hahead) by congruence.
    unfold fbind at 1, call at 1; cbv beta iota; cbn [fst snd].
    rewrite <- Htype.
    rewrite (_match_ahead_true self token _ Hahead) by congruence.
    unfold fbind at 1, call at 1; cbv beta iota; cbn [fst snd].
    done.
  - (* primary -> BOOL *)
    intros token Htype self post fuel Hahead Hfuel.
    destruct fuel as [|fuel]; [lia|]. cbn [parse_primary]. simpl in Hahead.
    rewrite (_peek_ahead _ _ _ Hahead).
    unfold fbind at 1, call at 1; cbv beta iota.
    rewrite <- Htype.
    rewrite (_match_ahead_true self token _ Hahead) by congruence.
    unfold fbind at 1, call at 1; cbv beta iota; cbn [fst snd].
    done.
  - (* primary -> '(' expression ')' *)
    intros l ts r e Hl Hor IHor Hr self post fuel Hahead Hfuel.
    cbn [List.length] in *. rewrite length_app in *. cbn [List.length] in *.
    destruct fuel as [|fuel]; [lia|]. cbn [parse_primary].
    rewrite <- app_comm_cons, <- app_assoc in Hahead.
    rewrite (_peek_ahead _ _ _ Hahead).
    unfold fbind at 1, call at 1; cbv beta iota.
    rewrite (_match_ahead_false self l _ BOOL Hahead) by congruence.
    unfold fbind at 1, call at 1; cbv beta iota; cbn [fst snd].
    rewrite (_match_ahead_false self l _ IDENT Hahead) by congruence.
    unfold fbind at 1, call at 1; cbv beta iota; cbn [fst snd].
    rewrite <- Hl.
    rewrite (_match_ahead_true self l _ Hahead) by congruence.
    unfold fbind at 1, call at 1; cbv beta iota; cbn [fst snd].
    apply ahead_forward_1 in Hahead.
    rewrite (IHor _ ([r] ++ post)%list fuel Hahead); [|simpl; rewrite Hr; by apply (bool_decide_unpack _)|lia].
    unfold fbind at 1; cbv beta iota; cbn [fst snd].
    apply ahead_forward in Hahead. simpl in Hahead.
    rewrite <- Hr.
    rewrite (_consume_ahead _ r _ _ Hahead) by congruence.
    unfold fbind at 1, call at 1; cbv beta iota; cbn [fst snd].
    rewrite !forward_forward. repeat f_equal; lia.
Qed.

Lemma _match_inv self token_type found self' :
  in_bounds self -> _match self [token_type] = Ok (found, self') ->
  in_bounds self' /\
  if found then
    exists token, ahead self = token :: ahead self' /\
      type token = token_type /\ _peek self 0 = Ok token
  else self' = self.
Proof.
  intros Hb Hm.
  destruct (_match_in_bounds self token_type Hb)
    as (found' & self'' & Hm' & Hadv & Hcur & Hsame).
  rewrite Hm in Hm'. injection Hm' as <- <-.
  split; [apply Hadv|]. destruct found; [|auto].
  destruct (_peek_in_bounds self Hb) as (token & Hpeek & Htok).
  exists token. specialize (Hcur eq_refl).
  destruct Hadv as ([Htokens _] & _). unfold ahead.
  rewrite Htokens, Hcur. split; [by apply drop_S|]. split; [|done].
  simpl in Hm. destruct (_check self token_type) as [[]|] eqn:Hc; try done.
  apply _check_true in Hc as (token' & Hpeek' & Htype & _). congruence.
Qed.

Lemma _consume_inv self token_type expected token self' :
  in_bounds self -> _consume self token_type expected = Ok (token, self') ->
  in_bounds self' /\ ahead self = token :: ahead self' /\
  type token = token_type.
Proof.
  intros Hb Hc. unfold _consume in Hc.
  destruct (_check self token_type) as [[]|] eqn:Hcheck; simpl in Hc;
    [|by destruct (_peek self 0)|done].
  destruct (_match_inv self token_type true self' Hb) as (Hb' & t & Ha & Ht & Hp).
  { simpl. rewrite Hcheck. simpl. by rewrite Hc. }
  split; [done|].
  enough (t = token) by (subst; done).
  apply ahead_lookup in Ha.
  unfold _advance in Hc.
  destruct (_check_in_bounds self token_type Hb) as (found & Hcheck' & Hend).
  rewrite Hcheck in Hcheck'. injection Hcheck' as <-.
  rewrite (Hend eq_refl) in Hc. simpl in Hc.
  rewrite Nat.add_1_r in Hc. rewrite Ha in Hc. by injection Hc.
Qed.

Lemma sound_from_in_bounds f self r :
  sound_from f self -> f self = Some (Ok r) -> in_bounds r.2.
Proof. unfold sound_from. intros H Hf. rewrite Hf in H. apply H. Qed.

Ltac step_in H :=
  match type of H with
  | fbind (call ?m) _ = _ =>
      let E := fresh "E" in
      destruct m as [?|?] eqn:E;
      unfold fbind at 1, call at 1 in H; cbv beta iota in H; [|done]
  | fbind ?m _ = _ =>
      let E := fresh "E" in
      destruct m as [[?|?]|] eqn:E;
      unfold fbind at 1 in H; cbv beta iota in H; [|done|done]
  end.

(** Soundness: the tokens that a grammar method reads when it returns a
    tree are a derivation of that tree. *)
Lemma parse_derives fuel :
  (forall self r, in_bounds self -> parse_or fuel self = Some (Ok r) ->
     exists seg, derives_or seg r.1 /\ ahead self = (seg ++ ahead r.2)%list) /\
  (forall acc self r, in_bounds self ->
     parse_or_loop fuel acc self = Some (Ok r) ->
     exists tail, derives_or_tail acc tail r.1 /\
       ahead self = (tail ++ ahead r.2)%list) /\
  (forall self r, in_bounds self -> parse_and fuel self = Some (Ok r) ->
     exists seg, derives_and seg r.1 /\ ahead self = (seg ++ ahead r.2)%list) /\
  (forall acc self r, in_bounds self ->
     parse_and_loop fuel acc self = Some (Ok r) ->
     exists tail, derives_and_tail acc tail r.1 /\
       ahead self = (tail ++ ahead r.2)%list) /\
  (forall self r, in_bounds self -> parse_not fuel self = Some (Ok r) ->
     exists seg, derives_not seg r.1 /\ ahead self = (seg ++ ahead r.2)%list) /\
  (forall self r, in_bounds self -> parse_primary fuel self = Some (Ok r) ->
     exists seg, derives_primary seg r.1 /\
       ahead self = (seg ++ ahead r.2)%list).
Proof.
  induction fuel as [|fuel (IHor & IHorl & IHand & IHandl & IHnot & IHprim)].
  { split_and!; intros; done. }
  destruct (parse_sound fuel) as (Sor & Sorl & Sand & Sandl & Snot & Sprim).
  split_and!.
  - intros self r Hb H. cbn [parse_or] in H. step_in H.
    destruct (IHand _ _ Hb E) as (seg & Hseg & Ha).
    pose proof (sound_from_in_bounds _ _ _ (Sand self Hb) E) as Hb1.
    destruct (IHorl _ _ _ Hb1 H) as (tail & Htail & Ha1).
    exists (seg ++ tail)%list. split; [by econstructor|].
    by rewrite Ha, Ha1, app_assoc.
  - intros acc self r Hb H. cbn [parse_or_loop] in H. step_in H.
    destruct a as [found self1]. cbn [fst snd] in H.
    apply _match_inv in E as (Hb1 & Hm); [|done]. destruct found.
    + destruct Hm as (token & Ha & Htype & _). step_in H.
      destruct (IHand _ _ Hb1 E) as (seg & Hseg & Ha1).
      pose proof (sound_from_in_bounds _ _ _ (Sand self1 Hb1) E) as Hb2.
      destruct (IHorl _ _ _ Hb2 H) as (tail & Htail & Ha2).
      exists (token :: seg ++ tail)%list. split; [by econstructor|].
      by rewrite Ha, Ha1, Ha2, <- app_comm_cons, app_assoc.
    + subst self1. injection H as <-. exists []. split; [constructor|done].
  - intros self r Hb H. cbn [parse_and] in H. step_in H.
    destruct (IHnot _ _ Hb E) as (seg & Hseg & Ha).
    pose proof (sound_from_in_bounds _ _ _ (Snot self Hb) E) as Hb1.
    destruct (IHandl _ _ _ Hb1 H) as (tail & Htail & Ha1).
    exists (seg ++ tail)%list. split; [by econstructor|].
    by rewrite Ha, Ha1, app_assoc.
  - intros acc self r Hb H. cbn [parse_and_loop] in H. step_in H.
    destruct a as [found self1]. cbn [fst snd] in H.
    apply _match_inv in E as (Hb1 & Hm); [|done]. destruct found.
    + destruct Hm as (token & Ha & Htype & _). step_in H.
      destruct (IHnot _ _ Hb1 E) as (seg & Hseg & Ha1).
      pose proof (sound_from_in_bounds _ _ _ (Snot self1 Hb1) E) as Hb2.
      destruct (IHandl _ _ _ Hb2 H) as (tail & Htail & Ha2).
      exists (token :: seg ++ tail)%list. split; [by econstructor|].
      by rewrite Ha, Ha1, Ha2, <- app_comm_cons, app_assoc.
    + subst self1. injection H as <-. exists []. split; [constructor|done].
  - intros self r Hb H. cbn [parse_not] in H. step_in H.
    destruct a as [found self1]. cbn [fst snd] in H.
    apply _match_inv in E as (Hb1 & Hm); [|done]. destruct found.
    + destruct Hm as (token & Ha & Htype & _). step_in H.
      destruct (IHnot _ _ Hb1 E) as (seg & Hseg & Ha1).
      injection H as <-. simpl.
      exists (token :: seg). split; [by constructor|].
      by rewrite Ha, Ha1.
    + subst self1. destruct (IHprim _ _ Hb H) as (seg & Hseg & Ha).
      exists seg. split; [by constructor|done].
  - intros self r Hb H. cbn [parse_primary] in H. step_in H.
    rename a into token, E into Hpeek. step_in H.
    destruct a as [found self1]. cbn [fst snd] in H.
    apply _match_inv in E as (Hb1 & Hm); [|done]. destruct found.
    { destruct Hm as (token' & Ha & Htype & Hpeek').
      assert (token' = token) as -> by congruence.
      injection H as <-. simpl. exists [token]. split; [by constructor|done]. }
    subst self1. clear Hb1. step_in H.
    destruct a as [found self1]. cbn [fst snd] in H.
    apply _match_inv in E as (Hb1 & Hm); [|done]. destruct found.
    { destruct Hm as (token' & Ha & Htype & Hpeek').
      assert (token' = token) as -> by congruence.
      injection H as <-. simpl. exists [token]. split; [by constructor|done]. }
    subst self1. clear Hb1. step_in H.
    destruct a as [found self1]. cbn [fst snd] in H.
    apply _match_inv in E as (Hb1 & Hm); [|done]. destruct found.
    + destruct Hm as (l & Ha & Htype & _). step_in H.
      destruct (IHor _ _ Hb1 E) as (seg & Hseg & Ha1).
      pose proof (sound_from_in_bounds _ _ _ (Sor self1 Hb1) E) as Hb2.
      step_in H. injection H as <-. simpl.
      destruct a0 as [t self3].
      assert (Hc : _consume a.2 RPAREN (Some "parenthèse fermante ')'")
                   = Ok (t, self3)).
      { unfold except_UnexpectedTokenError in E0.
        destruct (_consume a.2 RPAREN _) as [?|[]]; done. }
      apply _consume_inv in Hc as (Hb3 & Ha2 & Ht); [|done].
      exists (l :: seg ++ [t])%list. split; [by constructor|].
      simpl. by rewrite Ha, Ha1, Ha2, <- app_assoc.
    + subst self1. step_in H. destruct a; [step_in H|]; done.
Qed.

Lemma parse_of_derivation source seg eof e :
  tokenize source true = Some (Ok (seg ++ [eof])%list) ->
  derives_or seg e -> parse source = Some (Ok e).
Proof.
  intros Htok Hseg. unfold parse. rewrite Htok.
  unfold tokenize in Htok.
  apply tokenize_loop_EOF in Htok as (front & last & Heq & Hlast & _);
    [|done].
  apply app_inj_tail in Heq as [_ ->].
  unfold parse_expression.
  set (parser := mkParser (seg ++ [last]) source 0).
  assert (Ha : ahead parser = (seg ++ [last])%list) by done.
  rewrite (proj1 parse_complete seg e Hseg parser [last]); first last.
  { rewrite length_app. lia. }
  { simpl. rewrite Hlast. by apply (bool_decide_unpack _). }
  { done. }
  unfold fbind at 1; cbv beta iota; cbn [fst snd].
  apply ahead_forward in Ha.
  rewrite (_is_at_end_ahead _ _ _ Ha).
  unfold fbind at 1, call at 1; cbv beta iota.
  by rewrite bool_decide_eq_true_2.
Qed.

Lemma derivation_of_parse source e :
  parse source = Some (Ok e) ->
  exists seg eof,
    tokenize source true = Some (Ok (seg ++ [eof])%list) /\
    derives_or seg e.
Proof.
  unfold parse. intros H.
  destruct (tokenize source true) as [[tokens|err]|] eqn:Htok;
    [|by destruct err|done].
  pose proof (tokenize_in_bounds _ _ _ Htok) as Hb.
  unfold tokenize in Htok.
  apply tokenize_loop_EOF in Htok as (front & last & -> & Hlast & Hfront);
    [|done].
  unfold parse_expression in H. step_in H. step_in H.
  destruct a0; cbn [negb] in H; cbv iota in H; [|step_in H; done].
  injection H as <-.
  destruct (proj1 (parse_derives _) _ _ Hb E) as (seg & Hseg & Ha).
  pose proof (proj1 (parse_sound (4 * List.length (front ++ [last]) + 4))
                _ Hb) as Hs.
  unfold sound_from in Hs. rewrite E in Hs.
  destruct Hs as ([Htokens _] & _ & Hb').
  destruct (_peek_in_bounds _ Hb') as (token & Hpeek & Htoken).
  unfold _is_at_end in E0. rewrite Hpeek in E0. simpl in E0.
  injection E0 as Heof%bool_decide_eq_true.
  exists seg, last. split; [|done]. do 2 f_equal.
  unfold ahead in Ha. cbn [current tokens drop] in Ha.
  rewrite Ha at 1. f_equal.
  cbn [tokens] in Htokens.
  destruct Hb' as [Hlt _]. rewrite Htokens in Hlt, Htoken |- *.
  rewrite length_app in Hlt. cbn [List.length] in Hlt.
  destruct (decide (current a.2 < List.length front)) as [Hin|Hout].
  - rewrite lookup_app_l in Htoken by done.
    apply list_elem_of_lookup_2 in Htoken.
    rewrite Forall_forall in Hfront. by apply Hfront in Htoken.
  - replace (current a.2) with (List.length front) by lia.
    by rewrite drop_app_length.
Qed.

(** X19. The parser implements the grammar of its docstring: [parse]
    returns the tree [e] exactly when the tokens of the source, up to the
    final [EOF], derive [e] in that grammar, where [AND] and [OR] associate
    to the left, [NOT] binds tighter than [AND] and [AND] tighter than
    [OR]. *)
Theorem parse_grammar (source : string) (e : Expr) :
  parse source = Some (Ok e) <->
  exists seg eof,
    tokenize source true = Some (Ok (seg ++ [eof])%list) /\
    derives_or seg e.
Proof.
  split; [apply derivation_of_parse|].
  intros (seg & eof & Htok & Hseg). by eapply parse_of_derivation.
Qed.

End parser_grammar.

(** ** Reading words *)

Section tokenizer_reading.
Import tokenizer.

Lemma append_nil (b : string) : "" ++ b = b.
Proof. done. Qed.

Lemma append_cons x (a b : string) : String x a ++ b = String x (a ++ b).
Proof. done. Qed.

Lemma append_assoc (a b c : string) : (a ++ b) ++ c = a ++ (b ++ c).
Proof.
  induction a as [|x a IH]; rewrite ?append_cons, ?append_nil; [done|].
  by rewrite IH.
Qed.

Lemma string_drop_append a b : string_drop (String.length a) (a ++ b) = b.
Proof.
  induction a as [|x a IH]; rewrite ?append_cons, ?append_nil; simpl;
    [by destruct b|done].
Qed.

Lemma string_take_append a b : string_take (String.length a) (a ++ b) = a.
Proof.
  induction a as [|x a IH]; rewrite ?append_cons, ?append_nil; simpl;
    [by destruct b|]. by rewrite IH.
Qed.

Lemma string_drop_add n m s :
  string_drop (n + m) s = string_drop m (string_drop n s).
Proof.
  revert s. induction n as [|n IH]; intros s; simpl; [done|].
  destruct s as [|c s]; [by destruct m|]. apply IH.
Qed.

Lemma span_append p a b :
  span p a = String.length a ->
  span p (a ++ b) = String.length a + span p b.
Proof.
  induction a as [|x a IH]; rewrite ?append_cons, ?append_nil; simpl;
    [done|].
  destruct (p x); [|done]. intros [= H]. by rewrite IH.
Qed.

Lemma _IDENT_RE_append w rest :
  _IDENT_RE w = Some (String.length w) -> delimited rest ->
  _IDENT_RE (w ++ rest) = Some (String.length w).
Proof.
  unfold _IDENT_RE, delimited. destruct w as [|c w]; [done|].
  rewrite append_cons. simpl.
  destruct (is_ident_start c); [|done]. intros [= H] Hrest.
  rewrite span_append, Hrest by done. do 2 f_equal. lia.
Qed.

Lemma is_ident_start_token c :
  is_ident_start c = true ->
  is_space c = false /\ c <> "#"%char /\ c <> "("%char /\ c <> ")"%char.
Proof.
  destruct c as [[] [] [] [] [] [] [] []]; intros H; vm_compute in H;
    try discriminate H; split_and!; done.
Qed.

Lemma text_at_length self :
  String.length (text_at self) = length self - offset self.
Proof. apply string_drop_length. Qed.

Lemma text_at_cons self c t :
  text_at self = String c t ->
  offset self < length self /\
  String.get (offset self) (source self) = Some c.
Proof. intros H. apply string_drop_cons_get in H as [? ?]. by split. Qed.

Lemma text_at__advance self n :
  n <= String.length (text_at self) ->
  text_at (_advance self n) = string_drop n (text_at self).
Proof.
  rewrite text_at_length. intros Hn.
  destruct (decide (n = 0)) as [->|Hpos]; [done|].
  destruct (_advance_spec self n) as (Hs & _ & Ho); [lia|].
  unfold text_at. by rewrite Hs, Ho, string_drop_add.
Qed.

Lemma _skip_whitespace_token fuel self c t :
  text_at self = String c t -> is_space c = false -> 1 <= fuel ->
  _skip_whitespace fuel self = Some self.
Proof.
  intros Htext Hc Hfuel. destruct fuel as [|fuel]; [lia|]. simpl.
  destruct (text_at_cons _ _ _ Htext) as [Hlt _].
  destruct (Nat.ltb_spec (offset self) (length self)); [|lia].
  unfold _match_regex. fold (text_at self). rewrite Htext.
  unfold _WHITESPACE_RE. simpl. by rewrite Hc.
Qed.

Lemma _skip_comment_token self c t :
  text_at self = String c t -> c <> "#"%char ->
  _skip_comment self = (self, false).
Proof.
  intros Htext Hc. unfold _skip_comment.
  destruct (enable_comments self); [|done]. simpl.
  unfold _match_regex. fold (text_at self). rewrite Htext.
  unfold _COMMENT_RE.
  destruct (Ascii.eqb_spec c "#") as [->|_]; [done|].
  by destruct c as [[] [] [] [] [] [] [] []].
Qed.

Lemma _skip_blanks_blank budget self pre c t :
  text_at self = pre ++ String c t -> blank pre ->
  is_space c = false -> c <> "#"%char -> 2 <= budget ->
  exists self', _skip_blanks budget self = Some self' /\
    text_at self' = String c t.
Proof.
  intros Htext [->| ->] Hc Hhash Hbudget;
    rewrite ?append_cons, ?append_nil in Htext;
    destruct budget as [|[|budget]]; try lia.
  - exists self. split; [|done]. cbn [_skip_blanks].
    rewrite (_skip_whitespace_token _ self c t) by (done || lia).
    by rewrite (_skip_comment_token self c t).
  - assert (Hnext : text_at (_advance self 1) = String c t).
    { rewrite text_at__advance; rewrite Htext; simpl; [done|lia]. }
    exists (_advance self 1). split; [|done]. cbn [_skip_blanks].
    assert (Hws : _skip_whitespace (S (S budget)) self
                  = Some (_advance self 1)).
    { remember (S budget) as fuel eqn:Hfuel. cbn [_skip_whitespace].
      destruct (text_at_cons _ _ _ Htext) as [Hlt _].
      destruct (Nat.ltb_spec (offset self) (length self)); [|lia].
      unfold _match_regex. fold (text_at self). rewrite Htext.
      assert (_WHITESPACE_RE (String " " (String c t)) = Some 1) as ->.
      { unfold _WHITESPACE_RE. simpl. by rewrite Hc. }
      by apply (_skip_whitespace_token _ _ c t); [..|lia]. }
    rewrite Hws. by rewrite (_skip_comment_token _ c t).
Qed.

(** A parenthesis, after a blank. *)
Lemma _read_token_paren budget self pre c rest :
  text_at self = pre ++ String c rest -> blank pre ->
  c = "("%char \/ c = ")"%char -> 2 <= budget ->
  exists token self',
    _read_token budget self = Some (Ok (token, self')) /\
    type token = (if Ascii.eqb c "(" then LPAREN else RPAREN) /\
    text_at self' = rest.
Proof.
  intros Htext Hpre Hc Hbudget.
  destruct (_skip_blanks_blank budget self pre c rest) as (self1 & Hskip & H1);
    [done|done|by destruct Hc as [->| ->]|by destruct Hc as [->| ->]|done|].
  unfold _read_token. rewrite Hskip.
  destruct (text_at_cons _ _ _ H1) as [Hlt Hget].
  destruct (Nat.leb_spec (length self1) (offset self1)); [lia|].
  rewrite Hget. change (default "000"%char (Some c)) with c.
  assert (Hnext : text_at (_advance self1 1) = rest).
  { rewrite text_at__advance; rewrite H1; simpl; [done|lia]. }
  destruct Hc as [->| ->]; simpl; eauto.
Qed.

(** A word, after a blank: an identifier or a keyword. *)
Lemma _read_token_word budget self pre w rest :
  text_at self = pre ++ w ++ rest -> blank pre ->
  _IDENT_RE w = Some (String.length w) -> delimited rest -> 2 <= budget ->
  exists token self',
    _read_token budget self = Some (Ok (token, self')) /\
    type token = default IDENT (_KEYWORDS (upper w)) /\
    lexeme token =
      (if bool_decide (default IDENT (_KEYWORDS (upper w)) <> IDENT)
       then upper w else w) /\
    text_at self' = rest.
Proof.
  intros Htext Hpre Hw Hrest Hbudget.
  destruct w as [|c w]; [done|].
  assert (Hstart : is_ident_start c = true).
  { unfold _IDENT_RE in Hw. by destruct (is_ident_start c). }
  destruct (is_ident_start_token c Hstart) as (Hsp & Hhash & Hl & Hr).
  destruct (_skip_blanks_blank budget self pre c (w ++ rest))
    as (self1 & Hskip & H1); [by rewrite <- append_cons|done..|].
  unfold _read_token. rewrite Hskip.
  destruct (text_at_cons _ _ _ H1) as [Hlt Hget].
  destruct (Nat.leb_spec (length self1) (offset self1)); [lia|].
  rewrite Hget. change (default "000"%char (Some c)) with c.
  destruct (Ascii.eqb_spec c "("); [done|].
  destruct (Ascii.eqb_spec c ")"); [done|].
  unfold _match_regex. fold (text_at self1). rewrite H1.
  rewrite <- append_cons.
  rewrite (_IDENT_RE_append _ _ Hw Hrest), string_take_append.
  do 2 eexists. split; [reflexivity|]. split; [done|]. split; [done|].
  rewrite text_at__advance; rewrite H1.
  - rewrite <- append_cons. apply string_drop_append.
  - simpl. clear. induction w; rewrite ?append_cons, ?append_nil; simpl; lia.
Qed.

(** The end of the source. *)
Lemma _read_token_end budget self :
  text_at self = "" -> 1 <= budget ->
  exists token, _read_token budget self = Some (Ok (token, self)) /\
    type token = EOF.
Proof.
  intros Htext Hbudget. destruct budget as [|budget]; [lia|].
  pose proof (text_at_length self) as Hlen. rewrite Htext in Hlen.
  simpl in Hlen. unfold _read_token. cbn [_skip_blanks _skip_whitespace].
  destruct (Nat.ltb_spec (offset self) (length self)); [lia|].
  unfold _skip_comment, _match_regex. fold (text_at self). rewrite Htext.
  assert (Hskip : (if negb (enable_comments self) then (self, false)
                   else match _COMMENT_RE "" with
                        | Some n => (_advance self n, true)
                        | None => (self, false)
                        end) = (self, false)) by (by destruct enable_comments).
  rewrite Hskip.
  destruct (Nat.leb_spec (length self) (offset self)); [|lia]. eauto.
Qed.

Lemma reads_app budget self tokens1 self1 tokens2 self2 :
  reads budget self tokens1 self1 -> reads budget self1 tokens2 self2 ->
  reads budget self (tokens1 ++ tokens2) self2.
Proof.
  revert self. induction tokens1 as [|token tokens1 IH]; simpl; intros self.
  - by intros ->.
  - intros (s & Hread & Htype & Hrest) H2. eauto.
Qed.

Lemma tokenize_loop_reads budget fuel self acc tokens self' eof self'' res :
  reads budget self tokens self' ->
  _read_token budget self' = Some (Ok (eof, self'')) -> type eof = EOF ->
  tokenize_loop budget fuel self acc = Some res ->
  res = Ok (acc ++ tokens ++ [eof])%list.
Proof.
  revert self acc tokens.
  induction fuel as [|fuel IH]; intros self acc tokens; [done|].
  cbn [tokenize_loop]. destruct tokens as [|token tokens]; simpl.
  - intros -> Hread Heof. rewrite Hread. simpl.
    rewrite bool_decide_eq_true_2 by done. by intros [= <-].
  - intros (self1 & Hread & Htype & Hrest) Heof Htype'. rewrite Hread. simpl.
    rewrite bool_decide_eq_false_2 by done. intros H.
    rewrite (IH _ _ _ Hrest Heof Htype' H). by rewrite <- app_assoc.
Qed.

(** The tokens of a source that is read as [tokens] and then ends. *)
Lemma tokenize_reads source enable_comments tokens self' :
  reads (String.length source + 2) (__init__ source enable_comments)
    tokens self' ->
  text_at self' = "" ->
  exists eof, type eof = EOF /\
    tokenize source enable_comments = Some (Ok (tokens ++ [eof])%list).
Proof.
  intros Hreads Hend.
  destruct (_read_token_end (String.length source + 2) self' Hend)
    as (eof & Heof & Htype); [lia|].
  exists eof. split; [done|].
  destruct (tokenize_total source enable_comments) as [res Hres].
  rewrite Hres. f_equal. unfold tokenize in Hres.
  by apply (tokenize_loop_reads _ _ _ _ _ _ _ _ _ Hreads Heof Htype Hres).
Qed.

End tokenizer_reading.

(** ** The pretty-printer *)

Section pretty_properties.
Import ast tokenizer parser pretty.

Lemma derives_not_and ts e : derives_not ts e -> derives_and ts e.
Proof.
  intros H. rewrite <- (app_nil_r ts). econstructor; [done|constructor].
Qed.

Lemma derives_and_or ts e : derives_and ts e -> derives_or ts e.
Proof.
  intros H. rewrite <- (app_nil_r ts). econstructor; [done|constructor].
Qed.

Lemma readable_as_mono (D D' : list Token -> Expr -> Prop) s e e' :
  (forall ts, D ts e -> D' ts e') -> readable_as D s e -> readable_as D' s e'.
Proof.
  intros HD H lexer pre rest budget Htext Hpre Hrest Hbudget.
  destruct (H lexer pre rest budget) as (ts & lexer' & ? & ? & ?); eauto 10.
Qed.

Lemma delimited_space rest : delimited (" " ++ rest).
Proof. done. Qed.

Lemma delimited_rparen rest : delimited (")" ++ rest).
Proof. done. Qed.

(** [f"({s})"] *)
Lemma readable_paren s e :
  readable_as derives_or s e ->
  readable_as derives_primary ("(" ++ s ++ ")") e.
Proof.
  intros Hs lexer pre rest budget Htext Hpre Hrest Hbudget.
  rewrite !append_assoc, append_cons, append_nil in Htext.
  destruct (_read_token_paren budget lexer pre "(" _ Htext Hpre)
    as (l & lexer1 & Hl & Hlt & H1); [by left|done|].
  rewrite <- (append_nil (s ++ _)) in H1.
  destruct (Hs lexer1 "" (")" ++ rest) budget)
    as (ts & lexer2 & Hts & Hd & H2); [done|by left|done|done|].
  rewrite <- (append_nil (")" ++ rest)) in H2.
  destruct (_read_token_paren budget lexer2 "" ")" _ H2)
    as (r & lexer3 & Hr & Hrt & H3); [by left|by right|done|].
  exists (l :: ts ++ [r])%list, lexer3. split_and!.
  - simpl. exists lexer1. split; [done|]. split; [by rewrite Hlt|].
    eapply reads_app; [done|]. simpl. exists lexer3.
    split; [done|]. split; [by rewrite Hrt|done].
  - by constructor.
  - done.
Qed.

Lemma readable_keyword self keyword token_type :
  (keyword, token_type) ∈ [("NOT", NOT); ("AND", AND); ("OR", OR)] ->
  forall lexer pre rest budget,
    text_at lexer = pre ++ _format_keyword self keyword ++ rest ->
    blank pre -> delimited rest -> 2 <= budget ->
    exists token lexer',
      _read_token budget lexer = Some (Ok (token, lexer')) /\
      type token = token_type /\ text_at lexer' = rest.
Proof.
  intros Hkw lexer pre rest budget Htext Hpre Hrest Hbudget.
  destruct (_read_token_word budget lexer pre (_format_keyword self keyword)
              rest) as (token & lexer' & Hread & Htype & _ & Hnext);
    [done|done| |done|done|].
  - unfold _format_keyword.
    repeat (apply elem_of_cons in Hkw as [[= -> ->]|Hkw];
            [by destruct (case_style (options self))|]).
    by apply elem_of_nil in Hkw.
  - exists token, lexer'. split; [done|]. split; [|done]. rewrite Htype.
    unfold _format_keyword.
    repeat (apply elem_of_cons in Hkw as [[= -> ->]|Hkw];
            [by destruct (case_style (options self))|]).
    by apply elem_of_nil in Hkw.
Qed.

(** [f"{not_keyword} {operand_str}"] *)
Lemma readable_not self s e :
  readable_as derives_not s e ->
  readable_as derives_not (_format_keyword self "NOT" ++ " " ++ s) (Not e).
Proof.
  intros Hs lexer pre rest budget Htext Hpre Hrest Hbudget.
  rewrite !append_assoc in Htext.
  destruct (readable_keyword self "NOT" NOT ltac:(repeat constructor)
              _ _ _ budget Htext)
    as (token & lexer1 & Hread & Htype & H1);
    [done..|].
  destruct (Hs lexer1 " " rest budget) as (ts & lexer2 & Hts & Hd & H2);
    [done|by right|done|done|].
  exists (token :: ts), lexer2. split_and!; [|by constructor|done].
  simpl. exists lexer1. split; [done|]. split; [by rewrite Htype|done].
Qed.

(** [f"{left_str} {keyword} {right_str}"] *)
Lemma readable_binary self keyword token_type
    (Dl Dr D : list Token -> Expr -> Prop) sl l sr r e :
  (keyword, token_type) ∈ [("NOT", NOT); ("AND", AND); ("OR", OR)] ->
  (forall tsl token tsr,
     Dl tsl l -> type token = token_type -> Dr tsr r ->
     D (tsl ++ token :: tsr)%list e) ->
  readable_as Dl sl l -> readable_as Dr sr r ->
  readable_as D (sl ++ " " ++ _format_keyword self keyword ++ " " ++ sr) e.
Proof.
  intros Hkw HD Hl Hr lexer pre rest budget Htext Hpre Hrest Hbudget.
  rewrite !append_assoc in Htext.
  destruct (Hl lexer pre _ budget Htext) as (tsl & lexer1 & Htsl & Hdl & H1);
    [done..|].
  destruct (readable_keyword self keyword token_type Hkw _ _ _ budget H1)
    as (token & lexer2 & Hread & Htype & H2);
    [by right|done..|].
  destruct (Hr lexer2 " " rest budget) as (tsr & lexer3 & Htsr & Hdr & H3);
    [done|by right|done|done|].
  exists (tsl ++ token :: tsr)%list, lexer3. split_and!; [|by apply HD|done].
  eapply reads_app; [done|]. simpl. exists lexer2.
  split; [done|]. split; [|done].
  rewrite Htype. clear -Hkw.
  repeat (apply elem_of_cons in Hkw as [[= -> ->]|Hkw]; [done|]).
  by apply elem_of_nil in Hkw.
Qed.

Lemma derives_and_tail_one acc token ts r :
  type token = AND -> derives_not ts r ->
  derives_and_tail acc (token :: ts) (And acc r).
Proof.
  intros Htype Hr. rewrite <- (app_nil_r ts).
  econstructor; [done|done|constructor].
Qed.

Lemma derives_or_tail_one acc token ts r :
  type token = OR -> derives_and ts r ->
  derives_or_tail acc (token :: ts) (Or acc r).
Proof.
  intros Htype Hr. rewrite <- (app_nil_r ts).
  econstructor; [done|done|constructor].
Qed.

Lemma readable_and self sl l sr r :
  readable_as derives_not sl l -> readable_as derives_not sr r ->
  readable_as derives_and
    (sl ++ " " ++ _format_keyword self "AND" ++ " " ++ sr) (And l r).
Proof.
  apply (readable_binary self "AND" AND); [repeat constructor|].
  intros tsl token tsr Hl Htype Hr.
  econstructor; [done|]. by apply derives_and_tail_one.
Qed.

Lemma readable_or self sl l sr r :
  readable_as derives_and sl l -> readable_as derives_and sr r ->
  readable_as derives_or
    (sl ++ " " ++ _format_keyword self "OR" ++ " " ++ sr) (Or l r).
Proof.
  apply (readable_binary self "OR" OR); [repeat constructor|].
  intros tsl token tsr Hl Htype Hr.
  econstructor; [done|]. by apply derives_or_tail_one.
Qed.

(** [expr.name] *)
Lemma readable_Var name :
  is_identifier name -> readable_as derives_primary name (Var name).
Proof.
  intros [Hre Hkw] lexer pre rest budget Htext Hpre Hrest Hbudget.
  destruct (_read_token_word budget lexer pre name rest)
    as (token & lexer' & Hread & Htype & Hlexeme & Hnext); [done..|].
  rewrite Hkw in Htype, Hlexeme. simpl in Htype, Hlexeme.
  exists [token], lexer'. split_and!; [|rewrite <- Hlexeme; by constructor|done].
  simpl. exists lexer'. split; [done|]. split; [by rewrite Htype|done].
Qed.

(** [self._format_bool(expr.value)] *)
Lemma readable_BoolLit self value :
  readable_as derives_primary (_format_bool self value) (BoolLit value).
Proof.
  intros lexer pre rest budget Htext Hpre Hrest Hbudget.
  destruct (_read_token_word budget lexer pre (_format_bool self value) rest)
    as (token & lexer' & Hread & Htype & Hlexeme & Hnext);
    [done|done| |done|done|].
  { unfold _format_bool. by destruct (case_style (options self)), value. }
  assert (type token = BOOL /\ bool_value token = value) as [Hbool Hvalue].
  { unfold bool_value. rewrite Htype, Hlexeme. unfold _format_bool.
    by destruct (case_style (options self)), value. }
  exists [token], lexer'. split_and!; [|rewrite <- Hvalue; by constructor|done].
  simpl. exists lexer'. split; [done|]. split; [by rewrite Hbool|done].
Qed.

(** A visit leaves the printer as it found it. *)
Lemma accept_restores expr self : (accept expr self).2 = self.
Proof.
  revert self. induction expr as [name|value|e IH|l IHl r IHr|l IHl r IHr];
    intros self; cbn [accept]; try done.
  - specialize (IH (set_parent_precedence self PREC_NOT)).
    destruct (accept e _) as [s self1]. simpl in *. subst self1.
    by destruct self.
  - specialize (IHl (set_parent_precedence self PREC_AND)).
    destruct (accept l _) as [sl self1]. simpl in IHl. subst self1.
    specialize (IHr (set_parent_precedence self PREC_AND)).
    destruct (accept r _) as [sr self2]. simpl in *. subst self2.
    by destruct self.
  - specialize (IHl (set_parent_precedence self PREC_OR)).
    destruct (accept l _) as [sl self1]. simpl in IHl. subst self1.
    specialize (IHr (set_parent_precedence self PREC_OR)).
    destruct (accept r _) as [sr self2]. simpl in *. subst self2.
    by destruct self.
Qed.

Lemma readable_primary_not s e :
  readable_as derives_primary s e -> readable_as derives_not s e.
Proof. apply readable_as_mono. intros ts. apply derives_not_primary. Qed.

Lemma readable_not_and s e :
  readable_as derives_not s e -> readable_as derives_and s e.
Proof. apply readable_as_mono. intros ts. apply derives_not_and. Qed.

Lemma readable_and_or s e :
  readable_as derives_and s e -> readable_as derives_or s e.
Proof. apply readable_as_mono. intros ts. apply derives_and_or. Qed.

Lemma _needs_parens_always self precedence :
  show_parentheses (options self) = "always" ->
  _needs_parens self precedence = true.
Proof. unfold _needs_parens. by intros ->. Qed.

Lemma append_nil_r (s : string) : s ++ "" = s.
Proof.
  induction s as [|c s IH]; rewrite ?append_cons, ?append_nil; [done|].
  by rewrite IH.
Qed.

(** With [show_parentheses = "always"], what a visit returns is read back
    as the expression visited. *)
Lemma accept_always_readable expr self :
  show_parentheses (options self) = "always" ->
  set_Forall is_identifier (free_vars expr) ->
  readable_as derives_not (accept expr self).1 expr.
Proof.
  revert self. induction expr as [name|value|e IH|l IHl r IHr|l IHl r IHr];
    intros self Halways Hnames; cbn [accept free_vars] in *.
  - apply readable_primary_not, readable_Var, Hnames. set_solver.
  - apply readable_primary_not, readable_BoolLit.
  - specialize (IH (set_parent_precedence self PREC_NOT) Halways Hnames).
    pose proof (accept_restores e (set_parent_precedence self PREC_NOT)) as Hst.
    destruct (accept e _) as [s self1]. simpl in IH, Hst. subst self1.
    cbn [fst]. rewrite _needs_parens_always by done.
    apply readable_not. destruct (isinstance_Not e); simpl; [|done].
    by apply readable_primary_not, readable_paren, readable_and_or,
      readable_not_and.
  - assert (Hl : set_Forall is_identifier (free_vars l)).
    { intros x Hx. apply Hnames. set_solver. }
    assert (Hr : set_Forall is_identifier (free_vars r)).
    { intros x Hx. apply Hnames. set_solver. }
    specialize (IHl (set_parent_precedence self PREC_AND) Halways Hl).
    specialize (IHr (set_parent_precedence self PREC_AND) Halways Hr).
    pose proof (accept_restores l (set_parent_precedence self PREC_AND)) as Hstl.
    destruct (accept l _) as [sl self1]. simpl in IHl, Hstl. subst self1.
    pose proof (accept_restores r (set_parent_precedence self PREC_AND)) as Hstr.
    destruct (accept r _) as [sr self2]. simpl in IHr, Hstr. subst self2.
    cbn [fst]. unfold _wrap_if_needed. rewrite !_needs_parens_always by done.
    apply readable_primary_not, readable_paren, readable_and_or, readable_and.
    + destruct (isinstance_Or l); simpl; [|done].
      by apply readable_primary_not, readable_paren, readable_and_or,
        readable_not_and.
    + destruct (isinstance_Or r); simpl; [|done].
      by apply readable_primary_not, readable_paren, readable_and_or,
        readable_not_and.
  - assert (Hl : set_Forall is_identifier (free_vars l)).
    { intros x Hx. apply Hnames. set_solver. }
    assert (Hr : set_Forall is_identifier (free_vars r)).
    { intros x Hx. apply Hnames. set_solver. }
    specialize (IHl (set_parent_precedence self PREC_OR) Halways Hl).
    specialize (IHr (set_parent_precedence self PREC_OR) Halways Hr).
    pose proof (accept_restores l (set_parent_precedence self PREC_OR)) as Hstl.
    destruct (accept l _) as [sl self1]. simpl in IHl, Hstl. subst self1.
    pose proof (accept_restores r (set_parent_precedence self PREC_OR)) as Hstr.
    destruct (accept r _) as [sr self2]. simpl in IHr, Hstr. subst self2.
    cbn [fst]. unfold _wrap_if_needed. rewrite !_needs_parens_always by done.
    by apply readable_primary_not, readable_paren, readable_or;
      apply readable_not_and.
Qed.

(** X20. Printing with all parentheses and parsing the result gives the
    expression back, for every case style, when the variables of the
    expression are identifiers of the language (they match
    [[A-Za-z_][A-Za-z0-9_]*] and are no keyword in any casing). *)
Theorem parse_pretty_print_always (expr : Expr)
    (case_style : CaseStyle + string) (indent : nat) (s : string) :
  set_Forall is_identifier (free_vars expr) ->
  pretty_print expr case_style "always" indent = Ok s ->
  parse s = Some (Ok expr).
Proof.
  intros Hnames Hs. unfold pretty_print in Hs.
  destruct (match case_style with
            | inl style => Ok style
            | inr value => CaseStyle_of_value (lower value)
            end) as [style|]; simpl in Hs; [|done].
  injection Hs as <-. unfold format.
  set (printer := set_parent_precedence _ _).
  destruct (accept_always_readable expr printer eq_refl Hnames
              (__init__ (accept expr printer).1 true) "" ""
              (String.length (accept expr printer).1 + 2))
    as (ts & lexer' & Hreads & Hd & Hend);
    [by rewrite append_nil, append_nil_r|by left|done|lia|].
  destruct (tokenize_reads _ _ _ _ Hreads Hend) as (eof & _ & Htok).
  eapply parse_of_derivation; [done|].
  by apply derives_and_or, derives_not_and.
Qed.

Lemma parse_pretty_print_always_witness :
  let expr := And (Or (Var "a") (BoolLit true)) (Not (Not (Var "b_1"))) in
  let s := "(((a Or True)) And Not (Not b_1))" in
  set_Forall is_identifier (free_vars expr) /\
  pretty_print expr (inr "Mixed") "always" 0 = Ok s /\
  parse s = Some (Ok expr).
Proof.
  intros expr s.
  assert (Hnames : set_Forall is_identifier (free_vars expr)).
  { apply (bool_decide_unpack _). by vm_compute. }
  assert (Hs : pretty_print expr (inr "Mixed") "always" 0 = Ok s).
  { by vm_compute. }
  split; [done|]. split; [done|].
  exact (parse_pretty_print_always expr (inr "Mixed") 0 s Hnames Hs).
Defined.

(** *** The fewest parentheses *)

Lemma derives_and_tail_app a t1 b t2 c :
  derives_and_tail a t1 b -> derives_and_tail b t2 c ->
  derives_and_tail a (t1 ++ t2) c.
Proof.
  induction 1 as [|acc token ts r tail e Htype Hr Htail IH]; intros H2;
    [done|].
  simpl. rewrite <- app_assoc. econstructor; eauto.
Qed.

Lemma derives_or_tail_app a t1 b t2 c :
  derives_or_tail a t1 b -> derives_or_tail b t2 c ->
  derives_or_tail a (t1 ++ t2) c.
Proof.
  induction 1 as [|acc token ts r tail e Htype Hr Htail IH]; intros H2;
    [done|].
  simpl. rewrite <- app_assoc. econstructor; eauto.
Qed.

Lemma derives_and_extend ts a tail b :
  derives_and ts a -> derives_and_tail a tail b -> derives_and (ts ++ tail) b.
Proof.
  intros Ha Ht. inversion Ha; subst. rewrite <- app_assoc.
  econstructor; [done|]. by eapply derives_and_tail_app.
Qed.

Lemma derives_or_extend ts a tail b :
  derives_or ts a -> derives_or_tail a tail b -> derives_or (ts ++ tail) b.
Proof.
  intros Ha Ht. inversion Ha; subst. rewrite <- app_assoc.
  econstructor; [done|]. by eapply derives_or_tail_app.
Qed.

Lemma reassociate_OntoAnd acc e :
  (forall l r, e <> And l r) ->
  reassociate (OntoAnd acc) e = And acc (reassociate Whole e).
Proof. destruct e; simpl; try done. intros H. by destruct (H e1 e2). Qed.

Lemma reassociate_OntoOr acc e :
  (forall l r, e <> Or l r) ->
  reassociate (OntoOr acc) e = Or acc (reassociate Whole e).
Proof. destruct e; simpl; try done. intros H. by destruct (H e1 e2). Qed.

Lemma printed_of_not parent ts e :
  derives_not ts (reassociate Whole e) ->
  (parent = PREC_AND -> forall l r, e <> And l r) ->
  (parent = PREC_OR -> forall l r, e <> Or l r) ->
  printed parent ts e.
Proof.
  intros Hd Hand Hor. split_and!; [|intros HP; split|intros HP; split|done].
  - by apply derives_and_or, derives_not_and.
  - by apply derives_and_or, derives_not_and.
  - intros acc token Htype. rewrite reassociate_OntoOr by auto.
    by apply derives_or_tail_one, derives_not_and.
  - by apply derives_not_and.
  - intros acc token Htype. rewrite reassociate_OntoAnd by auto.
    by apply derives_and_tail_one.
Qed.

Lemma printed_of_and_operand parent ts e :
  and_operand ts e -> parent <= PREC_AND ->
  (parent = PREC_OR -> forall l r, e <> Or l r) ->
  printed parent ts e.
Proof.
  intros [Hd Hitem] HP Hor. split_and!.
  - by apply derives_and_or.
  - intros HP1. split; [by apply derives_and_or|].
    intros acc token Htype. rewrite reassociate_OntoOr by auto.
    by apply derives_or_tail_one.
  - done.
  - unfold PREC_NOT, PREC_AND in *. lia.
Qed.

Lemma printed_of_or_operand parent ts e :
  or_operand ts e -> parent <= PREC_OR -> printed parent ts e.
Proof.
  intros [Hd Hitem] HP. split_and!; [done|done|..];
    unfold PREC_NOT, PREC_AND, PREC_OR in *; lia.
Qed.

Lemma and_operand_And tsl l token tsr r :
  and_operand tsl l -> type token = AND -> and_operand tsr r ->
  and_operand (tsl ++ token :: tsr) (And l r).
Proof.
  intros [Hl Hil] Htype [Hr Hir]. split.
  - simpl. eapply derives_and_extend; [done|]. by apply Hir.
  - intros acc token' Htype'. simpl. rewrite app_comm_cons.
    eapply derives_and_tail_app; [by apply Hil|by apply Hir].
Qed.

Lemma or_operand_Or tsl l token tsr r :
  or_operand tsl l -> type token = OR -> or_operand tsr r ->
  or_operand (tsl ++ token :: tsr) (Or l r).
Proof.
  intros [Hl Hil] Htype [Hr Hir]. split.
  - simpl. eapply derives_or_extend; [done|]. by apply Hir.
  - intros acc token' Htype'. simpl. rewrite app_comm_cons.
    eapply derives_or_tail_app; [by apply Hil|by apply Hir].
Qed.

Lemma printed_derives_or parent ts e :
  printed parent ts e -> derives_or ts (reassociate Whole e).
Proof. by intros (H & _). Qed.

Lemma printed_or_operand ts e : printed PREC_OR ts e -> or_operand ts e.
Proof. intros (_ & H & _). by apply H. Qed.

Lemma printed_and_operand ts e : printed PREC_AND ts e -> and_operand ts e.
Proof. intros (_ & _ & H & _). by apply H. Qed.

Lemma printed_derives_not ts e :
  printed PREC_NOT ts e -> derives_not ts (reassociate Whole e).
Proof. intros (_ & _ & _ & H). by apply H. Qed.

(** [f"({s})"], for an operand that is printed as a whole. *)
Lemma readable_printed_paren parent parent' s e :
  readable_as (printed parent') s e ->
  (parent = PREC_AND -> forall l r, e <> And l r) ->
  (parent = PREC_OR -> forall l r, e <> Or l r) ->
  readable_as (printed parent) ("(" ++ s ++ ")") e.
Proof.
  intros Hs Hand Hor.
  apply (readable_as_mono derives_primary _ _ (reassociate Whole e)).
  { intros ts Hts. by apply printed_of_not; [apply derives_not_primary|..]. }
  apply readable_paren.
  eapply readable_as_mono; [|done]. intros ts. apply printed_derives_or.
Qed.

Lemma _needs_parens_minimal self precedence :
  show_parentheses (options self) <> "always" ->
  show_parentheses (options self) <> "never" ->
  _needs_parens self precedence = (precedence <? _parent_precedence self)%nat.
Proof.
  intros Ha Hn. unfold _needs_parens.
  destruct (String.eqb_spec (show_parentheses (options self)) "always");
    [done|].
  by destruct (String.eqb_spec (show_parentheses (options self)) "never").
Qed.

(** With the fewest parentheses, what a visit returns is read back as the
    expression visited, its chains nested to the left. *)
Lemma accept_minimal_readable expr self :
  show_parentheses (options self) <> "always" ->
  show_parentheses (options self) <> "never" ->
  set_Forall is_identifier (free_vars expr) ->
  readable_as (printed (_parent_precedence self)) (accept expr self).1 expr.
Proof.
  revert self. induction expr as [name|value|e IH|l IHl r IHr|l IHl r IHr];
    intros self Ha Hn Hnames; cbn [accept free_vars] in *.
  - apply (readable_as_mono derives_primary _ _ (Var name)).
    { intros ts Hts. by apply printed_of_not; [apply derives_not_primary|..]. }
    apply readable_Var, Hnames. set_solver.
  - apply (readable_as_mono derives_primary _ _ (BoolLit value)).
    { intros ts Hts. by apply printed_of_not; [apply derives_not_primary|..]. }
    apply readable_BoolLit.
  - specialize (IH (set_parent_precedence self PREC_NOT) Ha Hn Hnames).
    pose proof (accept_restores e (set_parent_precedence self PREC_NOT)) as Hst.
    destruct (accept e _) as [s self1]. simpl in IH, Hst. subst self1.
    cbn [fst].
    apply (readable_as_mono derives_not _ _ (Not (reassociate Whole e))).
    { intros ts Hts. by apply printed_of_not. }
    apply readable_not.
    assert (Hs : readable_as derives_not s (reassociate Whole e)).
    { eapply readable_as_mono; [|done]. intros ts. apply printed_derives_not. }
    destruct (isinstance_Not e && _needs_parens _ PREC_NOT); [|done].
    by apply readable_primary_not, readable_paren, readable_and_or,
      readable_not_and.
  - assert (Hl : set_Forall is_identifier (free_vars l)).
    { intros x Hx. apply Hnames. set_solver. }
    assert (Hr : set_Forall is_identifier (free_vars r)).
    { intros x Hx. apply Hnames. set_solver. }
    specialize (IHl (set_parent_precedence self PREC_AND) Ha Hn Hl).
    specialize (IHr (set_parent_precedence self PREC_AND) Ha Hn Hr).
    pose proof (accept_restores l (set_parent_precedence self PREC_AND)) as Hstl.
    destruct (accept l _) as [sl self1]. simpl in IHl, Hstl. subst self1.
    pose proof (accept_restores r (set_parent_precedence self PREC_AND)) as Hstr.
    destruct (accept r _) as [sr self2]. simpl in IHr, Hstr. subst self2.
    cbn [fst]. unfold _wrap_if_needed.
    rewrite !_needs_parens_minimal by done. cbn [_parent_precedence set_parent_precedence].
    set (sl' := if isinstance_Or l && _ then _ else sl).
    set (sr' := if isinstance_Or r && _ then _ else sr).
    assert (Hsl : readable_as (printed PREC_AND) sl' l).
    { subst sl'. destruct (isinstance_Or l) eqn:Hor; simpl; [|done].
      destruct (_ <? _)%nat; [|done].
      apply (readable_printed_paren _ PREC_AND);
        [done|intros _ a b ->; by simpl in Hor|intros HP; discriminate HP]. }
    assert (Hsr : readable_as (printed PREC_AND) sr' r).
    { subst sr'. destruct (isinstance_Or r) eqn:Hor; simpl; [|done].
      destruct (_ <? _)%nat; [|done].
      apply (readable_printed_paren _ PREC_AND);
        [done|intros _ a b ->; by simpl in Hor|intros HP; discriminate HP]. }
    assert (Hchain : readable_as and_operand
              (sl' ++ " " ++ _format_keyword self "AND" ++ " " ++ sr')
              (And l r)).
    { apply (readable_binary self "AND" AND (printed PREC_AND)
               (printed PREC_AND) and_operand sl' l sr' r);
        [repeat constructor| |done|done].
      intros tsl token tsr Htsl Htype Htsr.
      by apply and_operand_And; [apply printed_and_operand|
                                 |apply printed_and_operand]. }
    destruct (Nat.ltb_spec PREC_AND (_parent_precedence self)) as [Hlt|Hge].
    + apply (readable_printed_paren _ PREC_AND).
      * eapply readable_as_mono; [|done]. intros ts Hts.
        by apply printed_of_and_operand.
      * unfold PREC_AND in *. lia.
      * done.
    + eapply readable_as_mono; [|done]. intros ts Hts.
      by apply printed_of_and_operand.
  - assert (Hl : set_Forall is_identifier (free_vars l)).
    { intros x Hx. apply Hnames. set_solver. }
    assert (Hr : set_Forall is_identifier (free_vars r)).
    { intros x Hx. apply Hnames. set_solver. }
    specialize (IHl (set_parent_precedence self PREC_OR) Ha Hn Hl).
    specialize (IHr (set_parent_precedence self PREC_OR) Ha Hn Hr).
    pose proof (accept_restores l (set_parent_precedence self PREC_OR)) as Hstl.
    destruct (accept l _) as [sl self1]. simpl in IHl, Hstl. subst self1.
    pose proof (accept_restores r (set_parent_precedence self PREC_OR)) as Hstr.
    destruct (accept r _) as [sr self2]. simpl in IHr, Hstr. subst self2.
    cbn [fst]. unfold _wrap_if_needed.
    rewrite !_needs_parens_minimal by done. cbn [_parent_precedence set_parent_precedence].
    assert (Hchain : readable_as or_operand
              (sl ++ " " ++ _format_keyword self "OR" ++ " " ++ sr)
              (Or l r)).
    { apply (readable_binary self "OR" OR (printed PREC_OR)
               (printed PREC_OR) or_operand sl l sr r);
        [repeat constructor| |done|done].
      intros tsl token tsr Htsl Htype Htsr.
      by apply or_operand_Or; [apply printed_or_operand|
                               |apply printed_or_operand]. }
    destruct (Nat.ltb_spec PREC_OR (_parent_precedence self)) as [Hlt|Hge].
    + apply (readable_printed_paren _ PREC_OR).
      * eapply readable_as_mono; [|done]. intros ts Hts.
        by apply printed_of_or_operand.
      * done.
      * unfold PREC_OR in *. lia.
    + eapply readable_as_mono; [|done]. intros ts Hts.
      by apply printed_of_or_operand.
Qed.

Lemma evaluate_reassociate c e env :
  evaluator.evaluate (reassociate c e) env = evaluator.evaluate (attach c e) env.
Proof.
  revert c. induction e as [name|value|e IH|l IHl r IHr|l IHl r IHr];
    intros c.
  - done.
  - done.
  - destruct c; simpl; by rewrite (IH Whole).
  - destruct c as [|acc|acc]; simpl.
    + rewrite IHr. simpl. by rewrite (IHl Whole).
    + rewrite IHr. simpl. rewrite IHl. simpl.
      destruct (evaluator.evaluate acc env); simpl; [|done].
      destruct (evaluator.evaluate l env); simpl; [|done].
      destruct (evaluator.evaluate r env); simpl; [|done].
      by rewrite andb_assoc.
    + rewrite IHr. simpl. by rewrite (IHl Whole).
  - destruct c as [|acc|acc]; simpl.
    + rewrite IHr. simpl. by rewrite (IHl Whole).
    + rewrite IHr. simpl. by rewrite (IHl Whole).
    + rewrite IHr. simpl. rewrite IHl. simpl.
      destruct (evaluator.evaluate acc env); simpl; [|done].
      destruct (evaluator.evaluate l env); simpl; [|done].
      destruct (evaluator.evaluate r env); simpl; [|done].
      by rewrite orb_assoc.
Qed.

Lemma reassociate_left_nested e :
  left_nested e -> reassociate Whole e = e.
Proof.
  induction e as [name|value|e IH|l IHl r IHr|l IHl r IHr]; simpl.
  - done.
  - done.
  - intros H. by rewrite IH.
  - intros (Hl & Hr & Hne). rewrite reassociate_OntoAnd by done.
    by rewrite IHl, IHr.
  - intros (Hl & Hr & Hne). rewrite reassociate_OntoOr by done.
    by rewrite IHl, IHr.
Qed.

(** X21. Printing with the fewest parentheses (any [show_parentheses] but
    "always" and "never", so the default "minimal") and parsing the result
    gives the expression with its chains of [And] and of [Or] nested to
    the left. That expression evaluates like the original in every
    environment, to the same value or the same error, and it is the
    original when no [And] is the right operand of an [And] and no [Or]
    the right operand of an [Or]. The variables are identifiers of the
    language. *)
Theorem parse_pretty_print_minimal (expr : Expr)
    (case_style : CaseStyle + string) (show_parentheses : string)
    (indent : nat) (s : string) :
  show_parentheses <> "always" -> show_parentheses <> "never" ->
  set_Forall is_identifier (free_vars expr) ->
  pretty_print expr case_style show_parentheses indent = Ok s ->
  parse s = Some (Ok (reassociate Whole expr)) /\
  (forall env,
     evaluator.evaluate (reassociate Whole expr) env =
     evaluator.evaluate expr env) /\
  (left_nested expr -> reassociate Whole expr = expr).
Proof.
  intros Ha Hn Hnames Hs.
  split; [|split; [intros env; apply (evaluate_reassociate Whole)
                  |apply reassociate_left_nested]].
  unfold pretty_print in Hs.
  destruct (match case_style with
            | inl style => Ok style
            | inr value => CaseStyle_of_value (lower value)
            end) as [style|]; simpl in Hs; [|done].
  injection Hs as <-. unfold format.
  set (printer := set_parent_precedence _ _).
  destruct (accept_minimal_readable expr printer Ha Hn Hnames
              (__init__ (accept expr printer).1 true) "" ""
              (String.length (accept expr printer).1 + 2))
    as (ts & lexer' & Hreads & Hd & Hend);
    [by rewrite append_nil, append_nil_r|by left|done|lia|].
  destruct (tokenize_reads _ _ _ _ Hreads Hend) as (eof & _ & Htok).
  eapply parse_of_derivation; [done|]. by eapply printed_derives_or.
Qed.

Lemma parse_pretty_print_minimal_witness :
  let a := Var "a" in
  let b := Var "b" in
  let c := Var "c" in
  let expr := Or (And a (Or b c)) (Or (And c a) (Not (Not (Or a b)))) in
  let s := "a and (b or c) or c and a or not not (a or b)" in
  pretty_print expr (inl LOWER) "minimal" 0 = Ok s /\
  parse s =
    Some (Ok (Or (Or (And a (Or b c)) (And c a)) (Not (Not (Or a b))))).
Proof.
  intros a b c expr s.
  assert (Hnames : set_Forall is_identifier (free_vars expr)).
  { apply (bool_decide_unpack _). by vm_compute. }
  assert (Hs : pretty_print expr (inl LOWER) "minimal" 0 = Ok s).
  { by vm_compute. }
  split; [done|].
  exact (proj1 (parse_pretty_print_minimal expr (inl LOWER) "minimal" 0 s
                  ltac:(done) ltac:(done) Hnames Hs)).
Defined.

End pretty_properties.

(** ** The simple pretty-printer *)

Section ast_printer_properties.
Import ast ast_printer.

Lemma append_inj_l (a b c : string) : a ++ b = a ++ c -> b = c.
Proof.
  induction a as [|x a IH]; rewrite ?append_cons, ?append_nil; [done|].
  intros [= H]. auto.
Qed.

Lemma append_inj_r (a b : string) (c : ascii) :
  a ++ String c "" = b ++ String c "" -> a = b.
Proof.
  revert b. induction a as [|x a IH]; intros [|y b];
    rewrite ?append_cons, ?append_nil; try done.
  - intros [= _ H]. by destruct b.
  - intros [= _ H]. by destruct a.
  - intros [= Hc H]. subst y. f_equal. auto.
Qed.

Lemma newlines_append a b : newlines (a ++ b) = newlines a + newlines b.
Proof.
  induction a as [|x a IH]; rewrite ?append_cons, ?append_nil; simpl;
    [done|].
  rewrite IH. lia.
Qed.

Lemma newlines_indent d : newlines (repeat_string "  " d) = 0.
Proof.
  induction d as [|d IH]; simpl; [done|]. by rewrite newlines_append, IH.
Qed.

(** A visit appends the lines of the expression, at the depth of the
    printer, and leaves the depth as it was. *)
Lemma accept_listing expr self :
  accept expr self =
    mkASTPrettyPrinter
      (_lines self ++ listing (_indent_level self) expr)
      (_indent_level self).
Proof.
  revert self. induction expr as [name|value|e IH|l IHl r IHr|l IHl r IHr];
    intros self; cbn [accept listing]; try done.
  - unfold _with_indent, _add_line. rewrite IH. cbn [_lines _indent_level].
    rewrite <- app_assoc, Nat.add_1_r. f_equal. simpl. lia.
  - unfold _with_indent, _add_line. rewrite IHl, IHr.
    cbn [_lines _indent_level].
    rewrite <- !app_assoc, Nat.add_1_r. f_equal. simpl. lia.
  - unfold _with_indent, _add_line. rewrite IHl, IHr.
    cbn [_lines _indent_level].
    rewrite <- !app_assoc, Nat.add_1_r. f_equal. simpl. lia.
Qed.

Lemma listing_length d expr : List.length (listing d expr) = size expr.
Proof.
  revert d. induction expr as [name|value|e IH|l IHl r IHr|l IHl r IHr];
    intros d; simpl; rewrite ?length_app; auto.
Qed.

Lemma listing_newline_free d expr :
  set_Forall newline_free (free_vars expr) ->
  Forall newline_free (listing d expr).
Proof.
  revert d. induction expr as [name|value|e IH|l IHl r IHr|l IHl r IHr];
    intros d Hnames; simpl in *.
  - constructor; [|done]. unfold newline_free.
    rewrite !newlines_append, newlines_indent.
    rewrite (Hnames name) by set_solver. done.
  - constructor; [|done]. unfold newline_free.
    rewrite !newlines_append, newlines_indent. by destruct value.
  - constructor; [|by apply IH]. unfold newline_free.
    by rewrite newlines_append, newlines_indent.
  - constructor.
    + unfold newline_free. by rewrite newlines_append, newlines_indent.
    + apply Forall_app. split; [apply IHl|apply IHr];
        intros x Hx; apply Hnames; set_solver.
  - constructor.
    + unfold newline_free. by rewrite newlines_append, newlines_indent.
    + apply Forall_app. split; [apply IHl|apply IHr];
        intros x Hx; apply Hnames; set_solver.
Qed.

Lemma cons_inv {A : Type} (x y : A) (l k : list A) :
  x :: l = y :: k -> x = y /\ l = k.
Proof. by intros [= -> ->]. Qed.

(** The lines determine the expression. *)
Lemma listing_inj d e1 e2 rest1 rest2 :
  (listing d e1 ++ rest1 = listing d e2 ++ rest2)%list ->
  e1 = e2 /\ rest1 = rest2.
Proof.
  revert d e2 rest1 rest2.
  induction e1 as [name|value|e IH|l IHl r IHr|l IHl r IHr];
    intros d [name'|value'|e'|l' r'|l' r'] rest1 rest2; simpl;
    intros H; apply cons_inv in H as [Hhead Htail];
    apply append_inj_l in Hhead;
    rewrite ?append_cons, ?append_nil in Hhead; try discriminate Hhead.
  - injection Hhead as Hname. apply append_inj_r in Hname. by subst.
  - split; [|done]. by destruct value, value'.
  - apply IH in Htail as [-> ->]. done.
  - rewrite <- !app_assoc in Htail.
    apply IHl in Htail as [-> Htail]. apply IHr in Htail as [-> ->]. done.
  - rewrite <- !app_assoc in Htail.
    apply IHl in Htail as [-> Htail]. apply IHr in Htail as [-> ->]. done.
Qed.

Lemma newline_free_cons c s :
  newline_free (String c s) -> c <> "010"%char /\ newline_free s.
Proof.
  unfold newline_free. simpl. destruct (Ascii.eqb_spec c "010"); [done|].
  by split.
Qed.

(** Two texts without a newline, each followed by a newline, are equal when
    what they start is. *)
Lemma append_newline_inj x y a b :
  newline_free x -> newline_free y ->
  x ++ String "010" "" ++ a = y ++ String "010" "" ++ b -> x = y /\ a = b.
Proof.
  revert y. induction x as [|c x IH]; intros [|c' y] Hx Hy;
    rewrite ?append_cons, ?append_nil.
  - by intros [= ->].
  - intros [= <- _]. by apply newline_free_cons in Hy as [? _].
  - intros [= -> _]. by apply newline_free_cons in Hx as [? _].
  - intros [= -> H]. apply newline_free_cons in Hx as [_ Hx].
    apply newline_free_cons in Hy as [_ Hy].
    destruct (IH y Hx Hy H) as [-> ->]. done.
Qed.

Lemma join_cons x y l :
  join (String "010" "") (x :: y :: l) =
  x ++ String "010" "" ++ join (String "010" "") (y :: l).
Proof. done. Qed.

Lemma join_inj l1 l2 :
  Forall newline_free l1 -> Forall newline_free l2 ->
  l1 <> [] -> l2 <> [] ->
  join (String "010" "") l1 = join (String "010" "") l2 -> l1 = l2.
Proof.
  revert l2. induction l1 as [|x l1 IH]; intros [|y l2] H1 H2 Hne1 Hne2;
    try done.
  apply Forall_cons in H1 as [Hx H1]. apply Forall_cons in H2 as [Hy H2].
  destruct l1 as [|x' l1], l2 as [|y' l2]; rewrite ?join_cons.
  - simpl. by intros ->.
  - simpl (join _ [x]). intros ->. unfold newline_free in Hx.
    rewrite !newlines_append in Hx. simpl in Hx. lia.
  - simpl (join _ [y]). intros <-. unfold newline_free in Hy.
    rewrite !newlines_append in Hy. simpl in Hy. lia.
  - intros H. apply append_newline_inj in H as [-> H]; [|done..].
    f_equal. by apply IH.
Qed.

Lemma newlines_join l :
  Forall newline_free l ->
  newlines (join (String "010" "") l) = List.length l - 1.
Proof.
  induction 1 as [|x l Hx Hl IH]; [done|].
  destruct l as [|y l]; [done|]. rewrite join_cons, !newlines_append, IH.
  rewrite Hx. simpl. lia.
Qed.

Lemma format_listing self expr :
  format self expr =
    (join (String "010" "") (listing 0 expr),
     mkASTPrettyPrinter (listing 0 expr) 0).
Proof. unfold format. by rewrite accept_listing. Qed.

Lemma listing_nonempty d expr : listing d expr <> [].
Proof. by destruct expr. Qed.

(** X22. The simple pretty-printer tells expressions apart: two
    expressions whose variable names hold no newline and that are printed
    alike are the same expression. *)
Theorem ast_pretty_print_injective (e1 e2 : Expr) :
  set_Forall newline_free (free_vars e1) ->
  set_Forall newline_free (free_vars e2) ->
  pretty_print e1 = pretty_print e2 -> e1 = e2.
Proof.
  intros H1 H2. unfold pretty_print. rewrite !format_listing. simpl.
  intros H. apply join_inj in H;
    auto using listing_newline_free, listing_nonempty.
  apply (listing_inj 0 e1 e2 [] []). by rewrite !app_nil_r.
Qed.

Lemma ast_pretty_print_injective_witness :
  let e := And (Var "a") (Not (BoolLit false)) in
  pretty_print e = pretty_print (And (Var "a") (Not (BoolLit false))) /\
  e = And (Var "a") (Not (BoolLit false)).
Proof.
  intros e. split; [done|].
  apply (ast_pretty_print_injective e (And (Var "a") (Not (BoolLit false))));
    [apply (bool_decide_unpack _); by vm_compute..|done].
Defined.

(** X23. [ASTPrettyPrinter.format] starts afresh whatever the printer
    holds, prints one line per node of the expression and leaves the
    printer at depth 0; the text is these lines joined by newlines, so it
    has as many lines as the expression has nodes when no variable name
    holds a newline. *)
Theorem ast_format_lines (self : ASTPrettyPrinter) (expr : Expr) :
  format self expr = format __init__ expr /\
  _indent_level (format self expr).2 = 0 /\
  List.length (_lines (format self expr).2) = size expr /\
  (format self expr).1 =
    join (String "010" "") (_lines (format self expr).2) /\
  (set_Forall newline_free (free_vars expr) ->
   S (newlines (format self expr).1) = size expr).
Proof.
  rewrite !format_listing. simpl. split_and!; try done.
  - apply listing_length.
  - intros Hnames. rewrite newlines_join by by apply listing_newline_free.
    rewrite listing_length. destruct expr; simpl; lia.
Qed.

End ast_printer_properties.
